(** * TrailBlazer planner (highway_env/agent/trailblazer.py)

    A shallow embedding of the planning core: the classes [MaxNode],
    [AvgNode] and [TrailBlazer], and the state class [DummyState] of the
    file's own test.

    Modelling choices.
    - Python floats are idealised as real numbers ([R]).  An operation whose
      IEEE result would be [nan] or [inf] where the control flow depends on it
      ([np.log] of a non-positive number, [np.sqrt] of a negative number)
      ends the run with the outcome [NonReal]: the model says nothing there.
      Divisions by quantities derived from the parameters gamma, eta, delta and
      epsilon are written with the total division of [R]; the theorems that
      depend on them carry the ranges as hypotheses.
    - Python objects live in a store: one growable list per class, and a
      reference is an index.  State objects are stored too, because
      [step] mutates its receiver in place.
    - The generative model is [step s a n]: the outcome of the [n]-th call
      of the run, so that a stochastic model is a function of the call index.
    - [MaxNode.run] and [AvgNode.run] call each other; the recursion and the
      two [while] loops are bounded by one fuel argument.
    - The file is Python 2 ([from __future__ import division]):
      [dict.values()] is a list, kept here in insertion order, and [/] is
      true division. *)

From Stdlib Require Import Reals Lra Lia ZArith List.
From stdpp Require Import base list.
Import ListNotations.
Open Scope R_scope.

(** ** Outcomes *)

Inductive exn := ZeroDivisionError | IndexError | TypeError | ValueError | BadRef.

Inductive Res (A : Type) : Type :=
| Ok (a : A)
| Raise (e : exn)
| NonReal
| OutOfFuel.
Arguments Ok {A} a.
Arguments Raise {A} e.
Arguments NonReal {A}.
Arguments OutOfFuel {A}.

(** Python numbers used as a budget: [count] and [counts[i]] are ints, the
    planner's [self.m] is a float. *)
Inductive Num := PyInt (z : Z) | PyFloat (x : R).

Definition num_val (m : Num) : R :=
  match m with PyInt z => IZR z | PyFloat x => x end.

Definition Rleb (a b : R) : bool := if Rle_dec a b then true else false.
Definition Rltb (a b : R) : bool := if Rlt_dec a b then true else false.
Definition Reqb (a b : R) : bool := if Req_dec_T a b then true else false.

(** A reference is an index into the store of its class. *)
Abbreviation ref := nat (only parsing).

(** ** The generative model (the State contract) *)

Class GenerativeModel (State Action : Type) := {
  get_actions : State -> list Action;
  step : State -> Action -> nat -> R * State;
  state_eq : State -> State -> bool;
  action_eq : Action -> Action -> bool
}.

Section Planner.

Context {State Action : Type} `{GM : GenerativeModel State Action}.

(** ** Objects and the store *)

Record MaxNode := mkMaxNode {
  m_state : ref;
  m_gamma : R;
  m_delta : R;
  m_alpha : R;
  m_eta : R;
  m_K : nat;
  m_children : list (Action * ref)
}.

Record AvgNode := mkAvgNode {
  a_state : ref;
  a_action : Action;
  a_gamma : R;
  a_delta : R;
  a_alpha : R;
  a_eta : R;
  a_K : nat;
  sampled_nodes : list ref;
  a_r : R
}.

Record World := mkWorld {
  states : list State;
  maxs : list MaxNode;
  avgs : list AvgNode;
  calls : nat
}.

Definition M (A : Type) : Type := World -> Res (A * World).

Definition ret {A} (a : A) : M A := fun w => Ok (a, w).

Definition bind {A B} (c : M A) (k : A -> M B) : M B :=
  fun w => match c w with
           | Ok (a, w') => k a w'
           | Raise e => Raise e
           | NonReal => NonReal
           | OutOfFuel => OutOfFuel
           end.

Definition raise {A} (e : exn) : M A := fun _ => Raise e.
Definition nonreal {A} : M A := fun _ => NonReal.

Notation "x <- c ;; k" := (bind c (fun x => k))
  (at level 100, c at next level, right associativity).

Definition of_option {A} (o : option A) : M A :=
  match o with Some a => ret a | None => raise BadRef end.

Definition get_state (s : ref) : M State := fun w => of_option (states w !! s) w.
Definition get_max (x : ref) : M MaxNode := fun w => of_option (maxs w !! x) w.
Definition get_avg (a : ref) : M AvgNode := fun w => of_option (avgs w !! a) w.

Definition set_avg (a : ref) (n : AvgNode) : M unit :=
  fun w => Ok (tt, mkWorld (states w) (maxs w) (<[a := n]> (avgs w)) (calls w)).

Definition new_state (s : State) : M ref :=
  fun w => Ok (length (states w),
               mkWorld (states w ++ [s]) (maxs w) (avgs w) (calls w)).

Definition new_max (n : MaxNode) : M ref :=
  fun w => Ok (length (maxs w),
               mkWorld (states w) (maxs w ++ [n]) (avgs w) (calls w)).

Definition new_avg (n : AvgNode) : M ref :=
  fun w => Ok (length (avgs w),
               mkWorld (states w) (maxs w) (avgs w ++ [n]) (calls w)).

(** [copy.deepcopy(s)]: a fresh state object with the same contents. *)
Definition deepcopy (s : ref) : M ref :=
  v <- get_state s ;; new_state v.

(** [s.step(action)]: one call of the generative model; the object [s] is
    mutated in place and the reward returned. *)
Definition state_step (s : ref) (action : Action) : M R :=
  v <- get_state s ;;
  fun w =>
    let '(reward, v') := step v action (calls w) in
    Ok (reward, mkWorld (<[s := v']> (states w)) (maxs w) (avgs w) (S (calls w))).

(** ** Construction *)

(** [self.children[action] = node] on a dict kept in insertion order. *)
Fixpoint dict_set (d : list (Action * ref)) (k : Action) (v : ref)
  : list (Action * ref) :=
  match d with
  | [] => [(k, v)]
  | (k', v') :: d' =>
      if action_eq k' k then (k', v) :: d' else (k', v') :: dict_set d' k v
  end.

(** [AvgNode.__init__] *)
Definition AvgNode_init (state : ref) (action : Action)
    (gamma delta alpha eta : R) (K : nat) : M ref :=
  new_avg (mkAvgNode state action gamma delta alpha eta K [] 0).

Fixpoint init_children (state : ref) (gamma delta alpha eta : R) (K : nat)
    (actions : list Action) (d : list (Action * ref)) : M (list (Action * ref)) :=
  match actions with
  | [] => ret d
  | action :: rest =>
      a <- AvgNode_init state action gamma delta alpha eta K ;;
      init_children state gamma delta alpha eta K rest (dict_set d action a)
  end.

(** [MaxNode.__init__] *)
Definition MaxNode_init (state : ref) (gamma delta alpha eta : R) : M ref :=
  s <- get_state state ;;
  let K := length (get_actions s) in
  children <- init_children state gamma delta alpha eta K (get_actions s) [] ;;
  new_max (mkMaxNode state gamma delta alpha eta K children).

(** ** AvgNode.run *)

Inductive Call :=
| CallMax (x : ref) (m : Num) (epsilon : R)
| CallAvg (a : ref) (m : Num) (epsilon : R).

(** [for node in self.sampled_nodes: if node.state == new_state: ... break] *)
Fixpoint find_node (nodes : list ref) (new_st : ref) : M (option ref) :=
  match nodes with
  | [] => ret None
  | node :: rest =>
      n <- get_max node ;;
      s <- get_state (m_state n) ;;
      s' <- get_state new_st ;;
      if state_eq s s' then ret (Some node) else find_node rest new_st
  end.

Definition append_sampled (a : ref) (node : ref) : M unit :=
  self <- get_avg a ;;
  set_avg a (mkAvgNode (a_state self) (a_action self) (a_gamma self)
               (a_delta self) (a_alpha self) (a_eta self) (a_K self)
               (sampled_nodes self ++ [node]) (a_r self)).

Definition add_reward (a : ref) (reward : R) : M unit :=
  self <- get_avg a ;;
  set_avg a (mkAvgNode (a_state self) (a_action self) (a_gamma self)
               (a_delta self) (a_alpha self) (a_eta self) (a_K self)
               (sampled_nodes self) (a_r self + reward)).

(** One iteration of the sampling loop (lines 68-81). *)
Definition sample_once (a : ref) : M unit :=
  self <- get_avg a ;;
  new_st <- deepcopy (a_state self) ;;
  new_reward <- state_step new_st (a_action self) ;;
  found <- find_node (sampled_nodes self) new_st ;;
  node <- match found with
          | Some node => ret node
          | None => MaxNode_init new_st (a_gamma self) (a_delta self)
                      (a_alpha self) (a_eta self)
          end ;;
  _ <- append_sampled a node ;;
  add_reward a new_reward.

(** [while len(self.sampled_nodes) < m: ...] *)
Fixpoint sample_loop (fuel : nat) (a : ref) (m : Num) : M unit :=
  self <- get_avg a ;;
  if Rltb (INR (length (sampled_nodes self))) (num_val m) then
    match fuel with
    | O => fun _ => OutOfFuel
    | S fuel' => _ <- sample_once a ;; sample_loop fuel' a m
    end
  else ret tt.

(** [l[:m]]: a float index is a TypeError, a negative int counts from the
    end. *)
Definition py_slice_to {A} (l : list A) (m : Num) : M (list A) :=
  match m with
  | PyFloat _ => raise TypeError
  | PyInt z =>
      if (0 <=? z)%Z then ret (take (Z.to_nat z) l)
      else ret (take (length l - Z.to_nat (- z)) l)
  end.

(** Lines 64-83: the records the call works on. *)
Definition active_nodes (fuel : nat) (a : ref) (m : Num) : M (list ref) :=
  self <- get_avg a ;;
  if Rltb (num_val m) (INR (length (sampled_nodes self))) then
    py_slice_to (sampled_nodes self) m
  else
    _ <- sample_loop fuel a m ;;
    self' <- get_avg a ;;
    ret (sampled_nodes self').

(** [uniques.index(s)]; MaxNode defines no [__eq__], so it compares
    references. *)
Fixpoint index_of (l : list ref) (s : ref) : option nat :=
  match l with
  | [] => None
  | x :: l' => if Nat.eqb x s then Some O
               else match index_of l' s with Some i => Some (S i) | None => None end
  end.

Definition count_one (uc : list ref * list nat) (s : ref) : list ref * list nat :=
  match index_of (fst uc) s with
  | Some i => (fst uc, alter S i (snd uc))
  | None => (fst uc ++ [s], snd uc ++ [1%nat])
  end.

(** Lines 85-93. *)
Definition group (active : list ref) : list ref * list nat :=
  fold_left count_one active ([], []).

(** Lines 95-98. *)
Fixpoint avg_children (rec : Call -> M R) (uniques : list ref) (counts : list nat)
    (m : Num) (epsilon gamma : R) (mu : R) : M R :=
  match uniques, counts with
  | [], _ => ret mu
  | u :: us, c :: cs =>
      nu <- rec (CallMax u (PyInt (Z.of_nat c)) (epsilon / gamma)) ;;
      avg_children rec us cs m epsilon gamma (mu + INR c / num_val m * nu)
  | _ :: _, [] => raise IndexError
  end.

(** Line 99. *)
Definition avg_result (a : ref) (mu : R) : M R :=
  self <- get_avg a ;;
  match length (sampled_nodes self) with
  | O => raise ZeroDivisionError
  | S _ => ret (a_r self / INR (length (sampled_nodes self)) + a_gamma self * mu)
  end.

Definition AvgNode_run (fuel : nat) (rec : Call -> M R)
    (a : ref) (m : Num) (epsilon : R) : M R :=
  self <- get_avg a ;;
  if Rleb (1 / (1 - a_gamma self)) epsilon then ret 0
  else
    active <- active_nodes fuel a m ;;
    let (uniques, counts) := group active in
    mu <- avg_children rec uniques counts m epsilon (a_gamma self) 0 ;;
    avg_result a mu.

(** ** MaxNode.run *)

(** [max(mu, key=lambda c: c[1])]: the first element of largest value. *)
Fixpoint py_max_from (best : ref * R) (l : list (ref * R)) : ref * R :=
  match l with
  | [] => best
  | x :: l' => py_max_from (if Rltb (snd best) (snd x) then x else best) l'
  end.

Definition py_max (mu : list (ref * R)) : M (ref * R) :=
  match mu with
  | [] => raise ValueError
  | x :: l => ret (py_max_from x l)
  end.

(** Line 32: [[(b, b.run(count, U*eta/(1-eta))) for b in candidates]]. *)
Fixpoint estimate_all (rec : Call -> M R) (candidates : list ref)
    (count : nat) (eps : R) : M (list (ref * R)) :=
  match candidates with
  | [] => ret []
  | b :: rest =>
      v <- rec (CallAvg b (PyInt (Z.of_nat count)) eps) ;;
      vs <- estimate_all rec rest count eps ;;
      ret ((b, v) :: vs)
  end.

(** Line 34: the retention test. *)
Definition retained (U eta mu_sup : R) (c : ref * R) : bool :=
  Rleb (mu_sup - 2 * U / (1 - eta)) (snd c + 2 * U / (1 - eta)).

(** The loop variables; [lU = None] is [np.inf]. *)
Record Loop := mkLoop {
  candidates : list ref;
  count : nat;
  lU : option R;
  lmu : list (ref * R)
}.

(** Line 28. *)
Definition loop_test (self : MaxNode) (epsilon : R) (st : Loop) : bool :=
  (1 <? length (candidates st))%nat &&
  match lU st with
  | None => true
  | Some U => Rleb ((1 - m_eta self) * epsilon) U
  end.

(** Lines 29-35: one elimination round. *)
Definition elim_round (rec : Call -> M R) (self : MaxNode) (epsilon : R)
    (st : Loop) : M Loop :=
  let arg := INR (m_K self) * INR (count st) / (m_delta self * epsilon) in
  if Rleb arg 0 then nonreal
  else
    let sqr := (ln arg + m_gamma self / (m_eta self - m_gamma self)
                + m_alpha self + 1) / INR (count st) in
    if Rltb sqr 0 then nonreal
    else
      let U := 2 / (1 - m_gamma self) * sqrt sqr in
      mu <- estimate_all rec (candidates st) (count st)
              (U * m_eta self / (1 - m_eta self)) ;;
      best <- py_max mu ;;
      let mu_sup := snd best in
      ret (mkLoop (map fst (List.filter (retained U (m_eta self) mu_sup) mu))
                  (count st + 1) (Some U) mu).

Fixpoint elim_loop (fuel : nat) (rec : Call -> M R) (self : MaxNode)
    (epsilon : R) (st : Loop) : M Loop :=
  if loop_test self epsilon st then
    match fuel with
    | O => fun _ => OutOfFuel
    | S fuel' =>
        st' <- elim_round rec self epsilon st ;;
        elim_loop fuel' rec self epsilon st'
    end
  else ret st.

(** Lines 37-40. *)
Definition max_result (rec : Call -> M R) (self : MaxNode) (m : Num)
    (epsilon : R) (st : Loop) : M R :=
  if (1 <? length (candidates st))%nat then
    best <- py_max (lmu st) ;; ret (snd best)
  else
    match candidates st with
    | [] => raise IndexError
    | c :: _ => rec (CallAvg c m (m_eta self * epsilon))
    end.

Definition MaxNode_run (fuel : nat) (rec : Call -> M R)
    (x : ref) (m : Num) (epsilon : R) : M R :=
  self <- get_max x ;;
  st <- elim_loop fuel rec self epsilon
          (mkLoop (map snd (m_children self)) 1 None []) ;;
  max_result rec self m epsilon st.

(** The two [run] methods, tied together. *)
Fixpoint run (fuel : nat) (c : Call) : M R :=
  match fuel with
  | O => fun _ => OutOfFuel
  | S fuel' =>
      match c with
      | CallMax x m epsilon => MaxNode_run fuel' (run fuel') x m epsilon
      | CallAvg a m epsilon => AvgNode_run fuel' (run fuel') a m epsilon
      end
  end.

(** ** TrailBlazer *)

Record TrailBlazer := mkTrailBlazer {
  tb_gamma : R;
  tb_delta : R;
  tb_epsilon : R;
  tb_eta : R;
  tb_K : nat;
  tb_alpha : R;
  tb_m : R;
  tb_root : ref
}.

(** [max(2, x)] of Python, where [x] is [nan] when [np.log] leaves its
    domain: a comparison with [nan] is false and 2 is kept. *)
Definition exponent_denominator (epsilon : R) : R :=
  if Rltb 0 (1 / epsilon) then
    (if Rltb 2 (ln (1 / epsilon)) then ln (1 / epsilon) else 2)
  else 2.

(** Line 107. *)
Definition derive_eta (gamma epsilon : R) : R :=
  if Reqb gamma 0 then 0
  else Rpower gamma (1 / exponent_denominator epsilon).

(** Line 111, with [alpha] already pinned to 0 by line 110. *)
Definition derive_m (gamma delta epsilon alpha : R) : R :=
  (ln (1 / delta) + alpha) / ((1 - gamma) ^ 2 * epsilon ^ 2).

(** [TrailBlazer.__init__].  [1/self.epsilon] (line 107) and
    [1/self.delta] (line 111) divide Python floats and raise on zero,
    whatever the other parameters are: no branch of the constructor depends
    on a computed value, so a [nan] of line 107 does not keep line 111 from
    raising.  Line 109 only computes a value that line 110 overwrites, with
    numpy operations that never raise.  Where no exception is raised and
    numpy yields [nan] or [inf] (a negative base of [np.power], [np.log] of
    a negative number, a zero denominator on line 111) the outcome is
    [NonReal]. *)
Definition TrailBlazer_init (state : ref) (gamma delta epsilon : R) : M TrailBlazer :=
  if Reqb epsilon 0 then raise ZeroDivisionError
  else
    let eta := derive_eta gamma epsilon in
    s <- get_state state ;;
    let K := length (get_actions s) in
    let alpha := 0 in
    if Reqb delta 0 then raise ZeroDivisionError
    else if Rltb gamma 0 then nonreal
    else if Rleb (1 / delta) 0 then nonreal
    else if Rleb ((1 - gamma) ^ 2 * epsilon ^ 2) 0 then nonreal
    else
      let m := derive_m gamma delta epsilon alpha in
      root <- MaxNode_init state gamma delta alpha eta ;;
      ret (mkTrailBlazer gamma delta epsilon eta K alpha m root).

(** The call [TrailBlazer.run] makes (line 123). *)
Definition TrailBlazer_call (tb : TrailBlazer) : Call :=
  CallMax (tb_root tb) (PyFloat (tb_m tb)) (tb_epsilon tb / 2).

Definition TrailBlazer_run (fuel : nat) (tb : TrailBlazer) : M R :=
  run fuel (TrailBlazer_call tb).

End Planner.

Arguments MaxNode : clear implicits.
Arguments AvgNode : clear implicits.
Arguments World : clear implicits.
Arguments M : clear implicits.

Notation "x <- c ;; k" := (bind c (fun x => k))
  (at level 100, c at next level, right associativity).

(** ** Specification vocabulary *)

Section Specification.

Context {State Action : Type} `{GM : GenerativeModel State Action}.

(** An AvgNode record later in the run: same constructor arguments, a
    sample cache that has only been appended to. *)
Definition avg_le (a a' : AvgNode Action) : Prop :=
  a_state a' = a_state a /\ a_action a' = a_action a /\
  a_gamma a' = a_gamma a /\ a_delta a' = a_delta a /\
  a_alpha a' = a_alpha a /\ a_eta a' = a_eta a /\ a_K a' = a_K a /\
  sampled_nodes a `prefix_of` sampled_nodes a'.

(** A store later in the run: state objects and MaxNodes are never touched
    again, AvgNodes only grow, and generative-model calls only add up. *)
Definition ext (w w' : World State Action) : Prop :=
  states w `prefix_of` states w' /\
  maxs w `prefix_of` maxs w' /\
  (forall j a, avgs w !! j = Some a ->
               exists a', avgs w' !! j = Some a' /\ avg_le a a') /\
  (calls w <= calls w')%nat.

(** A computation that only extends the store and raises only exceptions
    in [E]. *)
Definition mono {A} (E : exn -> Prop) (c : M State Action A) : Prop :=
  forall w, match c w with
            | Ok (_, w') => ext w w'
            | Raise e => E e
            | _ => True
            end.

(** What sampling and construction can raise. *)
Definition sampling_exn (e : exn) : Prop := e = BadRef \/ e = TypeError.

Definition any_exn (e : exn) : Prop := True.

(** [v] is the maximum of the values in [l]. *)
Definition is_max_of (v : R) (l : list R) : Prop :=
  In v l /\ forall y, In y l -> y <= v.

(** The budget argument of a call. *)
Definition budget (c : Call) : Num :=
  match c with CallMax _ m _ => m | CallAvg _ m _ => m end.

(** The visitation-weighted sum of the children's values:
    the sum of (c_i / m) * value_i. *)
Fixpoint weighted_sum (counts : list nat) (values : list R) (m : R) : R :=
  match counts, values with
  | c :: cs, v :: vs => INR c / m * v + weighted_sum cs vs m
  | _, _ => 0
  end.

(** The children's value calls, one after the other: child [i] is called
    with budget [c_i] and precision [eps] and returns [v_i]. *)
Fixpoint child_runs (rec : Call -> M State Action R) (uniques : list ref)
    (counts : list nat) (eps : R) (w : World State Action) (values : list R)
    (w' : World State Action) : Prop :=
  match uniques, counts, values with
  | [], _, [] => w' = w
  | u :: us, c :: cs, v :: vs =>
      exists w1, rec (CallMax u (PyInt (Z.of_nat c)) eps) w = Ok (v, w1) /\
                 child_runs rec us cs eps w1 vs w'
  | _, _, _ => False
  end.

(** The nodes form a tree in which children are allocated after their
    parents: the AvgNodes of every MaxNode sampled by the AvgNode [a] have
    references above [a]. *)
Definition wf (w : World State Action) : Prop :=
  forall a A, avgs w !! a = Some A ->
  forall x, x ∈ sampled_nodes A ->
  exists M, maxs w !! x = Some M /\
            forall act c, (act, c) ∈ m_children M -> (a < c)%nat.

(** The AvgNodes a call leaves as they are: those allocated before the
    node it is called on (before its AvgNodes, for a MaxNode). *)
Definition frame (c : Call) (w w' : World State Action) : Prop :=
  match c with
  | CallAvg a _ _ =>
      forall j, (j < a)%nat -> avgs w' !! j = avgs w !! j
  | CallMax x _ _ =>
      forall M, maxs w !! x = Some M ->
      forall j, (forall act c, (act, c) ∈ m_children M -> (j < c)%nat) ->
                avgs w' !! j = avgs w !! j
  end.

(** The sum of the rewards of the [k] generative-model calls of indices
    [n], [n+1], ... for state [v] and action [action]. *)
Fixpoint reward_sum (v : State) (action : Action) (n k : nat) : R :=
  match k with
  | O => 0
  | S k' => fst (step v action n) + reward_sum v action (S n) k'
  end.

(** The state held by the MaxNode [n]. *)
Definition state_of (w : World State Action) (n : ref) : option State :=
  match maxs w !! n with
  | Some Mn => states w !! m_state Mn
  | None => None
  end.

(** The AvgNode that [AvgNode.__init__] builds. *)
Definition fresh_avg (state : ref) (gamma delta alpha eta : R) (K : nat)
    (action : Action) : AvgNode Action :=
  mkAvgNode state action gamma delta alpha eta K [] 0.

(** The dict after the assignments [d[k] = v] for the pairs [(k, v)]. *)
Definition dict_of (pairs : list (Action * ref)) (d : list (Action * ref))
  : list (Action * ref) :=
  fold_left (fun d p => dict_set d (fst p) (snd p)) pairs d.

(** The MaxNode that [MaxNode.__init__] builds for a state with the
    actions [actions], when the store holds [n] AvgNodes. *)
Definition fresh_max (state : ref) (gamma delta alpha eta : R)
    (actions : list Action) (n : nat) : MaxNode Action :=
  mkMaxNode state gamma delta alpha eta (length actions)
            (dict_of (zip actions (seq n (length actions))) []).

(** Every reward of the generative model lies in [0, 1]. *)
Definition rewards_in_unit : Prop :=
  forall s a n, 0 <= fst (step s a n) <= 1.

(** Every AvgNode of the store has discount [g] and a reward sum between
    0 and its number of samples. *)
Definition unit_store (g : R) (w : World State Action) : Prop :=
  forall a A, avgs w !! a = Some A ->
              a_gamma A = g /\ 0 <= a_r A <= INR (length (sampled_nodes A)).

(** A call whose budget is an integer of at least 1. *)
Definition int_budget (c : Call) : Prop :=
  exists z, budget c = PyInt z /\ (1 <= z)%Z.

(** The node a call is made on exists in the store. *)
Definition target_allocated (c : Call) (w : World State Action) : Prop :=
  match c with
  | CallMax x _ _ => (x < length (maxs w))%nat
  | CallAvg a _ _ => (a < length (avgs w))%nat
  end.

(** The precision argument of a call. *)
Definition precision (c : Call) : R :=
  match c with CallMax _ _ epsilon => epsilon | CallAvg _ _ epsilon => epsilon end.

(** The radius U that round [l] of [MaxNode.run] computes (lines 29-31). *)
Definition radius (self : MaxNode Action) (epsilon : R) (l : nat) : R :=
  2 / (1 - m_gamma self)
  * sqrt ((ln (INR (m_K self) * INR l / (m_delta self * epsilon))
           + m_gamma self / (m_eta self - m_gamma self) + m_alpha self + 1) / INR l).

(** The loop variables of [MaxNode.run] before its first round, or once
    round [count - 1] has been made. *)
Definition in_round (self : MaxNode Action) (epsilon : R) (st : Loop) : Prop :=
  (lU st = None /\ count st = 1%nat) \/
  ((2 <= count st)%nat /\ lU st = Some (radius self epsilon (count st - 1)) /\
   0 < INR (m_K self) * INR (count st - 1) / (m_delta self * epsilon)).

(** Every state has exactly one action. *)
Definition single_action : Prop :=
  forall s : State, exists act, get_actions s = [act].

(** A store of a model with one action per state: every node has discount
    [g] and rate [e], every reference it holds is allocated, and every
    MaxNode has one child. *)
Definition one_child_store (g e : R) (w : World State Action) : Prop :=
  (forall a A, avgs w !! a = Some A ->
     a_gamma A = g /\ a_eta A = e /\ (a_state A < length (states w))%nat /\
     forall x, x ∈ sampled_nodes A -> (x < length (maxs w))%nat) /\
  (forall x Mx, maxs w !! x = Some Mx ->
     m_eta Mx = e /\ (m_state Mx < length (states w))%nat /\
     exists act a, m_children Mx = [(act, a)] /\ (a < length (avgs w))%nat).

(** Every state has at least one action. *)
Definition has_actions : Prop := forall s : State, get_actions s <> [].

(** The parameters of a node are in the planner's ranges. *)
Definition in_ranges (gamma delta eta : R) : Prop :=
  0 < gamma /\ gamma < eta /\ eta < 1 /\ 0 < delta.

(** A store in which every reference held by a node is allocated, every
    MaxNode has a child, and the parameters of every node are in range. *)
Definition sound_store (w : World State Action) : Prop :=
  (forall a A, avgs w !! a = Some A ->
     in_ranges (a_gamma A) (a_delta A) (a_eta A) /\
     (a_state A < length (states w))%nat /\
     forall x, x ∈ sampled_nodes A -> (x < length (maxs w))%nat) /\
  (forall x Mx, maxs w !! x = Some Mx ->
     in_ranges (m_gamma Mx) (m_delta Mx) (m_eta Mx) /\
     (m_state Mx < length (states w))%nat /\
     m_children Mx <> [] /\
     forall act a, (act, a) ∈ m_children Mx -> (a < length (avgs w))%nat).

(** The computation [c], started in [w], raises no exception, and a result
    it returns satisfies [post]. *)
Definition safe {A} (c : M State Action A) (post : A -> World State Action -> Prop)
    (w : World State Action) : Prop :=
  match c w with
  | Ok (a, w') => post a w'
  | Raise _ => False
  | NonReal => True
  | OutOfFuel => True
  end.

(** The budget [m] suits a node with [len] cached samples, and asks for at
    most [k] samples: an integer of at least 1, or a positive float that the
    cache does not exceed. *)
Definition budget_fits (m : Num) (len k : nat) : Prop :=
  match m with
  | PyInt z => (1 <= z)%Z /\ k = Z.to_nat z
  | PyFloat x => 0 < x /\ INR len <= x /\ x <= INR k
  end.

(** The outcome of a step does not depend on the call. *)
Definition deterministic : Prop := forall (s : State) (a : Action) n, step s a n = step s a O.

(** The discounted return of the first [d] steps that start in state [s]
    with action [a] and go on with the first action of each state. *)
Fixpoint dret (g : R) (d : nat) (s : State) (a : Action) : R :=
  match d with
  | O => 0
  | S d' => fst (step s a O)
            + g * match get_actions (snd (step s a O)) with
                  | a' :: _ => dret g d' (snd (step s a O)) a'
                  | [] => 0
                  end
  end.

(** The number of AvgNode levels a call of precision [epsilon] descends
    before the early exit applies: each level multiplies the precision by
    eta / gamma. *)
Inductive exits (g e : R) : R -> nat -> Prop :=
| exits_now epsilon : 1 / (1 - g) <= epsilon -> exits g e epsilon O
| exits_later epsilon d :
    epsilon < 1 / (1 - g) -> exits g e (e * (epsilon / g)) d ->
    exits g e epsilon (S d).

(** A store built on a deterministic model with one action per state: the
    reward sum of an AvgNode is its number of samples times the reward of
    its state and action, its samples hold the successor state, and the
    child of a MaxNode shares its state. *)
Definition det_store (g e : R) (w : World State Action) : Prop :=
  one_child_store g e w /\
  (forall a A, avgs w !! a = Some A ->
     exists s, states w !! a_state A = Some s /\
       a_r A = INR (length (sampled_nodes A)) * fst (step s (a_action A) O) /\
       forall x, x ∈ sampled_nodes A ->
                 state_of w x = Some (snd (step s (a_action A) O))) /\
  (forall x Mx, maxs w !! x = Some Mx ->
     forall act a, m_children Mx = [(act, a)] ->
     exists A s, avgs w !! a = Some A /\ a_state A = m_state Mx /\
                 states w !! m_state Mx = Some s /\ get_actions s = [a_action A]).

(** [uniques] and [counts] after the records [seen] have been grouped:
    the distinct records, each with its number of occurrences. *)
Definition grouped (seen : list ref) (uc : list ref * list nat) : Prop :=
  length (fst uc) = length (snd uc) /\
  NoDup (fst uc) /\
  (forall x, x ∈ fst uc <-> x ∈ seen) /\
  (forall i u c, fst uc !! i = Some u -> snd uc !! i = Some c ->
                 c = count_occ Nat.eq_dec seen u) /\
  sum_list (snd uc) = length seen.

End Specification.

(** ** Two small generative models *)

(** A chain whose states all have the single action 0 and lead to state 1;
    the reward of the call of index 1 is 2, every other reward is 0. *)
Definition chain_reward (n : nat) : R :=
  match n with
  | 1%nat => 2
  | _ => 0
  end.

Definition chain : GenerativeModel nat nat := {|
  get_actions := fun _ => [0%nat];
  step := fun _ _ n => (chain_reward n, 1%nat);
  state_eq := Nat.eqb;
  action_eq := Nat.eqb
|}.

(** One AvgNode for state 0 and action 0, without samples
    (gamma = 1/4, delta = 1/2, alpha = 0, eta = 1/2). *)
Definition chain_node : AvgNode nat :=
  mkAvgNode 0%nat 0%nat (1 / 4) (1 / 2) 0 (1 / 2) 1%nat [] 0.

Definition chain_world : World nat nat :=
  mkWorld [0%nat] [] [chain_node] 0%nat.

(** The store after [run] has been called on that node with budget 2 and
    epsilon = 1: two samples, both of state 1, one MaxNode for it with its
    AvgNode, and a reward sum of 0 + 2. *)
Definition chain_world_2 : World nat nat :=
  mkWorld [0%nat; 1%nat; 1%nat]
          [mkMaxNode 1%nat (1 / 4) (1 / 2) 0 (1 / 2) 1%nat [(0%nat, 1%nat)]]
          [mkAvgNode 0%nat 0%nat (1 / 4) (1 / 2) 0 (1 / 2) 1%nat [0%nat; 0%nat] 2;
           mkAvgNode 1%nat 0%nat (1 / 4) (1 / 2) 0 (1 / 2) 1%nat [] 0]
          2%nat.

(** A model with a choice: state 0 leads to state 1, which has the two
    actions 0 and 1; both lead to state 2, which loops.  The rewards of the
    calls of index 3 and 4 are 6 and -8, every other reward is 0. *)
Definition fork_reward (n : nat) : R :=
  match n with
  | 3%nat => 6
  | 4%nat => -8
  | _ => 0
  end.

Definition fork : GenerativeModel nat nat := {|
  get_actions := fun s => match s with 1%nat => [0%nat; 1%nat] | _ => [0%nat] end;
  step := fun s _ n => (fork_reward n, match s with O => 1%nat | _ => 2%nat end);
  state_eq := Nat.eqb;
  action_eq := Nat.eqb
|}.

(** One AvgNode for state 0 and action 0, without samples
    (gamma = 1/4, delta = 1, alpha = -31/16, eta = 1/2). *)
Definition fork_node : AvgNode nat :=
  mkAvgNode 0%nat 0%nat (1 / 4) 1 (- 31 / 16) (1 / 2) 1%nat [] 0.

Definition fork_world : World nat nat :=
  mkWorld [0%nat] [] [fork_node] 0%nat.

(** The store after [run] has been called on that node with budget 2 and
    epsilon = 1/2.  The MaxNode of state 1 ran one elimination round with
    one sample per action (rewards 0 and 6), kept action 1 and refined it
    with a second sample (reward -8). *)
Definition fork_world_2 : World nat nat :=
  mkWorld [0%nat; 1%nat; 1%nat; 2%nat; 2%nat; 2%nat]
          [mkMaxNode 1%nat (1 / 4) 1 (- 31 / 16) (1 / 2) 2%nat
                     [(0%nat, 1%nat); (1%nat, 2%nat)];
           mkMaxNode 3%nat (1 / 4) 1 (- 31 / 16) (1 / 2) 1%nat [(0%nat, 3%nat)];
           mkMaxNode 4%nat (1 / 4) 1 (- 31 / 16) (1 / 2) 1%nat [(0%nat, 4%nat)]]
          [mkAvgNode 0%nat 0%nat (1 / 4) 1 (- 31 / 16) (1 / 2) 1%nat [0%nat; 0%nat] 0;
           mkAvgNode 1%nat 0%nat (1 / 4) 1 (- 31 / 16) (1 / 2) 2%nat [1%nat] 0;
           mkAvgNode 1%nat 1%nat (1 / 4) 1 (- 31 / 16) (1 / 2) 2%nat [2%nat; 2%nat] (-2);
           mkAvgNode 3%nat 0%nat (1 / 4) 1 (- 31 / 16) (1 / 2) 1%nat [] 0;
           mkAvgNode 4%nat 0%nat (1 / 4) 1 (- 31 / 16) (1 / 2) 1%nat [] 0]
          5%nat.

(** The MaxNode of state 1 in that store, and the loop variables with
    which its elimination loop ends when [run] is called on it again with
    epsilon = 2: one round, both candidates kept. *)
Definition fork_max : MaxNode nat :=
  mkMaxNode 1%nat (1 / 4) 1 (- 31 / 16) (1 / 2) 2%nat [(0%nat, 1%nat); (1%nat, 2%nat)].

Definition fork_loop_2 : Loop :=
  mkLoop [1%nat; 2%nat] 2%nat (Some (2 / 3)) [(1%nat, 0); (2%nat, -1)].

(** ** DummyState *)

(** [DummyState.step] on an object holding [num]: the reward, [None] where
    the method falls off its end, and the new [num]. *)
Definition DummyState_step (num action : Z) : option R * Z :=
  if negb (num =? 0)%Z then (Some 0, num)
  else if (action =? 0)%Z then (Some 0, 1%Z)
  else if (action =? 1)%Z then (Some 1, 2%Z)
  else if (action =? 2)%Z then (Some 0, 3%Z)
  else (None, num).

Definition DummyState_get_actions : list Z := [0%Z; 1%Z; 2%Z].

(** [__eq__] and [__ne__] on two DummyState objects: [self.num == other]
    falls back to the reflected comparison, which compares the two [num]. *)
Definition DummyState_eq (self other : Z) : bool := (self =? other)%Z.
Definition DummyState_ne (self other : Z) : bool := negb (self =? other)%Z.

(** The rewards of successive steps, added up, and the final [num]. *)
Fixpoint DummyState_episode (num : Z) (actions : list Z) : option R * Z :=
  match actions with
  | [] => (Some 0, num)
  | action :: rest =>
      let (r, num') := DummyState_step num action in
      let (rs, num'') := DummyState_episode num' rest in
      (match r, rs with
       | Some x, Some y => Some (x + y)
       | _, _ => None
       end, num'')
  end.

(** DummyState as a generative model; the reward [None] arises only for
    actions that [get_actions] does not list. *)
Definition dummy : GenerativeModel Z Z := {|
  get_actions := fun _ => DummyState_get_actions;
  step := fun num action _ =>
            (default 0 (fst (DummyState_step num action)),
             snd (DummyState_step num action));
  state_eq := DummyState_eq;
  action_eq := Z.eqb
|}.

(** The store of [test()] before the planner is built: the object
    [DummyState(0)]. *)
Definition dummy_world : World Z Z := mkWorld [0%Z] [] [] 0%nat.

(** One AvgNode for [DummyState(0)] and action 1, without samples
    (gamma = 1/4, delta = 3/4, alpha = -23/16, eta = 3/4). *)
Definition dummy_node : AvgNode Z :=
  mkAvgNode 0%nat 1%Z (1 / 4) (3 / 4) (- 23 / 16) (3 / 4) 3%nat [] 0.

Definition dummy_store : World Z Z :=
  mkWorld [0%Z] [] [dummy_node] 0%nat.

(** The store after [run] has been called on that node with budget 1 and
    epsilon = 1: one sample of reward 1 that leads to [DummyState(2)], and the
    MaxNode of that state with its three AvgNodes. *)
Definition dummy_store_1 : World Z Z :=
  mkWorld [0%Z; 2%Z]
          [mkMaxNode 1%nat (1 / 4) (3 / 4) (- 23 / 16) (3 / 4) 3%nat
                     [(0%Z, 1%nat); (1%Z, 2%nat); (2%Z, 3%nat)]]
          [mkAvgNode 0%nat 1%Z (1 / 4) (3 / 4) (- 23 / 16) (3 / 4) 3%nat [0%nat] 1;
           mkAvgNode 1%nat 0%Z (1 / 4) (3 / 4) (- 23 / 16) (3 / 4) 3%nat [] 0;
           mkAvgNode 1%nat 1%Z (1 / 4) (3 / 4) (- 23 / 16) (3 / 4) 3%nat [] 0;
           mkAvgNode 1%nat 2%Z (1 / 4) (3 / 4) (- 23 / 16) (3 / 4) 3%nat [] 0]
          1%nat.

(** ** Two more stores *)

(** A model whose states have no action at all. *)
Definition dead_end : GenerativeModel nat nat := {|
  get_actions := fun _ => [];
  step := fun s _ _ => (0, s);
  state_eq := Nat.eqb;
  action_eq := Nat.eqb
|}.

Definition dead_end_world : World nat nat := mkWorld [0%nat] [] [] 0%nat.

(** The chain before any node is built: the state object 0 alone. *)
Definition chain_start : World nat nat := mkWorld [0%nat] [] [] 0%nat.

(** A deterministic model: every state has the single action 0, which
    yields the reward 1 and leaves the state as it is. *)
Definition steady : GenerativeModel nat nat := {|
  get_actions := fun _ => [0%nat];
  step := fun s _ _ => (1, s);
  state_eq := Nat.eqb;
  action_eq := Nat.eqb
|}.

(** * Properties *)

(** ** Deciding comparisons of reals *)

Lemma Rleb_true (a b : R) : a <= b -> Rleb a b = true.
Proof. intros H. unfold Rleb. destruct (Rle_dec a b); [reflexivity | contradiction]. Qed.

Lemma Rleb_false (a b : R) : b < a -> Rleb a b = false.
Proof. intros H. unfold Rleb. destruct (Rle_dec a b); [lra | reflexivity]. Qed.

Lemma Rltb_true (a b : R) : a < b -> Rltb a b = true.
Proof. intros H. unfold Rltb. destruct (Rlt_dec a b); [reflexivity | contradiction]. Qed.

Lemma Rltb_false (a b : R) : b <= a -> Rltb a b = false.
Proof. intros H. unfold Rltb. destruct (Rlt_dec a b); [lra | reflexivity]. Qed.

Lemma Reqb_true (a : R) : Reqb a a = true.
Proof. unfold Reqb. destruct (Req_dec_T a a); [reflexivity | contradiction]. Qed.

Lemma Reqb_false (a b : R) : a <> b -> Reqb a b = false.
Proof. intros H. unfold Reqb. destruct (Req_dec_T a b); [contradiction | reflexivity]. Qed.

Lemma Rleb_spec (a b : R) : Rleb a b = true <-> a <= b.
Proof.
  unfold Rleb. destruct (Rle_dec a b); split; intros; try assumption;
    try reflexivity; try discriminate; contradiction.
Qed.

Lemma Rltb_spec (a b : R) : Rltb a b = true <-> a < b.
Proof.
  unfold Rltb. destruct (Rlt_dec a b); split; intros; try assumption;
    try reflexivity; try discriminate; contradiction.
Qed.

(** ** The derived constants of the planner *)

Lemma exponent_denominator_ge_2 (epsilon : R) : 2 <= exponent_denominator epsilon.
Proof.
  unfold exponent_denominator.
  destruct (Rltb 0 (1 / epsilon)); [| lra].
  destruct (Rltb 2 (ln (1 / epsilon))) eqn:E; [| lra].
  apply Rltb_spec in E. lra.
Qed.

Lemma derive_eta_pos_gamma (gamma epsilon : R) :
  0 < gamma ->
  derive_eta gamma epsilon = Rpower gamma (1 / exponent_denominator epsilon).
Proof.
  intros Hg. unfold derive_eta. rewrite (Reqb_false gamma 0) by lra. reflexivity.
Qed.

Lemma eta_quarter : derive_eta (1 / 4) 1 = 1 / 2.
Proof.
  rewrite derive_eta_pos_gamma by lra.
  unfold exponent_denominator.
  rewrite (Rltb_true 0 (1 / 1)) by lra.
  replace (1 / 1) with 1 by lra. rewrite ln_1.
  rewrite (Rltb_false 2 0) by lra.
  replace (1 / 2) with (/ 2) by lra.
  rewrite Rpower_sqrt by lra.
  replace (1 / 4) with (/ 2 * / 2) by lra.
  apply sqrt_square. lra.
Qed.

Lemma exponent_range (epsilon : R) :
  0 < 1 / exponent_denominator epsilon <= 1 / 2.
Proof.
  pose proof (exponent_denominator_ge_2 epsilon) as Hd.
  unfold Rdiv. rewrite !Rmult_1_l. split.
  - apply Rinv_0_lt_compat. lra.
  - apply Rinv_le_contravar; lra.
Qed.

(** C2, as the code has it: for gamma in (0,1) and epsilon > 0 the derived
    rate eta = gamma^(1/max(2, ln(1/epsilon))) lies in (0,1) and is
    strictly ABOVE gamma. *)
Theorem eta_range (gamma epsilon : R) :
  0 < gamma < 1 -> 0 < epsilon ->
  0 < derive_eta gamma epsilon < 1 /\ gamma < derive_eta gamma epsilon.
Proof.
  intros [Hg0 Hg1] _.
  rewrite derive_eta_pos_gamma by assumption.
  pose proof (exponent_range epsilon) as [He0 He1].
  set (e := 1 / exponent_denominator epsilon) in *.
  assert (Hln : ln gamma < 0).
  { rewrite <- ln_1. apply ln_increasing; lra. }
  unfold Rpower. repeat split.
  - apply exp_pos.
  - rewrite <- exp_0. apply exp_increasing. nra.
  - rewrite <- (exp_ln gamma) at 1 by assumption.
    apply exp_increasing. nra.
Qed.

Lemma eta_range_witness :
  0 < 1 / 2 < 1 /\ 0 < 1 /\
  (0 < derive_eta (1 / 2) 1 < 1 /\ 1 / 2 < derive_eta (1 / 2) 1).
Proof.
  split; [lra |]. split; [lra |].
  apply (eta_range (1 / 2) 1); lra.
Defined.

(** C2, as stated, fails: at gamma = 1/4 and epsilon = 1 the rate is 1/2,
    which is not below gamma. *)
Lemma eta_not_below_gamma :
  0 < 1 / 4 < 1 /\ 0 < 1 /\ ~ derive_eta (1 / 4) 1 < 1 / 4.
Proof.
  split; [lra |]. split; [lra |].
  rewrite eta_quarter. lra.
Qed.

(** ** The store only grows *)

Section Monotone.

Context {State Action : Type} `{GM : GenerativeModel State Action}.

Local Abbreviation World := (World State Action).
Local Abbreviation AvgNode := (AvgNode Action).
Local Abbreviation M := (M State Action).
Local Abbreviation mono := (@mono State Action).

Lemma avg_le_refl (a : AvgNode) : avg_le a a.
Proof. unfold avg_le. repeat split; reflexivity. Qed.

Lemma avg_le_trans (a b c : AvgNode) : avg_le a b -> avg_le b c -> avg_le a c.
Proof.
  unfold avg_le. intros (H1 & H2 & H3 & H4 & H5 & H6 & H7 & H8)
    (G1 & G2 & G3 & G4 & G5 & G6 & G7 & G8).
  repeat split; try congruence. etrans; eassumption.
Qed.

Lemma ext_refl (w : World) : ext w w.
Proof.
  unfold ext. repeat split; try reflexivity.
  intros j a Hj. exists a. split; [assumption | apply avg_le_refl].
Qed.

Lemma ext_trans (w1 w2 w3 : World) : ext w1 w2 -> ext w2 w3 -> ext w1 w3.
Proof.
  intros (S1 & M1 & A1 & C1) (S2 & M2 & A2 & C2).
  unfold ext. repeat split.
  - etrans; eassumption.
  - etrans; eassumption.
  - intros j a Hj. destruct (A1 j a Hj) as (a' & Hj' & Hle).
    destruct (A2 j a' Hj') as (a'' & Hj'' & Hle').
    exists a''. split; [assumption | eapply avg_le_trans; eassumption].
  - lia.
Qed.

Lemma mono_ret {A} (E : exn -> Prop) (a : A) : mono E (ret a).
Proof. intros w. apply ext_refl. Qed.

Lemma mono_raise {A} (E : exn -> Prop) (e : exn) : E e -> mono (A:=A) E (raise e).
Proof. intros He w. exact He. Qed.

Lemma mono_nonreal {A} (E : exn -> Prop) : mono (A:=A) E nonreal.
Proof. intros w. exact I. Qed.

Lemma mono_bind {A B} (E : exn -> Prop) (c : M A) (k : A -> M B) :
  mono E c -> (forall a, mono E (k a)) -> mono E (bind c k).
Proof.
  intros Hc Hk w. unfold bind. specialize (Hc w).
  destruct (c w) as [[a w'] | e | |]; try assumption; try exact I.
  specialize (Hk a w').
  destruct (k a w') as [[b w''] | e | |]; try assumption; try exact I.
  eapply ext_trans; eassumption.
Qed.

Lemma mono_of_option {A} (E : exn -> Prop) (f : World -> option A) :
  E BadRef -> mono E (fun w => of_option (f w) w).
Proof.
  intros HE w. destruct (f w); simpl; [apply ext_refl | exact HE].
Qed.

Lemma mono_get_state E s : E BadRef -> mono E (get_state s).
Proof. intros. unfold get_state. apply (mono_of_option E (fun w => states w !! s)); assumption. Qed.

Lemma mono_get_max E x : E BadRef -> mono E (get_max x).
Proof. intros. unfold get_max. apply (mono_of_option E (fun w => maxs w !! x)); assumption. Qed.

Lemma mono_get_avg E a : E BadRef -> mono E (get_avg a).
Proof. intros. unfold get_avg. apply (mono_of_option E (fun w => avgs w !! a)); assumption. Qed.

Lemma mono_new_max E n : mono E (new_max n).
Proof.
  intros w. unfold new_max, ext. cbn [states maxs avgs calls]. repeat split; try reflexivity.
  - apply prefix_app_r. reflexivity.
  - intros j a Hj. exists a. split; [assumption | apply avg_le_refl].
Qed.

Lemma mono_new_avg E n : mono E (new_avg n).
Proof.
  intros w. unfold new_avg, ext. cbn [states maxs avgs calls]. repeat split; try reflexivity.
  intros j a Hj. exists a. split; [| apply avg_le_refl].
  apply lookup_app_l_Some. assumption.
Qed.

(** Replacing the record of an AvgNode by a larger one extends the store. *)
Lemma ext_set_avg (w : World) (a : ref) (self self' : AvgNode) :
  avgs w !! a = Some self -> avg_le self self' ->
  ext w (mkWorld (states w) (maxs w) (<[a := self']> (avgs w)) (calls w)).
Proof.
  intros Ha Hle. unfold ext. cbn [states maxs avgs calls]. repeat split; try reflexivity.
  intros j b Hj. destruct (decide (j = a)) as [-> | Hne].
  - exists self'. split.
    + apply list_lookup_insert_eq. eapply lookup_lt_Some. eassumption.
    + rewrite Ha in Hj. injection Hj as <-. assumption.
  - exists b. split; [| apply avg_le_refl].
    rewrite list_lookup_insert_ne by congruence. assumption.
Qed.

Lemma mono_append_sampled E a node : E BadRef -> mono E (append_sampled a node).
Proof.
  intros HE w. unfold append_sampled, bind, get_avg, set_avg.
  destruct (avgs w !! a) as [self |] eqn:Ha; cbn; [| exact HE].
  apply (ext_set_avg w a self); [assumption |].
  unfold avg_le. cbn. repeat split; try reflexivity.
  apply prefix_app_r. reflexivity.
Qed.

Lemma mono_add_reward E a reward : E BadRef -> mono E (add_reward a reward).
Proof.
  intros HE w. unfold add_reward, bind, get_avg, set_avg.
  destruct (avgs w !! a) as [self |] eqn:Ha; cbn; [| exact HE].
  apply (ext_set_avg w a self); [assumption |].
  unfold avg_le. cbn. repeat split; reflexivity.
Qed.

(** [deepcopy] followed by [step] on the copy: the copy is a new object,
    and it is the only object [step] writes. *)
Lemma copy_step (s : ref) (action : Action) (w : World) (v : State) :
  states w !! s = Some v ->
  deepcopy s w = Ok (length (states w),
                     mkWorld (states w ++ [v]) (maxs w) (avgs w) (calls w)) /\
  state_step (length (states w)) action
    (mkWorld (states w ++ [v]) (maxs w) (avgs w) (calls w))
  = Ok (fst (step v action (calls w)),
        mkWorld (states w ++ [snd (step v action (calls w))]) (maxs w) (avgs w)
                (S (calls w))).
Proof.
  intros Hs. split.
  - unfold deepcopy, bind, get_state. rewrite Hs. reflexivity.
  - unfold state_step, bind, get_state. cbn.
    rewrite lookup_app_r by lia. rewrite Nat.sub_diag. cbn.
    destruct (step v action (calls w)) as [reward v'] eqn:Est. cbn.
    rewrite insert_app_r_alt by lia. rewrite Nat.sub_diag. reflexivity.
Qed.

Lemma mono_copy_step {B} E (s : ref) (action : Action) (k : ref -> R -> M B) :
  E BadRef -> (forall new_st reward, mono E (k new_st reward)) ->
  mono E (new_st <- deepcopy s ;; reward <- state_step new_st action ;; k new_st reward).
Proof.
  intros HE Hk w.
  destruct (states w !! s) as [v |] eqn:Hs.
  - destruct (copy_step s action w v Hs) as [Hc Hst].
    unfold bind at 1. rewrite Hc. unfold bind at 1. rewrite Hst.
    specialize (Hk (length (states w)) (fst (step v action (calls w)))
                  (mkWorld (states w ++ [snd (step v action (calls w))]) (maxs w)
                           (avgs w) (S (calls w)))).
    match goal with |- match ?x with _ => _ end => destruct x as [[b w'] | e | |] end;
      try assumption; try exact I.
    eapply ext_trans; [| eassumption].
    unfold ext. cbn [states maxs avgs calls]. repeat split; try reflexivity.
    + apply prefix_app_r. reflexivity.
    + intros j a Hj. exists a. split; [assumption | apply avg_le_refl].
    + lia.
  - unfold bind at 1. unfold deepcopy, bind, get_state. rewrite Hs. cbn. exact HE.
Qed.

Lemma mono_find_node E nodes new_st : E BadRef -> mono E (find_node nodes new_st).
Proof.
  intros HE. induction nodes as [| node rest IH]; cbn [find_node].
  - apply mono_ret.
  - apply mono_bind; [apply mono_get_max; assumption |]. intros n.
    apply mono_bind; [apply mono_get_state; assumption |]. intros s.
    apply mono_bind; [apply mono_get_state; assumption |]. intros s'.
    destruct (state_eq s s'); [apply mono_ret | assumption].
Qed.

Lemma mono_init_children E state gamma delta alpha eta K actions d :
  mono E (init_children state gamma delta alpha eta K actions d).
Proof.
  revert d. induction actions as [| action rest IH]; intros d; cbn [init_children].
  - apply mono_ret.
  - apply mono_bind; [apply mono_new_avg |]. intros a. apply IH.
Qed.

Lemma mono_MaxNode_init E state gamma delta alpha eta :
  E BadRef -> mono E (MaxNode_init state gamma delta alpha eta).
Proof.
  intros HE. unfold MaxNode_init.
  apply mono_bind; [apply mono_get_state; assumption |]. intros s.
  apply mono_bind; [apply mono_init_children |]. intros children.
  apply mono_new_max.
Qed.

Lemma mono_sample_once E a : E BadRef -> mono E (sample_once a).
Proof.
  intros HE. unfold sample_once.
  apply mono_bind; [apply mono_get_avg; assumption |]. intros self.
  apply mono_copy_step; [assumption |]. intros new_st reward.
  apply mono_bind; [apply mono_find_node; assumption |]. intros found.
  apply mono_bind.
  { destruct found; [apply mono_ret | apply mono_MaxNode_init; assumption]. }
  intros node.
  apply mono_bind; [apply mono_append_sampled; assumption |]. intros _.
  apply mono_add_reward; assumption.
Qed.

Lemma mono_sample_loop E fuel a m : E BadRef -> mono E (sample_loop fuel a m).
Proof.
  intros HE. induction fuel as [| fuel IH]; cbn [sample_loop].
  - apply mono_bind; [apply mono_get_avg; assumption |]. intros self.
    destruct (Rltb _ _); [intros w; exact I | apply mono_ret].
  - apply mono_bind; [apply mono_get_avg; assumption |]. intros self.
    destruct (Rltb _ _); [| apply mono_ret].
    apply mono_bind; [apply mono_sample_once; assumption |]. intros _. exact IH.
Qed.

Lemma mono_py_slice_to {A} E (l : list A) m : E TypeError -> mono E (py_slice_to l m).
Proof.
  intros HE. destruct m as [z | x]; cbn.
  - destruct (0 <=? z)%Z; apply mono_ret.
  - apply mono_raise. assumption.
Qed.

Lemma mono_active_nodes E fuel a m :
  E BadRef -> E TypeError -> mono E (active_nodes fuel a m).
Proof.
  intros HB HT. unfold active_nodes.
  apply mono_bind; [apply mono_get_avg; assumption |]. intros self.
  destruct (Rltb _ _).
  - apply mono_py_slice_to; assumption.
  - apply mono_bind; [apply mono_sample_loop; assumption |]. intros _.
    apply mono_bind; [apply mono_get_avg; assumption |]. intros self'.
    apply mono_ret.
Qed.

Lemma mono_avg_children E rec uniques counts m epsilon gamma mu :
  E IndexError -> (forall c, mono E (rec c)) ->
  mono E (avg_children rec uniques counts m epsilon gamma mu).
Proof.
  intros HE Hrec. revert counts mu.
  induction uniques as [| u us IH]; intros counts mu; cbn [avg_children].
  - apply mono_ret.
  - destruct counts as [| c cs]; [apply mono_raise; assumption |].
    apply mono_bind; [apply Hrec |]. intros nu. apply IH.
Qed.

Lemma mono_avg_result E a mu :
  E BadRef -> E ZeroDivisionError -> mono E (avg_result a mu).
Proof.
  intros HB HZ. unfold avg_result.
  apply mono_bind; [apply mono_get_avg; assumption |]. intros self.
  destruct (length (sampled_nodes self)); [apply mono_raise; assumption | apply mono_ret].
Qed.

Lemma mono_AvgNode_run fuel rec a m epsilon :
  (forall c, mono any_exn (rec c)) ->
  mono any_exn (AvgNode_run fuel rec a m epsilon).
Proof.
  intros Hrec. unfold AvgNode_run.
  apply mono_bind; [apply mono_get_avg; exact I |]. intros self.
  destruct (Rleb _ _); [apply mono_ret |].
  apply mono_bind; [apply mono_active_nodes; exact I |]. intros active.
  destruct (group active) as [uniques counts].
  apply mono_bind; [apply mono_avg_children; [exact I | assumption] |]. intros mu.
  apply mono_avg_result; exact I.
Qed.

Lemma mono_estimate_all E rec cands count eps :
  (forall c, mono E (rec c)) -> mono E (estimate_all rec cands count eps).
Proof.
  intros Hrec. induction cands as [| b rest IH]; cbn [estimate_all].
  - apply mono_ret.
  - apply mono_bind; [apply Hrec |]. intros v.
    apply mono_bind; [exact IH |]. intros vs. apply mono_ret.
Qed.

Lemma mono_py_max E mu : E ValueError -> mono E (py_max mu).
Proof.
  intros HE. destruct mu; cbn; [apply mono_raise; assumption | apply mono_ret].
Qed.

Lemma mono_elim_round E rec self epsilon st :
  E ValueError -> (forall c, mono E (rec c)) ->
  mono E (elim_round rec self epsilon st).
Proof.
  intros HE Hrec. unfold elim_round.
  destruct (Rleb _ _); [apply mono_nonreal |].
  destruct (Rltb _ _); [apply mono_nonreal |].
  apply mono_bind; [apply mono_estimate_all; assumption |]. intros mu.
  apply mono_bind; [apply mono_py_max; assumption |]. intros best.
  apply mono_ret.
Qed.

Lemma mono_elim_loop E fuel rec self epsilon st :
  E ValueError -> (forall c, mono E (rec c)) ->
  mono E (elim_loop fuel rec self epsilon st).
Proof.
  intros HE Hrec. revert st.
  induction fuel as [| fuel IH]; intros st; cbn [elim_loop].
  - destruct (loop_test _ _ _); [intros w; exact I | apply mono_ret].
  - destruct (loop_test _ _ _); [| apply mono_ret].
    apply mono_bind; [apply mono_elim_round; assumption |]. intros st'. apply IH.
Qed.

Lemma mono_max_result E rec self m epsilon st :
  E ValueError -> E IndexError -> (forall c, mono E (rec c)) ->
  mono E (max_result rec self m epsilon st).
Proof.
  intros HV HI Hrec. unfold max_result.
  destruct (1 <? length (candidates st))%nat.
  - apply mono_bind; [apply mono_py_max; assumption |]. intros best. apply mono_ret.
  - destruct (candidates st); [apply mono_raise; assumption | apply Hrec].
Qed.

Lemma mono_MaxNode_run fuel rec x m epsilon :
  (forall c, mono any_exn (rec c)) ->
  mono any_exn (MaxNode_run fuel rec x m epsilon).
Proof.
  intros Hrec. unfold MaxNode_run.
  apply mono_bind; [apply mono_get_max; exact I |]. intros self.
  apply mono_bind; [apply mono_elim_loop; [exact I | assumption] |]. intros st.
  apply mono_max_result; [exact I | exact I | assumption].
Qed.

Lemma mono_run fuel c : mono any_exn (run fuel c).
Proof.
  revert c. induction fuel as [| fuel IH]; intros c; cbn [run].
  - intros w. exact I.
  - destruct c as [x m epsilon | a m epsilon].
    + apply mono_MaxNode_run. exact IH.
    + apply mono_AvgNode_run. exact IH.
Qed.

(** Every run only extends the store. *)
Lemma run_ext fuel c (w w' : World) v : run fuel c w = Ok (v, w') -> ext w w'.
Proof.
  intros H. pose proof (mono_run fuel c w) as Hm. rewrite H in Hm. exact Hm.
Qed.

End Monotone.

(** ** The claims about single calls *)

Section Calls.

Context {State Action : Type} `{GM : GenerativeModel State Action}.

Local Abbreviation World := (World State Action).
Local Abbreviation AvgNode := (AvgNode Action).
Local Abbreviation MaxNode := (MaxNode Action).
Local Abbreviation M := (M State Action).

Lemma run_avg_unfold fuel a m epsilon :
  run (S fuel) (CallAvg a m epsilon) = AvgNode_run fuel (run fuel) a m epsilon.
Proof. reflexivity. Qed.

Lemma run_max_unfold fuel x m epsilon :
  run (S fuel) (CallMax x m epsilon) = MaxNode_run fuel (run fuel) x m epsilon.
Proof. reflexivity. Qed.

Lemma get_avg_some (w : World) a (self : AvgNode) :
  avgs w !! a = Some self -> get_avg a w = Ok (self, w).
Proof. intros H. unfold get_avg. rewrite H. reflexivity. Qed.

Lemma get_max_some (w : World) x (self : MaxNode) :
  maxs w !! x = Some self -> get_max x w = Ok (self, w).
Proof. intros H. unfold get_max. rewrite H. reflexivity. Qed.

(** C6: with epsilon >= 1/(1-gamma) the call returns 0 at once and leaves
    the whole store as it was: no generative-model call, the same sample
    cache and the same reward sum. *)
Theorem early_exit fuel a m epsilon (w : World) (self : AvgNode) :
  avgs w !! a = Some self ->
  0 < a_gamma self < 1 ->
  1 / (1 - a_gamma self) <= epsilon ->
  run (S fuel) (CallAvg a m epsilon) w = Ok (0, w).
Proof.
  intros Ha _ He. rewrite run_avg_unfold. unfold AvgNode_run, bind.
  rewrite (get_avg_some w a self Ha).
  rewrite (Rleb_true _ _ He). reflexivity.
Qed.

(** C8: a call of [AvgNode.run] leaves the owning state, and every state
    object that existed before the call, with the value it had: the
    generative model only ever writes the fresh copies. *)
Theorem owning_state_unchanged fuel a m epsilon (w w' : World) v
    (self : AvgNode) (s : State) :
  avgs w !! a = Some self ->
  states w !! a_state self = Some s ->
  run fuel (CallAvg a m epsilon) w = Ok (v, w') ->
  (exists self', avgs w' !! a = Some self' /\ a_state self' = a_state self) /\
  states w' !! a_state self = Some s /\
  (forall i si, states w !! i = Some si -> states w' !! i = Some si).
Proof.
  intros Ha Hs Hrun. apply run_ext in Hrun.
  destruct Hrun as (Hst & _ & Hav & _).
  assert (Hall : forall i si, states w !! i = Some si -> states w' !! i = Some si).
  { intros i si Hi. eapply prefix_lookup_Some; eassumption. }
  split; [| split; [apply Hall; assumption | exact Hall]].
  destruct (Hav a self Ha) as (self' & Ha' & Hle).
  exists self'. split; [assumption | apply Hle].
Qed.

(** *** Inverting a successful computation *)

Lemma bind_ok {A B} (c : M A) (k : A -> M B) (w w' : World) b :
  bind c k w = Ok (b, w') ->
  exists a w1, c w = Ok (a, w1) /\ k a w1 = Ok (b, w').
Proof.
  unfold bind. intros H. destruct (c w) as [[a w1] | e | |]; try discriminate.
  exists a, w1. split; [reflexivity | assumption].
Qed.

Lemma of_option_ok {A} (o : option A) (w w' : World) x :
  of_option o w = Ok (x, w') -> o = Some x /\ w' = w.
Proof.
  destruct o; cbn; intros H; [| discriminate].
  injection H as -> ->. split; reflexivity.
Qed.

Lemma get_avg_ok a (w w' : World) (self : AvgNode) :
  get_avg a w = Ok (self, w') -> avgs w !! a = Some self /\ w' = w.
Proof. apply of_option_ok. Qed.

Lemma get_max_ok x (w w' : World) (self : MaxNode) :
  get_max x w = Ok (self, w') -> maxs w !! x = Some self /\ w' = w.
Proof. apply of_option_ok. Qed.

Lemma get_state_ok s (w w' : World) (v : State) :
  get_state s w = Ok (v, w') -> states w !! s = Some v /\ w' = w.
Proof. apply of_option_ok. Qed.

Lemma ret_ok {A} (a b : A) (w w' : World) : ret a w = Ok (b, w') -> b = a /\ w' = w.
Proof. unfold ret. intros H. injection H as -> ->. split; reflexivity. Qed.

Tactic Notation "inv_bind" hyp(H) "as" ident(a) ident(w1) ident(H1) :=
  apply bind_ok in H as (a & w1 & H1 & H).

(** *** The sampling phase *)

Lemma find_node_pure nodes new_st (w w' : World) r :
  find_node nodes new_st w = Ok (r, w') -> w' = w.
Proof.
  induction nodes as [| node rest IH]; cbn [find_node]; intros H.
  - apply ret_ok in H as [_ ->]. reflexivity.
  - inv_bind H as n w1 H1. apply get_max_ok in H1 as [_ ->].
    inv_bind H as s w2 H2. apply get_state_ok in H2 as [_ ->].
    inv_bind H as s' w3 H3. apply get_state_ok in H3 as [_ ->].
    destruct (state_eq _ _).
    + apply ret_ok in H as [_ ->]. reflexivity.
    + apply IH. assumption.
Qed.

(** Construction allocates nodes and nothing else. *)
Lemma init_children_alloc state gamma delta alpha eta K actions d (w w' : World) d' :
  init_children state gamma delta alpha eta K actions d w = Ok (d', w') ->
  states w' = states w /\ calls w' = calls w /\ maxs w' = maxs w /\
  exists l, avgs w' = avgs w ++ l.
Proof.
  revert d w. induction actions as [| action rest IH]; intros d w H; cbn [init_children] in H.
  - apply ret_ok in H as [_ ->]. repeat split. exists []. rewrite app_nil_r. reflexivity.
  - inv_bind H as a w1 H1. unfold AvgNode_init, new_avg in H1. injection H1 as <- <-.
    apply IH in H as (Hs & Hc & Hm & l & Ha). cbn [states maxs avgs calls] in *.
    repeat split; try assumption.
    eexists. rewrite Ha. rewrite <- app_assoc. reflexivity.
Qed.

Lemma MaxNode_init_alloc state gamma delta alpha eta (w w' : World) x :
  MaxNode_init state gamma delta alpha eta w = Ok (x, w') ->
  states w' = states w /\ calls w' = calls w /\
  exists l, avgs w' = avgs w ++ l.
Proof.
  unfold MaxNode_init. intros H.
  inv_bind H as s w1 H1. apply get_state_ok in H1 as [_ ->].
  inv_bind H as ch w2 H2. apply init_children_alloc in H2 as (Hs & Hc & Hm & l & Ha).
  unfold new_max in H. injection H as <- <-. cbn [states maxs avgs calls].
  repeat split; try assumption. exists l. assumption.
Qed.

(** One iteration of the sampling loop appends one reference to the cache
    of the node, adds the reward of one generative-model call to its reward
    sum, and makes exactly that one call. *)
Lemma sample_once_spec a (w w' : World) (self : AvgNode) u :
  avgs w !! a = Some self ->
  sample_once a w = Ok (u, w') ->
  exists node v,
    states w !! a_state self = Some v /\
    avgs w' !! a = Some (mkAvgNode (a_state self) (a_action self) (a_gamma self)
                           (a_delta self) (a_alpha self) (a_eta self) (a_K self)
                           (sampled_nodes self ++ [node])
                           (a_r self + fst (step v (a_action self) (calls w)))) /\
    calls w' = S (calls w).
Proof.
  intros Ha H. unfold sample_once in H.
  inv_bind H as self0 w1 H1. apply get_avg_ok in H1 as [Ha' ->].
  rewrite Ha in Ha'. injection Ha' as <-.
  inv_bind H as new_st w2 H2. pose proof H2 as Hcopy.
  unfold deepcopy in Hcopy. inv_bind Hcopy as v w1' Hv.
  apply get_state_ok in Hv as [Hs ->]. clear Hcopy.
  destruct (copy_step (a_state self) (a_action self) w v Hs) as [Hc Hst].
  rewrite Hc in H2. injection H2 as <- <-.
  inv_bind H as reward w3 H3. rewrite Hst in H3. injection H3 as <- <-.
  inv_bind H as found w4 H4. apply find_node_pure in H4 as ->.
  inv_bind H as node w5 H5.
  assert (Hw5 : calls w5 = S (calls w) /\ exists l, avgs w5 = avgs w ++ l).
  { destruct found as [node' |].
    - apply ret_ok in H5 as [_ ->]. cbn [calls avgs]. split; [reflexivity |].
      exists []. rewrite app_nil_r. reflexivity.
    - apply MaxNode_init_alloc in H5 as (_ & Hc' & l & Ha').
      cbn [calls avgs] in *. split; [assumption | exists l; assumption]. }
  destruct Hw5 as (Hcalls & l & Havgs).
  assert (Ha5 : avgs w5 !! a = Some self).
  { rewrite Havgs. apply lookup_app_l_Some. assumption. }
  inv_bind H as u1 w6 H6. unfold append_sampled in H6. inv_bind H6 as self6 w5' H5'.
  apply get_avg_ok in H5' as [Ha6 ->]. rewrite Ha5 in Ha6. injection Ha6 as <-.
  unfold set_avg in H6. injection H6 as <- <-.
  unfold add_reward in H. inv_bind H as self7 w7 H7.
  apply get_avg_ok in H7 as [Ha7 ->]. cbn [avgs] in Ha7.
  rewrite list_lookup_insert_eq in Ha7 by (eapply lookup_lt_Some; eassumption).
  injection Ha7 as <-.
  cbn [a_state a_action a_gamma a_delta a_alpha a_eta a_K sampled_nodes a_r] in H.
  unfold set_avg in H. injection H as <- <-. cbn [states maxs avgs calls].
  exists node, v. split; [assumption |]. split; [| assumption].
  rewrite list_insert_insert_eq.
  apply list_lookup_insert_eq. eapply lookup_lt_Some; eassumption.
Qed.

Lemma Rltb_INR_IZR (n : nat) (z : Z) : Rltb (INR n) (IZR z) = (Z.of_nat n <? z)%Z.
Proof.
  rewrite INR_IZR_INZ. destruct (Z.ltb_spec (Z.of_nat n) z) as [H | H].
  - apply Rltb_true. apply IZR_lt. assumption.
  - apply Rltb_false. apply IZR_le. assumption.
Qed.

Lemma Rltb_IZR_INR (z : Z) (n : nat) : Rltb (IZR z) (INR n) = (z <? Z.of_nat n)%Z.
Proof.
  rewrite INR_IZR_INZ. destruct (Z.ltb_spec z (Z.of_nat n)) as [H | H].
  - apply Rltb_true. apply IZR_lt. assumption.
  - apply Rltb_false. apply IZR_le. assumption.
Qed.

(** The loop stops only when the cache holds at least [m] records. *)
Lemma sample_loop_done fuel a m (w w' : World) u :
  sample_loop fuel a m w = Ok (u, w') ->
  exists self', avgs w' !! a = Some self' /\
                Rltb (INR (length (sampled_nodes self'))) (num_val m) = false.
Proof.
  revert w. induction fuel as [| fuel IH]; intros w H; cbn [sample_loop] in H.
  - inv_bind H as self w1 H1. apply get_avg_ok in H1 as [Ha ->].
    destruct (Rltb _ _) eqn:E; [discriminate |].
    apply ret_ok in H as [_ ->]. exists self. split; assumption.
  - inv_bind H as self w1 H1. apply get_avg_ok in H1 as [Ha ->].
    destruct (Rltb _ _) eqn:E.
    + inv_bind H as u1 w2 H2. apply IH in H. assumption.
    + apply ret_ok in H as [_ ->]. exists self. split; assumption.
Qed.

(** With enough records in the cache the loop body never runs. *)
Lemma sample_loop_noop fuel a m (w : World) (self : AvgNode) :
  avgs w !! a = Some self ->
  Rltb (INR (length (sampled_nodes self))) (num_val m) = false ->
  sample_loop fuel a m w = Ok (tt, w).
Proof.
  intros Ha E. destruct fuel; cbn [sample_loop]; unfold bind;
    rewrite (get_avg_some w a self Ha), E; reflexivity.
Qed.

(** For an integer budget the loop fills the cache to exactly [z] records,
    one generative-model call per new record. *)
Lemma sample_loop_int fuel a z (w w' : World) (self : AvgNode) u :
  sample_loop fuel a (PyInt z) w = Ok (u, w') ->
  avgs w !! a = Some self ->
  (length (sampled_nodes self) <= Z.to_nat z)%nat ->
  exists self', avgs w' !! a = Some self' /\
                length (sampled_nodes self') = Z.to_nat z /\
                calls w' = (calls w + (Z.to_nat z - length (sampled_nodes self)))%nat.
Proof.
  revert w self. induction fuel as [| fuel IH]; intros w self H Ha Hlen;
    cbn [sample_loop] in H.
  - inv_bind H as self0 w1 H1. apply get_avg_ok in H1 as [Ha' ->].
    rewrite Ha in Ha'. injection Ha' as <-.
    cbn [num_val] in H. rewrite Rltb_INR_IZR in H.
    destruct (Z.ltb_spec (Z.of_nat (length (sampled_nodes self))) z) as [Hlt | Hge];
      [discriminate |].
    apply ret_ok in H as [_ ->]. exists self. repeat split; [assumption | lia | lia].
  - inv_bind H as self0 w1 H1. apply get_avg_ok in H1 as [Ha' ->].
    rewrite Ha in Ha'. injection Ha' as <-.
    cbn [num_val] in H. rewrite Rltb_INR_IZR in H.
    destruct (Z.ltb_spec (Z.of_nat (length (sampled_nodes self))) z) as [Hlt | Hge].
    + inv_bind H as u1 w2 H2.
      destruct (sample_once_spec a w w2 self u1 Ha H2) as (node & v & Hs & Ha2 & Hc2).
      eapply IH in H; [| exact Ha2 |].
      * destruct H as (self' & Ha' & Hl & Hc). exists self'.
        cbn [sampled_nodes] in Hc. rewrite length_app in Hc. cbn [length] in Hc.
        repeat split; [assumption | assumption | lia].
      * cbn [sampled_nodes]. rewrite length_app. cbn [length]. lia.
    + apply ret_ok in H as [_ ->]. exists self. repeat split; [assumption | lia | lia].
Qed.

(** After the sampling phase the cache holds at least [m] records. *)
Lemma active_nodes_cache fuel a m (w w' : World) active :
  active_nodes fuel a m w = Ok (active, w') ->
  exists self', avgs w' !! a = Some self' /\
                Rltb (INR (length (sampled_nodes self'))) (num_val m) = false.
Proof.
  unfold active_nodes. intros H.
  inv_bind H as self w1 H1. apply get_avg_ok in H1 as [Ha ->].
  destruct (Rltb (num_val m) _) eqn:E.
  - assert (w' = w) as ->.
    { destruct m as [z | x]; cbn in H; [| discriminate].
      destruct (0 <=? z)%Z; apply ret_ok in H as [_ ->]; reflexivity. }
    exists self. split; [assumption |].
    apply Rltb_spec in E. apply Rltb_false. lra.
  - inv_bind H as u w2 H2. apply sample_loop_done in H2 as (self' & Ha' & E').
    inv_bind H as self2 w3 H3. apply get_avg_ok in H3 as [_ ->].
    apply ret_ok in H as [_ ->]. exists self'. split; assumption.
Qed.

(** *** Grouping the records *)

Lemma index_of_Some l s i : index_of l s = Some i -> l !! i = Some s.
Proof.
  revert i. induction l as [| x l IH]; intros i H; cbn [index_of] in H; [discriminate |].
  destruct (Nat.eqb_spec x s) as [-> | Hne].
  - injection H as <-. reflexivity.
  - destruct (index_of l s) as [j |]; [| discriminate].
    injection H as <-. cbn. apply IH. reflexivity.
Qed.

Lemma index_of_None l s : index_of l s = None -> s ∉ l.
Proof.
  induction l as [| x l IH]; intros H; cbn [index_of] in H.
  - apply not_elem_of_nil.
  - destruct (Nat.eqb_spec x s) as [-> | Hne]; [discriminate |].
    destruct (index_of l s) as [j |]; [discriminate |].
    apply not_elem_of_cons. split; [congruence | apply IH; reflexivity].
Qed.

Lemma sum_list_alter_S i (cs : list nat) :
  (i < length cs)%nat -> sum_list (alter S i cs) = S (sum_list cs).
Proof.
  revert i. induction cs as [| c cs IH]; intros i Hi; cbn [length] in Hi; [lia |].
  destruct i as [| i]; cbn.
  - reflexivity.
  - change (list_alter S i cs) with (alter S i cs).
    rewrite IH by lia. lia.
Qed.

Lemma count_occ_snoc (l : list nat) (x u : nat) :
  count_occ Nat.eq_dec (l ++ [x]) u
  = (count_occ Nat.eq_dec l u + (if Nat.eq_dec x u then 1 else 0))%nat.
Proof.
  rewrite count_occ_app. cbn [count_occ]. destruct (Nat.eq_dec x u); reflexivity.
Qed.

Lemma grouped_nil : grouped [] ([], []).
Proof.
  unfold grouped. cbn. repeat split; try tauto.
  - constructor.
  - intros i u c H. discriminate.
Qed.

Lemma grouped_step seen uc s : grouped seen uc -> grouped (seen ++ [s]) (count_one uc s).
Proof.
  destruct uc as [us cs]. unfold grouped, count_one. cbn [fst snd].
  intros (Hlen & Hnd & Hmem & Hcnt & Hsum).
  destruct (index_of us s) as [i |] eqn:Ei; cbn [fst snd].
  - apply index_of_Some in Ei.
    assert (Hi : (i < length cs)%nat).
    { rewrite <- Hlen. eapply lookup_lt_Some. eassumption. }
    repeat split.
    + rewrite length_alter. assumption.
    + assumption.
    + intros Hx. apply elem_of_app. left. apply Hmem. assumption.
    + intros Hx. apply elem_of_app in Hx as [Hx | Hx]; [apply Hmem; assumption |].
      apply list_elem_of_singleton in Hx as ->. eapply list_elem_of_lookup_2. eassumption.
    + intros j u c Hu Hc. rewrite count_occ_snoc.
      destruct (decide (i = j)) as [<- | Hne].
      * rewrite Ei in Hu. injection Hu as <-.
        rewrite list_lookup_alter_eq in Hc.
        destruct (cs !! i) as [c0 |] eqn:Ec; [| discriminate].
        cbn in Hc. injection Hc as <-.
        rewrite (Hcnt i s c0 Ei Ec).
        destruct (Nat.eq_dec s s); [lia | congruence].
      * rewrite list_lookup_alter_ne in Hc by assumption.
        rewrite (Hcnt j u c Hu Hc).
        destruct (Nat.eq_dec s u) as [<- | Hsu]; [| lia].
        exfalso. apply Hne. eapply NoDup_lookup; eassumption.
    + rewrite sum_list_alter_S by assumption. rewrite length_app. cbn. lia.
  - apply index_of_None in Ei.
    repeat split.
    + rewrite !length_app. cbn. lia.
    + apply NoDup_app. split; [assumption |]. split.
      * intros x Hx Hx'. apply list_elem_of_singleton in Hx' as ->. contradiction.
      * apply NoDup_singleton.
    + intros Hx. apply elem_of_app in Hx as [Hx | Hx]; apply elem_of_app;
        [left; apply Hmem; assumption | right; assumption].
    + intros Hx. apply elem_of_app in Hx as [Hx | Hx]; apply elem_of_app;
        [left; apply Hmem; assumption | right; assumption].
    + intros j u c Hu Hc. rewrite count_occ_snoc.
      destruct (decide (j < length us)%nat) as [Hj | Hj].
      * rewrite lookup_app_l in Hu by assumption.
        rewrite lookup_app_l in Hc by lia.
        rewrite (Hcnt j u c Hu Hc).
        destruct (Nat.eq_dec s u) as [<- | Hsu]; [| lia].
        exfalso. apply Ei. eapply list_elem_of_lookup_2. eassumption.
      * rewrite lookup_app_r in Hu by lia.
        rewrite lookup_app_r in Hc by lia.
        rewrite Hlen in Hu.
        destruct (j - length cs)%nat; cbn in Hu, Hc; [| discriminate].
        injection Hu as <-. injection Hc as <-.
        destruct (Nat.eq_dec s s); [| congruence].
        assert (Hns : ~ In s seen).
        { intros Hin. apply Ei. apply Hmem. apply list_elem_of_In. assumption. }
        apply (count_occ_not_In Nat.eq_dec) in Hns. lia.
    + rewrite sum_list_with_app, length_app. cbn. lia.
Qed.

Lemma fold_count_one_grouped active seen uc :
  grouped seen uc -> grouped (seen ++ active) (fold_left count_one active uc).
Proof.
  revert seen uc. induction active as [| s active IH]; intros seen uc H; cbn [fold_left].
  - rewrite app_nil_r. assumption.
  - replace (seen ++ s :: active) with ((seen ++ [s]) ++ active)
      by (rewrite <- app_assoc; reflexivity).
    apply IH. apply grouped_step. assumption.
Qed.

(** Lines 85-93 compute the distinct records of [active] with their
    numbers of occurrences, which add up to the number of records. *)
Lemma group_grouped active : grouped active (group active).
Proof. apply (fold_count_one_grouped active [] ([], [])). apply grouped_nil. Qed.

Lemma grouped_counts_pos seen uc c : grouped seen uc -> c ∈ snd uc -> (1 <= c)%nat.
Proof.
  intros (Hlen & Hnd & Hmem & Hcnt & Hsum) Hc.
  apply list_elem_of_lookup in Hc as [i Hi].
  destruct (fst uc !! i) as [u |] eqn:Eu.
  - rewrite (Hcnt i u c Eu Hi).
    assert (Hin : In u seen).
    { apply list_elem_of_In. apply Hmem. eapply list_elem_of_lookup_2. eassumption. }
    apply (count_occ_In Nat.eq_dec) in Hin. lia.
  - apply lookup_ge_None in Eu. apply lookup_lt_Some in Hi. lia.
Qed.

(** *** The value of an AvgNode *)

Lemma avg_children_spec rec uniques counts m epsilon gamma mu0 (w w' : World) mu :
  avg_children rec uniques counts m epsilon gamma mu0 w = Ok (mu, w') ->
  exists values,
    child_runs rec uniques counts (epsilon / gamma) w values w' /\
    mu = mu0 + weighted_sum counts values (num_val m).
Proof.
  revert counts mu0 w. induction uniques as [| u us IH]; intros counts mu0 w H;
    cbn [avg_children] in H.
  - apply ret_ok in H as [-> ->]. exists []. split; [reflexivity |].
    destruct counts; cbn; lra.
  - destruct counts as [| c cs]; [discriminate |].
    inv_bind H as nu w1 H1. apply IH in H as (values & Hruns & ->).
    exists (nu :: values). split.
    + cbn [child_runs]. exists w1. split; assumption.
    + cbn [weighted_sum]. lra.
Qed.

Lemma ext_cache_length (w w' : World) a (self self' : AvgNode) :
  ext w w' -> avgs w !! a = Some self -> avgs w' !! a = Some self' ->
  (length (sampled_nodes self) <= length (sampled_nodes self'))%nat.
Proof.
  intros (_ & _ & Hav & _) Ha Ha'.
  destruct (Hav a self Ha) as (self2 & Ha2 & Hle).
  rewrite Ha' in Ha2. injection Ha2 as <-.
  apply prefix_length. apply Hle.
Qed.

(** *** Calling twice *)

Lemma active_nodes_noop fuel a z (w : World) (self : AvgNode) :
  avgs w !! a = Some self ->
  Rltb (INR (length (sampled_nodes self))) (IZR z) = false ->
  exists active, active_nodes fuel a (PyInt z) w = Ok (active, w).
Proof.
  intros Ha E. unfold active_nodes, bind at 1.
  rewrite (get_avg_some w a self Ha). cbn [num_val].
  destruct (Rltb (IZR z) _).
  - cbn [py_slice_to]. destruct (0 <=? z)%Z; eexists; reflexivity.
  - unfold bind. rewrite (sample_loop_noop fuel a (PyInt z) w self Ha E).
    rewrite (get_avg_some w a self Ha). eexists. reflexivity.
Qed.

(** *** The division by the number of cached samples *)

Lemma bind_not_raise {A B} (e : exn) (c : M A) (k : A -> M B) (w : World) :
  c w <> Raise e ->
  (forall a w1, c w = Ok (a, w1) -> k a w1 <> Raise e) ->
  bind c k w <> Raise e.
Proof.
  unfold bind. destruct (c w) as [[a w1] | e' | |]; intros Hc Hk; try discriminate.
  - apply Hk. reflexivity.
  - intros Heq. apply Hc. injection Heq as ->. reflexivity.
Qed.

Lemma mono_not_zde {A} (c : M A) (w : World) :
  mono sampling_exn c -> c w <> Raise ZeroDivisionError.
Proof.
  intros Hm Heq. specialize (Hm w). rewrite Heq in Hm.
  destruct Hm; discriminate.
Qed.

Lemma get_not_zde {A} (o : option A) (w : World) :
  of_option o w <> Raise ZeroDivisionError.
Proof. destruct o; cbn; discriminate. Qed.

Lemma py_max_not_zde mu (w : World) : py_max mu w <> Raise ZeroDivisionError.
Proof. destruct mu; cbn; discriminate. Qed.

Lemma pos_IZR_of_nat (c : nat) : (1 <= c)%nat -> 0 < IZR (Z.of_nat c).
Proof. intros H. apply (IZR_lt 0). lia. Qed.

Section NoDivisionByZero.

Variable rec : Call -> M R.
Hypothesis rec_safe :
  forall c w, 0 < num_val (budget c) -> rec c w <> Raise ZeroDivisionError.

Lemma avg_children_not_zde uniques counts m epsilon gamma mu (w : World) :
  (forall c, c ∈ counts -> (1 <= c)%nat) ->
  avg_children rec uniques counts m epsilon gamma mu w <> Raise ZeroDivisionError.
Proof.
  revert counts mu w. induction uniques as [| u us IH]; intros counts mu w Hpos;
    cbn [avg_children].
  - discriminate.
  - destruct counts as [| c cs]; [discriminate |].
    apply bind_not_raise.
    + apply rec_safe. cbn. apply pos_IZR_of_nat. apply Hpos. left.
    + intros nu w1 _. apply IH. intros c' Hc'. apply Hpos. right. assumption.
Qed.

Lemma estimate_all_not_zde cands count eps (w : World) :
  (1 <= count)%nat ->
  estimate_all rec cands count eps w <> Raise ZeroDivisionError.
Proof.
  intros Hc. revert w. induction cands as [| b rest IH]; intros w; cbn [estimate_all].
  - discriminate.
  - apply bind_not_raise.
    + apply rec_safe. cbn. apply pos_IZR_of_nat. assumption.
    + intros v w1 _. apply bind_not_raise; [apply IH |].
      intros vs w2 _. discriminate.
Qed.

Lemma elim_round_spec_count self epsilon st (w w' : World) st' :
  elim_round rec self epsilon st w = Ok (st', w') -> count st' = (count st + 1)%nat.
Proof.
  unfold elim_round. intros H.
  destruct (Rleb _ _); [discriminate |].
  destruct (Rltb _ _); [discriminate |].
  inv_bind H as mu w1 H1. inv_bind H as best w2 H2.
  apply ret_ok in H as [-> _]. reflexivity.
Qed.

Lemma elim_round_not_zde self epsilon st (w : World) :
  (1 <= count st)%nat ->
  elim_round rec self epsilon st w <> Raise ZeroDivisionError.
Proof.
  intros Hc. unfold elim_round.
  destruct (Rleb _ _); [discriminate |].
  destruct (Rltb _ _); [discriminate |].
  apply bind_not_raise; [apply estimate_all_not_zde; assumption |].
  intros mu w1 _. apply bind_not_raise; [apply py_max_not_zde |].
  intros best w2 _. discriminate.
Qed.

Lemma elim_loop_not_zde fuel self epsilon st (w : World) :
  (1 <= count st)%nat ->
  elim_loop fuel rec self epsilon st w <> Raise ZeroDivisionError.
Proof.
  revert st w. induction fuel as [| fuel IH]; intros st w Hc; cbn [elim_loop].
  - destruct (loop_test _ _ _); discriminate.
  - destruct (loop_test _ _ _); [| discriminate].
    apply bind_not_raise; [apply elim_round_not_zde; assumption |].
    intros st' w1 Hr. apply IH.
    apply elim_round_spec_count in Hr. lia.
Qed.

Lemma MaxNode_run_not_zde fuel x m epsilon (w : World) :
  0 < num_val m ->
  MaxNode_run fuel rec x m epsilon w <> Raise ZeroDivisionError.
Proof.
  intros Hm. unfold MaxNode_run.
  apply bind_not_raise; [apply get_not_zde |]. intros self w1 _.
  apply bind_not_raise; [apply elim_loop_not_zde; cbn; lia |]. intros st w2 _.
  unfold max_result. destruct (1 <? length (candidates st))%nat.
  - apply bind_not_raise; [apply py_max_not_zde |]. intros best w3 _. discriminate.
  - destruct (candidates st) as [| c rest]; [discriminate |].
    apply rec_safe. exact Hm.
Qed.

Hypothesis rec_mono : forall c, mono any_exn (rec c).

Lemma AvgNode_run_not_zde fuel a m epsilon (w : World) :
  0 < num_val m ->
  AvgNode_run fuel rec a m epsilon w <> Raise ZeroDivisionError.
Proof.
  intros Hm. unfold AvgNode_run.
  apply bind_not_raise; [apply get_not_zde |]. intros self w0 _.
  destruct (Rleb _ _); [discriminate |].
  apply bind_not_raise.
  { apply mono_not_zde. apply mono_active_nodes; [left | right]; reflexivity. }
  intros active w1 Hact.
  apply active_nodes_cache in Hact as (self1 & Ha1 & E1).
  pose proof (group_grouped active) as Hg.
  destruct (group active) as [uniques counts].
  apply bind_not_raise.
  { apply avg_children_not_zde. intros c Hc.
    eapply grouped_counts_pos; [exact Hg | exact Hc]. }
  intros mu w2 Hch.
  pose proof (mono_avg_children any_exn rec uniques counts m epsilon
                (a_gamma self) 0 I rec_mono w1) as Hext.
  rewrite Hch in Hext.
  destruct Hext as (_ & _ & Hav & _).
  destruct (Hav a self1 Ha1) as (self2 & Ha2 & Hle).
  unfold avg_result, bind. rewrite (get_avg_some w2 a self2 Ha2).
  destruct (length (sampled_nodes self2)) as [| n] eqn:En; [| discriminate].
  exfalso.
  assert (Hl : (length (sampled_nodes self1) <= length (sampled_nodes self2))%nat).
  { apply prefix_length. apply Hle. }
  destruct (Rlt_dec (INR (length (sampled_nodes self1))) (num_val m)) as [Hlt | Hnlt].
  - rewrite (Rltb_true _ _ Hlt) in E1. discriminate.
  - assert (length (sampled_nodes self1) = 0)%nat as Hz by lia.
    rewrite Hz in Hnlt. cbn in Hnlt. lra.
Qed.

End NoDivisionByZero.

Lemma run_not_zde fuel c (w : World) :
  0 < num_val (budget c) -> run fuel c w <> Raise ZeroDivisionError.
Proof.
  revert c w. induction fuel as [| fuel IH]; intros c w Hb; cbn [run].
  - discriminate.
  - destruct c as [x m epsilon | a m epsilon]; cbn [budget] in Hb.
    + apply MaxNode_run_not_zde; assumption.
    + apply AvgNode_run_not_zde; [exact IH | apply mono_run | assumption].
Qed.

(** *** The elimination loop *)

Lemma py_max_from_spec (best : nat * R) (l : list (nat * R)) :
  In (py_max_from best l) (best :: l) /\
  forall y, In y (best :: l) -> snd y <= snd (py_max_from best l).
Proof.
  revert best. induction l as [| x l IH]; intros best; cbn [py_max_from].
  - split; [left; reflexivity |]. intros y [<- | []]. lra.
  - destruct (IH (if Rltb (snd best) (snd x) then x else best)) as [Hin Hmax].
    split.
    + destruct Hin as [Heq | Hin]; [| right; right; assumption].
      rewrite <- Heq. destruct (Rltb _ _); [right; left | left]; reflexivity.
    + intros y Hy.
      assert (Hb : snd best <= snd (if Rltb (snd best) (snd x) then x else best) /\
                   snd x <= snd (if Rltb (snd best) (snd x) then x else best)).
      { destruct (Rltb (snd best) (snd x)) eqn:E.
        - apply Rltb_spec in E. lra.
        - destruct (Rlt_dec (snd best) (snd x)) as [Hlt | Hnlt].
          + rewrite (Rltb_true _ _ Hlt) in E. discriminate.
          + lra. }
      destruct Hy as [<- | [<- | Hy]].
      * etransitivity; [apply Hb | apply Hmax; left; reflexivity].
      * etransitivity; [apply Hb | apply Hmax; left; reflexivity].
      * apply Hmax. right. assumption.
Qed.

Lemma py_max_ok mu (w w' : World) best :
  py_max mu w = Ok (best, w') ->
  w' = w /\ In best mu /\ (forall y, In y mu -> snd y <= snd best) /\
  is_max_of (snd best) (map snd mu).
Proof.
  destruct mu as [| x l]; cbn [py_max]; intros H; [discriminate |].
  apply ret_ok in H as [-> ->].
  destruct (py_max_from_spec x l) as [Hin Hmax].
  repeat split; try assumption.
  - apply in_map. assumption.
  - intros y Hy. apply in_map_iff in Hy as (p & <- & Hp). apply Hmax. assumption.
Qed.

(** The best candidate of a round passes the retention test. *)
Lemma retained_best (U eta mu_sup : R) (b : nat) :
  0 <= U -> eta < 1 -> retained U eta mu_sup (b, mu_sup) = true.
Proof.
  intros HU Heta. unfold retained. cbn [snd]. apply Rleb_true.
  assert (0 <= 2 * U / (1 - eta)).
  { apply Rmult_le_pos; [lra |]. left. apply Rinv_0_lt_compat. lra. }
  lra.
Qed.

(** What one round computes. *)
Lemma elim_round_ok rec (self : MaxNode) epsilon st (w w' : World) st' :
  elim_round rec self epsilon st w = Ok (st', w') ->
  exists U mu best,
    0 <= U * (1 - m_gamma self) /\
    estimate_all rec (candidates st) (count st)
      (U * m_eta self / (1 - m_eta self)) w = Ok (mu, w') /\
    In best mu /\ (forall y, In y mu -> snd y <= snd best) /\
    st' = mkLoop (map fst (List.filter (retained U (m_eta self) (snd best)) mu))
                 (count st + 1) (Some U) mu.
Proof.
  unfold elim_round. intros H.
  destruct (Rleb _ _); [discriminate |].
  destruct (Rltb _ _); [discriminate |].
  inv_bind H as mu w1 H1. inv_bind H as best w2 H2.
  apply py_max_ok in H2 as (-> & Hin & Hmax & _).
  apply ret_ok in H as [-> ->].
  eexists _, mu, best. split; [| split; [exact H1 | split; [exact Hin | split; [exact Hmax | reflexivity]]]].
  match goal with |- 0 <= 2 / ?d * sqrt ?x * ?d =>
    pose proof (sqrt_pos x) as Hs; destruct (Req_dec d 0) as [Hd | Hd] end.
  - rewrite Hd. lra.
  - unfold Rdiv. rewrite Rmult_assoc, (Rmult_comm (sqrt _)), <- !Rmult_assoc.
    rewrite (Rmult_assoc 2), Rinv_l by assumption. lra.
Qed.

Lemma elim_round_nonempty rec (self : MaxNode) epsilon st (w w' : World) st' :
  m_gamma self < 1 -> m_eta self < 1 ->
  elim_round rec self epsilon st w = Ok (st', w') ->
  candidates st' <> [] /\ lmu st' <> [].
Proof.
  intros Hg He H.
  apply elim_round_ok in H as (U & mu & best & HU & _ & Hin & _ & ->).
  cbn [candidates lmu].
  assert (HU0 : 0 <= U) by nra.
  split.
  - intros Hnil. apply map_eq_nil in Hnil.
    assert (Hb : In best (List.filter (retained U (m_eta self) (snd best)) mu)).
    { apply filter_In. split; [assumption |].
      destruct best as [b v]. cbn [snd]. apply retained_best; assumption. }
    rewrite Hnil in Hb. destruct Hb.
  - intros Hnil. rewrite Hnil in Hin. destruct Hin.
Qed.

(** The loop either ran no round, or its result is the result of a last
    round. *)
Lemma elim_loop_last fuel rec (self : MaxNode) epsilon st0 (w0 w' : World) st :
  elim_loop fuel rec self epsilon st0 w0 = Ok (st, w') ->
  loop_test self epsilon st = false /\
  ((st = st0 /\ w' = w0) \/
   exists stp wp, loop_test self epsilon stp = true /\
                  elim_round rec self epsilon stp wp = Ok (st, w')).
Proof.
  revert st0 w0. induction fuel as [| fuel IH]; intros st0 w0 H; cbn [elim_loop] in H.
  - destruct (loop_test self epsilon st0) eqn:Et; [discriminate |].
    apply ret_ok in H as [-> ->]. split; [assumption | left; split; reflexivity].
  - destruct (loop_test self epsilon st0) eqn:Et.
    + inv_bind H as st1 w1 H1.
      destruct (IH st1 w1 H) as [Hexit [[-> ->] | Hlast]].
      * split; [assumption |]. right. exists st0, w0. split; assumption.
      * split; [assumption | right; assumption].
    + apply ret_ok in H as [-> ->]. split; [assumption | left; split; reflexivity].
Qed.

(** C9: the candidate that attains the maximum of a round passes the
    retention test, so every round leaves it in the candidate list; hence a
    loop entered with at least one candidate (K >= 1) leaves with at least
    one, and [candidates[0]] on line 40 exists. *)
Theorem candidates_never_empty rec (self : MaxNode) epsilon :
  m_gamma self < 1 ->
  m_eta self < 1 ->
  (forall st (w w' : World) st',
      elim_round rec self epsilon st w = Ok (st', w') ->
      exists best, In best (lmu st') /\
                   (forall y, In y (lmu st') -> snd y <= snd best) /\
                   fst best ∈ candidates st') /\
  (forall fuel st0 (w w' : World) st,
      candidates st0 <> [] ->
      elim_loop fuel rec self epsilon st0 w = Ok (st, w') ->
      exists c rest, candidates st = c :: rest).
Proof.
  intros Hg He. split.
  - intros st w w' st' H.
    apply elim_round_ok in H as (U & mu & best & HU & _ & Hin & Hmax & ->).
    cbn [candidates lmu]. exists best. split; [assumption |]. split; [assumption |].
    apply list_elem_of_In. apply in_map. apply filter_In. split; [assumption |].
    destruct best as [b v]. cbn [snd]. apply retained_best; [nra | assumption].
  - intros fuel st0 w w' st Hne H.
    apply elim_loop_last in H as [_ [[-> ->] | (stp & wp & _ & Hr)]].
    + destruct (candidates st0) as [| c rest]; [congruence |]. exists c, rest. reflexivity.
    + apply (elim_round_nonempty rec self epsilon stp wp w' st Hg He) in Hr as [Hc _].
      destruct (candidates st) as [| c rest]; [congruence |]. exists c, rest. reflexivity.
Qed.

(** C7: when the loop leaves exactly one candidate, which includes K = 1
    where no round runs, the value is that candidate's estimate for the
    outer budget m and precision eta * epsilon; when it leaves more than
    one, the value is the maximum of the estimates of the last round. *)
Theorem max_value fuel x m epsilon (w w1 : World) (self : MaxNode) st :
  maxs w !! x = Some self ->
  elim_loop fuel (run fuel) self epsilon
    (mkLoop (map snd (m_children self)) 1 None []) w = Ok (st, w1) ->
  (forall c, candidates st = [c] ->
     run (S fuel) (CallMax x m epsilon) w
     = run fuel (CallAvg c m (m_eta self * epsilon)) w1) /\
  ((1 < length (candidates st))%nat ->
     exists v stp wp,
       run (S fuel) (CallMax x m epsilon) w = Ok (v, w1) /\
       elim_round (run fuel) self epsilon stp wp = Ok (st, w1) /\
       is_max_of v (map snd (lmu st))) /\
  (forall action c, m_children self = [(action, c)] ->
     w1 = w /\
     run (S fuel) (CallMax x m epsilon) w
     = run fuel (CallAvg c m (m_eta self * epsilon)) w).
Proof.
  intros Hx Hloop.
  assert (Hrun : run (S fuel) (CallMax x m epsilon) w
                 = max_result (run fuel) self m epsilon st w1).
  { rewrite run_max_unfold. unfold MaxNode_run, bind.
    rewrite (get_max_some w x self Hx). rewrite Hloop. reflexivity. }
  split; [| split].
  - intros c Hc. rewrite Hrun. unfold max_result. rewrite Hc. reflexivity.
  - intros Hlen.
    destruct (elim_loop_last _ _ _ _ _ _ _ _ Hloop) as [Hexit [[-> ->] | (stp & wp & Ht & Hr)]].
    + unfold loop_test in Hexit. cbn [candidates lU] in *.
      apply Nat.ltb_lt in Hlen. rewrite Hlen in Hexit. discriminate.
    + pose proof Hr as Hr'.
      apply elim_round_ok in Hr' as (U & mu & best & _ & _ & Hin & _ & Est).
      assert (Hmu : lmu st = mu) by (rewrite Est; reflexivity).
      destruct mu as [| p mu']; [destruct Hin |].
      exists (snd (py_max_from p mu')), stp, wp.
      split; [| split; [assumption |]].
      * rewrite Hrun. unfold max_result.
        apply Nat.ltb_lt in Hlen. rewrite Hlen. rewrite Hmu. reflexivity.
      * rewrite Hmu.
        apply (py_max_ok (p :: mu') w1 w1 (py_max_from p mu')). reflexivity.
  - intros action c Hch.
    assert (Hst : st = mkLoop [c] 1 None [] /\ w1 = w).
    { rewrite Hch in Hloop. cbn [map snd] in Hloop.
      destruct fuel; cbn [elim_loop] in Hloop; unfold loop_test in Hloop;
        cbn in Hloop; apply ret_ok in Hloop as [-> ->]; split; reflexivity. }
    destruct Hst as [-> ->]. split; [reflexivity |].
    rewrite Hrun. reflexivity.
Qed.

End Calls.

(** ** What a call leaves alone *)

Section Frame.

Context {State Action : Type} `{GM : GenerativeModel State Action}.

Local Abbreviation World := (World State Action).
Local Abbreviation AvgNode := (AvgNode Action).
Local Abbreviation MaxNode := (MaxNode Action).
Local Abbreviation M := (M State Action).

Tactic Notation "inv_bind" hyp(H) "as" ident(a) ident(w1) ident(H1) :=
  apply bind_ok in H as (a & w1 & H1 & H).

Lemma dict_set_elem (d : list (Action * nat)) k v k' v' :
  (k', v') ∈ dict_set d k v -> (k', v') ∈ d \/ v' = v.
Proof.
  induction d as [| [k0 v0] d IH]; cbn [dict_set]; intros H.
  - apply list_elem_of_singleton in H. injection H as _ ->. right. reflexivity.
  - destruct (action_eq k0 k).
    + apply elem_of_cons in H as [H | H].
      * injection H as _ ->. right. reflexivity.
      * left. apply elem_of_cons. right. assumption.
    + apply elem_of_cons in H as [H | H].
      * left. apply elem_of_cons. left. assumption.
      * destruct (IH H) as [Hd | Hv]; [left; apply elem_of_cons; right; assumption | right; assumption].
Qed.

Lemma init_children_spec state gamma delta alpha eta K actions d (w w' : World) d' :
  init_children state gamma delta alpha eta K actions d w = Ok (d', w') ->
  states w' = states w /\ calls w' = calls w /\ maxs w' = maxs w /\
  exists l, avgs w' = avgs w ++ l /\
            Forall (fun B : AvgNode => sampled_nodes B = []) l /\
            forall act c, (act, c) ∈ d' -> (act, c) ∈ d \/ (length (avgs w) <= c)%nat.
Proof.
  revert d w. induction actions as [| action rest IH]; intros d w H; cbn [init_children] in H.
  - apply ret_ok in H as [-> ->]. repeat split. exists []. rewrite app_nil_r.
    split; [reflexivity |]. split; [constructor |]. intros act c Hc. left. assumption.
  - inv_bind H as a w1 H1. unfold AvgNode_init, new_avg in H1. injection H1 as <- <-.
    apply IH in H as (Hs & Hc & Hm & l & Ha & Hl & Hd). cbn [states maxs avgs calls] in *.
    repeat split; try assumption.
    eexists. split; [rewrite Ha; rewrite <- app_assoc; reflexivity |].
    split.
    + apply Forall_cons. split; [reflexivity | assumption].
    + intros act c Hin. destruct (Hd act c Hin) as [Hin' | Hge].
      * apply dict_set_elem in Hin' as [Hin' | ->]; [left; assumption | right; lia].
      * right. rewrite length_app in Hge. lia.
Qed.

Lemma MaxNode_init_spec state gamma delta alpha eta (w w' : World) x :
  MaxNode_init state gamma delta alpha eta w = Ok (x, w') ->
  x = length (maxs w) /\ states w' = states w /\ calls w' = calls w /\
  exists (Mx : MaxNode) l,
    maxs w' = maxs w ++ [Mx] /\ avgs w' = avgs w ++ l /\
    Forall (fun B : AvgNode => sampled_nodes B = []) l /\
    forall act c, (act, c) ∈ m_children Mx -> (length (avgs w) <= c)%nat.
Proof.
  unfold MaxNode_init. intros H.
  inv_bind H as s w1 H1. apply get_state_ok in H1 as [_ ->].
  inv_bind H as ch w2 H2.
  apply init_children_spec in H2 as (Hs & Hc & Hm & l & Ha & Hl & Hd).
  unfold new_max in H. injection H as <- <-. cbn [states maxs avgs calls].
  rewrite Hm. repeat split; try assumption.
  eexists _, l. split; [reflexivity |]. split; [assumption |]. split; [assumption |].
  cbn [m_children]. intros act c Hin. destruct (Hd act c Hin) as [Hnil | Hge]; [| assumption].
  apply elem_of_nil in Hnil. destruct Hnil.
Qed.

Lemma find_node_elem nodes new_st (w w' : World) node :
  find_node nodes new_st w = Ok (Some node, w') -> node ∈ nodes.
Proof.
  induction nodes as [| n rest IH]; cbn [find_node]; intros H.
  - apply ret_ok in H as [H _]. discriminate.
  - inv_bind H as Mn w1 H1. apply get_max_ok in H1 as [_ ->].
    inv_bind H as s w2 H2. apply get_state_ok in H2 as [_ ->].
    inv_bind H as s' w3 H3. apply get_state_ok in H3 as [_ ->].
    destruct (state_eq _ _).
    + apply ret_ok in H as [H _]. injection H as ->. apply elem_of_cons. left. reflexivity.
    + apply elem_of_cons. right. apply IH. assumption.
Qed.

(** The store after one iteration of the sampling loop. *)
Lemma sample_once_shape a (w w' : World) (A : AvgNode) u :
  avgs w !! a = Some A ->
  sample_once a w = Ok (u, w') ->
  exists node v l ml,
    states w !! a_state A = Some v /\
    avgs w' = <[a := mkAvgNode (a_state A) (a_action A) (a_gamma A) (a_delta A)
                       (a_alpha A) (a_eta A) (a_K A) (sampled_nodes A ++ [node])
                       (a_r A + fst (step v (a_action A) (calls w)))]> (avgs w ++ l) /\
    maxs w' = maxs w ++ ml /\
    Forall (fun B : AvgNode => sampled_nodes B = []) l /\
    calls w' = S (calls w) /\
    ((node ∈ sampled_nodes A /\ ml = []) \/
     exists Mx : MaxNode, ml = [Mx] /\ node = length (maxs w) /\
       forall act c, (act, c) ∈ m_children Mx -> (length (avgs w) <= c)%nat).
Proof.
  intros Ha H. unfold sample_once in H.
  inv_bind H as self0 w1 H1. apply get_avg_ok in H1 as [Ha' ->].
  rewrite Ha in Ha'. injection Ha' as <-.
  inv_bind H as new_st w2 H2. pose proof H2 as Hcopy.
  unfold deepcopy in Hcopy. inv_bind Hcopy as v w1' Hv.
  apply get_state_ok in Hv as [Hs ->]. clear Hcopy.
  destruct (copy_step (a_state A) (a_action A) w v Hs) as [Hc Hst].
  rewrite Hc in H2. injection H2 as <- <-.
  inv_bind H as reward w3 H3. rewrite Hst in H3. injection H3 as <- <-.
  inv_bind H as found w4 H4. pose proof H4 as Hfound. apply find_node_pure in H4 as ->.
  inv_bind H as node w5 H5.
  assert (Hw5 : exists l ml, avgs w5 = avgs w ++ l /\ maxs w5 = maxs w ++ ml /\
            Forall (fun B : AvgNode => sampled_nodes B = []) l /\
            calls w5 = S (calls w) /\
            ((node ∈ sampled_nodes A /\ ml = []) \/
             exists Mx : MaxNode, ml = [Mx] /\ node = length (maxs w) /\
               forall act c, (act, c) ∈ m_children Mx -> (length (avgs w) <= c)%nat)).
  { destruct found as [node' |].
    - apply ret_ok in H5 as [-> ->]. cbn [calls avgs maxs]. exists [], [].
      rewrite !app_nil_r. repeat split; try reflexivity; [constructor |].
      left. split; [| reflexivity]. eapply find_node_elem. exact Hfound.
    - apply MaxNode_init_spec in H5 as (-> & _ & Hc' & Mx & l & Hm & Ha' & Hl & Hd).
      cbn [calls avgs maxs states] in *. exists l, [Mx].
      repeat split; try assumption. right. exists Mx. repeat split. assumption. }
  destruct Hw5 as (l & ml & Havgs & Hmaxs & Hl & Hcalls & Hnode).
  assert (Ha5 : avgs w5 !! a = Some A).
  { rewrite Havgs. apply lookup_app_l_Some. assumption. }
  inv_bind H as u1 w6 H6. unfold append_sampled in H6. inv_bind H6 as self6 w5' H5'.
  apply get_avg_ok in H5' as [Ha6 ->]. rewrite Ha5 in Ha6. injection Ha6 as <-.
  unfold set_avg in H6. injection H6 as <- <-.
  unfold add_reward in H. inv_bind H as self7 w7 H7.
  apply get_avg_ok in H7 as [Ha7 ->]. cbn [avgs] in Ha7.
  rewrite list_lookup_insert_eq in Ha7 by (eapply lookup_lt_Some; eassumption).
  injection Ha7 as <-.
  cbn [a_state a_action a_gamma a_delta a_alpha a_eta a_K sampled_nodes a_r] in H.
  unfold set_avg in H. injection H as <- <-. cbn [states maxs avgs calls].
  exists node, v, l, ml. split; [assumption |]. split.
  { rewrite list_insert_insert_eq. rewrite Havgs. reflexivity. }
  repeat split; assumption.
Qed.

Lemma sample_once_wf a (w w' : World) (A : AvgNode) u :
  wf w -> avgs w !! a = Some A ->
  sample_once a w = Ok (u, w') ->
  wf w' /\
  (length (avgs w) <= length (avgs w'))%nat /\
  (forall j, j <> a -> (j < length (avgs w))%nat -> avgs w' !! j = avgs w !! j).
Proof.
  intros Hwf Ha H.
  destruct (sample_once_shape a w w' A u Ha H)
    as (node & v & l & ml & Hs & Havgs & Hmaxs & Hl & Hcalls & Hnode).
  assert (Hlt : (a < length (avgs w))%nat) by (eapply lookup_lt_Some; eassumption).
  split; [| split].
  - intros b B Hb x Hx. rewrite Havgs in Hb. rewrite Hmaxs.
    destruct (decide (b = a)) as [-> | Hne].
    + rewrite list_lookup_insert_eq in Hb by (rewrite length_app; lia).
      injection Hb as <-. cbn [sampled_nodes] in Hx.
      assert (Hold : x ∈ sampled_nodes A ->
                exists Mx, (maxs w ++ ml) !! x = Some Mx /\
                           forall act c, (act, c) ∈ m_children Mx -> (a < c)%nat).
      { intros Hin. destruct (Hwf a A Ha x Hin) as (Mx & HM & Hc).
        exists Mx. split; [apply lookup_app_l_Some; assumption | assumption]. }
      apply elem_of_app in Hx as [Hx | Hx]; [apply Hold; assumption |].
      apply list_elem_of_singleton in Hx as ->.
      destruct Hnode as [[Hin ->] | (Mx & -> & -> & Hc)].
      * rewrite app_nil_r. destruct (Hwf a A Ha node Hin) as (Mx & HM & Hc).
        exists Mx. split; assumption.
      * exists Mx. split.
        -- rewrite lookup_app_r by lia. rewrite Nat.sub_diag. reflexivity.
        -- intros act c Hin. specialize (Hc act c Hin). lia.
    + rewrite list_lookup_insert_ne in Hb by congruence.
      destruct (decide (b < length (avgs w))%nat) as [Hlb | Hlb].
      * rewrite lookup_app_l in Hb by assumption.
        destruct (Hwf b B Hb x Hx) as (Mx & HM & Hc).
        exists Mx. split; [apply lookup_app_l_Some; assumption | assumption].
      * rewrite lookup_app_r in Hb by lia.
        apply list_elem_of_lookup_2 in Hb.
        rewrite Forall_forall in Hl. rewrite (Hl B Hb) in Hx.
        apply elem_of_nil in Hx. destruct Hx.
  - rewrite Havgs, length_insert, length_app. lia.
  - intros j Hne Hj. rewrite Havgs.
    rewrite list_lookup_insert_ne by congruence.
    apply lookup_app_l. assumption.
Qed.

Lemma sample_loop_wf fuel a m (w w' : World) u :
  wf w -> sample_loop fuel a m w = Ok (u, w') ->
  wf w' /\
  (length (avgs w) <= length (avgs w'))%nat /\
  (forall j, j <> a -> (j < length (avgs w))%nat -> avgs w' !! j = avgs w !! j).
Proof.
  revert w. induction fuel as [| fuel IH]; intros w Hwf H; cbn [sample_loop] in H.
  - inv_bind H as self w1 H1. apply get_avg_ok in H1 as [Ha ->].
    destruct (Rltb _ _); [discriminate |].
    apply ret_ok in H as [_ ->]. repeat split; [assumption | lia].
  - inv_bind H as self w1 H1. apply get_avg_ok in H1 as [Ha ->].
    destruct (Rltb _ _).
    + inv_bind H as u1 w2 H2.
      destruct (sample_once_wf a w w2 self u1 Hwf Ha H2) as (Hwf2 & Hlen2 & Hfr2).
      destruct (IH w2 Hwf2 H) as (Hwf' & Hlen' & Hfr').
      split; [assumption |]. split; [lia |].
      intros j Hne Hj. rewrite Hfr' by (try assumption; lia). apply Hfr2; assumption.
    + apply ret_ok in H as [_ ->]. repeat split; [assumption | lia].
Qed.

(** The sampling phase touches no other AvgNode, and works on records of
    the cache. *)
Lemma active_nodes_wf fuel a m (w w' : World) active :
  wf w -> active_nodes fuel a m w = Ok (active, w') ->
  wf w' /\
  (forall j, j <> a -> (j < length (avgs w))%nat -> avgs w' !! j = avgs w !! j) /\
  exists A' : AvgNode, avgs w' !! a = Some A' /\
                       forall x, x ∈ active -> x ∈ sampled_nodes A'.
Proof.
  intros Hwf H. unfold active_nodes in H.
  inv_bind H as self w1 H1. apply get_avg_ok in H1 as [Ha ->].
  destruct (Rltb _ _).
  - destruct m as [z | x]; cbn [py_slice_to] in H; [| discriminate].
    assert (Hsub : forall n x, x ∈ take n (sampled_nodes self) -> x ∈ sampled_nodes self).
    { intros n x Hx. apply list_elem_of_lookup in Hx as [i Hi].
      apply lookup_take_Some in Hi as [Hi _]. eapply list_elem_of_lookup_2. eassumption. }
    destruct (0 <=? z)%Z; apply ret_ok in H as [-> ->];
      (split; [assumption |]; split; [reflexivity |]; exists self;
       split; [assumption | apply Hsub]).
  - inv_bind H as u w2 H2.
    destruct (sample_loop_wf fuel a m w w2 u Hwf H2) as (Hwf2 & _ & Hfr).
    inv_bind H as self2 w3 H3. apply get_avg_ok in H3 as [Ha2 ->].
    apply ret_ok in H as [-> ->].
    split; [assumption |]. split; [assumption |].
    exists self2. split; [assumption | tauto].
Qed.

Section Recursion.

Variable rec : Call -> M R.
Hypothesis rec_mono : forall c, mono any_exn (rec c).
Hypothesis rec_frame :
  forall c (w w' : World) v, wf w -> rec c w = Ok (v, w') -> wf w' /\ frame c w w'.

Lemma rec_maxs c (w w' : World) v x (Mx : MaxNode) :
  rec c w = Ok (v, w') -> maxs w !! x = Some Mx -> maxs w' !! x = Some Mx.
Proof.
  intros H Hx. pose proof (rec_mono c w) as Hm. rewrite H in Hm.
  destruct Hm as (_ & Hp & _). eapply prefix_lookup_Some; eassumption.
Qed.

(** The calls into the children leave the node itself, and every AvgNode
    allocated before it, as they are. *)
Lemma avg_children_frame a uniques counts m epsilon gamma mu0 (w w' : World) mu :
  wf w ->
  (forall u, u ∈ uniques ->
     exists Mx, maxs w !! u = Some Mx /\
                forall act c, (act, c) ∈ m_children Mx -> (a < c)%nat) ->
  avg_children rec uniques counts m epsilon gamma mu0 w = Ok (mu, w') ->
  wf w' /\ forall j, (j <= a)%nat -> avgs w' !! j = avgs w !! j.
Proof.
  revert counts mu0 w. induction uniques as [| u us IH]; intros counts mu0 w Hwf Hu H;
    cbn [avg_children] in H.
  - apply ret_ok in H as [_ ->]. split; [assumption | reflexivity].
  - destruct counts as [| c cs]; [discriminate |].
    inv_bind H as nu w1 H1.
    destruct (rec_frame _ w w1 nu Hwf H1) as [Hwf1 Hfr1]. cbn [frame] in Hfr1.
    assert (Hu1 : forall u', u' ∈ us ->
              exists Mx, maxs w1 !! u' = Some Mx /\
                         forall act c, (act, c) ∈ m_children Mx -> (a < c)%nat).
    { intros u' Hu'. destruct (Hu u' ltac:(apply elem_of_cons; right; exact Hu'))
        as (Mx & HM & Hc).
      exists Mx. split; [eapply rec_maxs; eassumption | assumption]. }
    destruct (IH cs _ w1 Hwf1 Hu1 H) as [Hwf' Hfr'].
    split; [assumption |].
    intros j Hj. rewrite (Hfr' j Hj).
    destruct (Hu u ltac:(apply elem_of_cons; left; reflexivity)) as (Mx & HM & Hc).
    apply (Hfr1 Mx HM). intros act c0 Hin. specialize (Hc act c0 Hin). lia.
Qed.

Lemma AvgNode_run_frame fuel a m epsilon (w w' : World) v :
  wf w -> AvgNode_run fuel rec a m epsilon w = Ok (v, w') ->
  wf w' /\ forall j, (j < a)%nat -> avgs w' !! j = avgs w !! j.
Proof.
  intros Hwf H. unfold AvgNode_run in H.
  inv_bind H as self w0 H0. apply get_avg_ok in H0 as [Ha ->].
  destruct (Rleb _ _).
  { apply ret_ok in H as [_ ->]. split; [assumption | reflexivity]. }
  inv_bind H as active w1 H1.
  destruct (active_nodes_wf fuel a m w w1 active Hwf H1) as (Hwf1 & Hfr1 & A1 & Ha1 & Hsub).
  pose proof (group_grouped active) as Hg.
  destruct (group active) as [uniques counts].
  inv_bind H as mu w2 H2.
  assert (Hu : forall u, u ∈ uniques ->
            exists Mx, maxs w1 !! u = Some Mx /\
                       forall act c, (act, c) ∈ m_children Mx -> (a < c)%nat).
  { intros u Hu. apply (Hwf1 a A1 Ha1). apply Hsub.
    destruct Hg as (_ & _ & Hmem & _). apply Hmem. exact Hu. }
  destruct (avg_children_frame a uniques counts m epsilon (a_gamma self) 0 w1 w2 mu
              Hwf1 Hu H2) as [Hwf2 Hfr2].
  unfold avg_result in H. inv_bind H as self' w3 H3. apply get_avg_ok in H3 as [_ ->].
  assert (w' = w2) as ->.
  { destruct (length (sampled_nodes self')); [discriminate |].
    apply ret_ok in H as [_ ->]. reflexivity. }
  split; [assumption |].
  intros j Hj. rewrite Hfr2 by lia. apply Hfr1; [lia |].
  apply lookup_lt_Some in Ha. lia.
Qed.

Lemma estimate_all_frame cands count eps (w w' : World) mu :
  wf w -> estimate_all rec cands count eps w = Ok (mu, w') ->
  wf w' /\ map fst mu = cands /\
  forall j, (forall b, b ∈ cands -> (j < b)%nat) -> avgs w' !! j = avgs w !! j.
Proof.
  revert w w' mu. induction cands as [| b rest IH]; intros w w' mu Hwf H;
    cbn [estimate_all] in H.
  - apply ret_ok in H as [-> ->]. repeat split; assumption.
  - inv_bind H as v w1 H1.
    destruct (rec_frame _ w w1 v Hwf H1) as [Hwf1 Hfr1]. cbn [frame] in Hfr1.
    inv_bind H as vs w2 H2.
    destruct (IH w1 w2 vs Hwf1 H2) as (Hwf2 & Hfst & Hfr2).
    apply ret_ok in H as [-> ->].
    split; [assumption |]. split; [cbn; rewrite Hfst; reflexivity |].
    intros j Hj. rewrite Hfr2.
    + apply Hfr1. apply Hj. apply elem_of_cons. left. reflexivity.
    + intros b' Hb'. apply Hj. apply elem_of_cons. right. assumption.
Qed.

Lemma elim_round_frame (self : MaxNode) epsilon st (w w' : World) st' :
  wf w -> elim_round rec self epsilon st w = Ok (st', w') ->
  wf w' /\ (forall b, b ∈ candidates st' -> b ∈ candidates st) /\
  forall j, (forall b, b ∈ candidates st -> (j < b)%nat) -> avgs w' !! j = avgs w !! j.
Proof.
  intros Hwf H.
  apply elim_round_ok in H as (U & mu & best & _ & Hest & _ & _ & ->).
  destruct (estimate_all_frame _ _ _ w w' mu Hwf Hest) as (Hwf' & Hfst & Hfr).
  split; [assumption |]. split; [| assumption].
  cbn [candidates]. intros b Hb. rewrite <- Hfst.
  apply list_elem_of_In in Hb. apply in_map_iff in Hb as (p & <- & Hp).
  apply filter_In in Hp as [Hp _]. apply list_elem_of_In. apply in_map. assumption.
Qed.

Lemma elim_loop_frame fuel (self : MaxNode) epsilon st (w w' : World) st' :
  wf w -> elim_loop fuel rec self epsilon st w = Ok (st', w') ->
  wf w' /\ (forall b, b ∈ candidates st' -> b ∈ candidates st) /\
  forall j, (forall b, b ∈ candidates st -> (j < b)%nat) -> avgs w' !! j = avgs w !! j.
Proof.
  revert st w. induction fuel as [| fuel IH]; intros st w Hwf H; cbn [elim_loop] in H.
  - destruct (loop_test _ _ _); [discriminate |].
    apply ret_ok in H as [-> ->]. repeat split; [assumption | tauto].
  - destruct (loop_test _ _ _).
    + inv_bind H as st1 w1 H1.
      destruct (elim_round_frame self epsilon st w w1 st1 Hwf H1) as (Hwf1 & Hsub1 & Hfr1).
      destruct (IH st1 w1 Hwf1 H) as (Hwf' & Hsub' & Hfr').
      split; [assumption |]. split; [intros b Hb; apply Hsub1, Hsub'; assumption |].
      intros j Hj. rewrite Hfr'; [apply Hfr1; assumption |].
      intros b Hb. apply Hj. apply Hsub1. assumption.
    + apply ret_ok in H as [-> ->]. repeat split; [assumption | tauto].
Qed.

Lemma MaxNode_run_frame fuel x m epsilon (w w' : World) v :
  wf w -> MaxNode_run fuel rec x m epsilon w = Ok (v, w') ->
  wf w' /\ frame (CallMax x m epsilon) w w'.
Proof.
  intros Hwf H. unfold MaxNode_run in H.
  inv_bind H as self w0 H0. apply get_max_ok in H0 as [Hx ->].
  inv_bind H as st w1 H1.
  destruct (elim_loop_frame fuel self epsilon _ w w1 st Hwf H1) as (Hwf1 & Hsub & Hfr1).
  cbn [candidates] in Hsub, Hfr1.
  assert (Hch : forall j, (forall act c, (act, c) ∈ m_children self -> (j < c)%nat) ->
                          forall b, b ∈ map snd (m_children self) -> (j < b)%nat).
  { intros j Hj b Hb. apply list_elem_of_In in Hb. apply in_map_iff in Hb as ([act c] & <- & Hp).
    apply (Hj act c). apply list_elem_of_In. assumption. }
  unfold max_result in H. destruct (1 <? length (candidates st))%nat.
  - inv_bind H as best w2 H2. apply py_max_ok in H2 as (-> & _).
    apply ret_ok in H as [_ ->]. split; [assumption |].
    cbn [frame]. intros M0 HM0 j Hj. rewrite Hx in HM0. injection HM0 as <-.
    apply Hfr1. apply Hch. assumption.
  - destruct (candidates st) as [| c rest] eqn:Ec; [discriminate |].
    destruct (rec_frame _ w1 w' v Hwf1 H) as [Hwf' Hfr']. cbn [frame] in Hfr'.
    split; [assumption |].
    cbn [frame]. intros M0 HM0 j Hj. rewrite Hx in HM0. injection HM0 as <-.
    rewrite Hfr'.
    + apply Hfr1. apply Hch. assumption.
    + apply (Hch j Hj). apply Hsub. apply elem_of_cons. left. reflexivity.
Qed.

End Recursion.

(** Every call keeps the tree shape and leaves the AvgNodes allocated
    before its node as they are. *)
Lemma run_frame fuel c (w w' : World) v :
  wf w -> run fuel c w = Ok (v, w') -> wf w' /\ frame c w w'.
Proof.
  revert c w w' v. induction fuel as [| fuel IH]; intros c w w' v Hwf H; cbn [run] in H.
  - discriminate.
  - destruct c as [x m epsilon | a m epsilon].
    + eapply MaxNode_run_frame; [exact IH | exact Hwf | exact H].
    + cbn [frame]. eapply AvgNode_run_frame; [apply mono_run | exact IH | exact Hwf | exact H].
Qed.

(** *** The reward sum of the cache *)

Lemma sample_loop_rewards fuel a z (w w' : World) (A : AvgNode) (s : State) u :
  sample_loop fuel a (PyInt z) w = Ok (u, w') ->
  avgs w !! a = Some A ->
  states w !! a_state A = Some s ->
  (length (sampled_nodes A) <= Z.to_nat z)%nat ->
  exists A', avgs w' !! a = Some A' /\
             length (sampled_nodes A') = Z.to_nat z /\
             a_r A' = a_r A + reward_sum s (a_action A) (calls w)
                                (Z.to_nat z - length (sampled_nodes A)).
Proof.
  revert w A. induction fuel as [| fuel IH]; intros w A H Ha Hs Hlen;
    cbn [sample_loop] in H.
  - inv_bind H as self0 w1 H1. apply get_avg_ok in H1 as [Ha' ->].
    rewrite Ha in Ha'. injection Ha' as <-.
    cbn [num_val] in H. rewrite Rltb_INR_IZR in H.
    destruct (Z.ltb_spec (Z.of_nat (length (sampled_nodes A))) z) as [Hlt | Hge];
      [discriminate |].
    apply ret_ok in H as [_ ->]. exists A. split; [assumption |]. split; [lia |].
    replace (Z.to_nat z - length (sampled_nodes A))%nat with 0%nat by lia.
    cbn [reward_sum]. lra.
  - inv_bind H as self0 w1 H1. apply get_avg_ok in H1 as [Ha' ->].
    rewrite Ha in Ha'. injection Ha' as <-.
    cbn [num_val] in H. rewrite Rltb_INR_IZR in H.
    destruct (Z.ltb_spec (Z.of_nat (length (sampled_nodes A))) z) as [Hlt | Hge].
    + inv_bind H as u1 w2 H2.
      destruct (sample_once_spec a w w2 A u1 Ha H2) as (node & v & Hv & Ha2 & Hc2).
      rewrite Hs in Hv. injection Hv as <-.
      assert (Hs2 : states w2 !! a_state A = Some s).
      { pose proof (mono_sample_once any_exn a I w) as Hm. rewrite H2 in Hm.
        destruct Hm as (Hp & _). eapply prefix_lookup_Some; eassumption. }
      eapply IH in H; [| exact Ha2 | exact Hs2 |].
      * destruct H as (A' & Ha' & Hl & Hr). exists A'.
        split; [assumption |]. split; [assumption |].
        cbn [a_r a_action sampled_nodes] in Hr. rewrite length_app in Hr.
        cbn [length] in Hr. rewrite Hr, Hc2.
        replace (Z.to_nat z - length (sampled_nodes A))%nat
          with (S (Z.to_nat z - (length (sampled_nodes A) + 1)))%nat by lia.
        cbn [reward_sum]. lra.
      * cbn [sampled_nodes]. rewrite length_app. cbn [length]. lia.
    + apply ret_ok in H as [_ ->]. exists A. split; [assumption |]. split; [lia |].
      replace (Z.to_nat z - length (sampled_nodes A))%nat with 0%nat by lia.
      cbn [reward_sum]. lra.
Qed.

(** The sampling phase for an integer budget [z >= 0]: a cache with more
    than [z] records is left as it is, a smaller one is filled to [z] records
    and its reward sum grows by the rewards of the new samples. *)
Lemma active_nodes_int_full fuel a z (w w1 : World) (A : AvgNode) active :
  (0 <= z)%Z ->
  avgs w !! a = Some A ->
  active_nodes fuel a (PyInt z) w = Ok (active, w1) ->
  exists A1, avgs w1 !! a = Some A1 /\
    active = take (Z.to_nat z) (sampled_nodes A1) /\
    length (sampled_nodes A1) = Nat.max (Z.to_nat z) (length (sampled_nodes A)) /\
    ((length (sampled_nodes A) <= Z.to_nat z)%nat ->
       forall s, states w !! a_state A = Some s ->
       a_r A1 = a_r A + reward_sum s (a_action A) (calls w)
                          (Z.to_nat z - length (sampled_nodes A))) /\
    ((Z.to_nat z < length (sampled_nodes A))%nat -> A1 = A /\ w1 = w).
Proof.
  intros Hz Ha H. unfold active_nodes in H.
  inv_bind H as self0 w0 H0. apply get_avg_ok in H0 as [Ha' ->].
  rewrite Ha in Ha'. injection Ha' as <-.
  cbn [num_val] in H. rewrite Rltb_IZR_INR in H.
  destruct (Z.ltb_spec z (Z.of_nat (length (sampled_nodes A)))) as [Hlt | Hge].
  - cbn [py_slice_to] in H. rewrite (proj2 (Z.leb_le 0 z) Hz) in H.
    apply ret_ok in H as [-> ->]. exists A.
    split; [assumption |]. split; [reflexivity |]. split; [lia |].
    split; [intros; lia | intros; split; reflexivity].
  - inv_bind H as u w2 H2.
    inv_bind H as self2 w3 H3. apply get_avg_ok in H3 as [Ha2 ->].
    apply ret_ok in H as [-> ->].
    destruct (sample_loop_int fuel a z w w2 A u H2 Ha ltac:(lia)) as (A' & Ha' & Hl & _).
    rewrite Ha2 in Ha'. injection Ha' as <-.
    exists self2. split; [assumption |].
    split; [rewrite take_ge by lia; reflexivity |]. split; [lia |].
    split; [| intros; lia].
    intros _ s Hs.
    destruct (sample_loop_rewards fuel a z w w2 A s u H2 Ha Hs ltac:(lia))
      as (A' & Ha' & _ & Hr).
    rewrite Ha2 in Ha'. injection Ha' as <-. assumption.
Qed.

(** C1, as the code has it: for an integer budget m >= 1 and
    epsilon < 1/(1-gamma) the value returned is
    r/n + gamma * sum_i (c_i/m) * value_i, where the c_i are the numbers of
    occurrences of the distinct children among the first m records of the
    cache (they add up to m), value_i is what child i returns for budget c_i
    and precision epsilon/gamma, and r and n are the reward sum and the
    number of records of the WHOLE cache after the sampling phase.  When
    the cache held at most m records at entry, n = m and r is the old reward
    sum plus the rewards of the new samples (for a node without samples: the
    sum of the rewards of exactly m samples); when it held more, nothing is
    sampled and r/n is the average over all n > m cached samples. *)
Theorem avg_value fuel a z epsilon (w w' : World) v (A : AvgNode) :
  wf w ->
  avgs w !! a = Some A ->
  (1 <= z)%Z ->
  epsilon < 1 / (1 - a_gamma A) ->
  run (S fuel) (CallAvg a (PyInt z) epsilon) w = Ok (v, w') ->
  exists (A1 : AvgNode) (w1 : World) uniques counts values,
    active_nodes fuel a (PyInt z) w
      = Ok (take (Z.to_nat z) (sampled_nodes A1), w1) /\
    avgs w1 !! a = Some A1 /\ avgs w' !! a = Some A1 /\
    grouped (take (Z.to_nat z) (sampled_nodes A1)) (uniques, counts) /\
    sum_list counts = Z.to_nat z /\
    child_runs (run fuel) uniques counts (epsilon / a_gamma A) w1 values w' /\
    v = a_r A1 / INR (length (sampled_nodes A1))
        + a_gamma A * weighted_sum counts values (IZR z) /\
    length (sampled_nodes A1) = Nat.max (Z.to_nat z) (length (sampled_nodes A)) /\
    ((length (sampled_nodes A) <= Z.to_nat z)%nat ->
       forall s, states w !! a_state A = Some s ->
       a_r A1 = a_r A + reward_sum s (a_action A) (calls w)
                          (Z.to_nat z - length (sampled_nodes A))) /\
    ((Z.to_nat z < length (sampled_nodes A))%nat -> a_r A1 = a_r A).
Proof.
  intros Hwf Ha Hz He H. rewrite run_avg_unfold in H. unfold AvgNode_run in H.
  inv_bind H as self0 w0 H0. apply get_avg_ok in H0 as [Ha0 ->].
  rewrite Ha in Ha0. injection Ha0 as <-.
  rewrite (Rleb_false _ _ He) in H.
  inv_bind H as active w1 H1.
  destruct (active_nodes_int_full fuel a z w w1 A active ltac:(lia) Ha H1)
    as (A1 & Ha1 & Hact & Hlen & Hr & Hsame).
  destruct (active_nodes_wf fuel a (PyInt z) w w1 active Hwf H1)
    as (Hwf1 & _ & A1' & Ha1' & Hsub).
  rewrite Ha1 in Ha1'. injection Ha1' as <-.
  pose proof (group_grouped active) as Hg.
  destruct (group active) as [uniques counts] eqn:Eg.
  inv_bind H as mu w2 H2.
  assert (Hu : forall u, u ∈ uniques ->
            exists Mx, maxs w1 !! u = Some Mx /\
                       forall act c, (act, c) ∈ m_children Mx -> (a < c)%nat).
  { intros u Hu. apply (Hwf1 a A1 Ha1). apply Hsub.
    destruct Hg as (_ & _ & Hmem & _). apply Hmem. exact Hu. }
  destruct (avg_children_frame (run fuel) (mono_run fuel) (run_frame fuel)
              a uniques counts (PyInt z) epsilon (a_gamma A) 0 w1 w2 mu Hwf1 Hu H2)
    as [_ Hfr].
  apply avg_children_spec in H2 as (values & Hruns & Hmu).
  unfold avg_result in H. inv_bind H as self' w3 H3.
  apply get_avg_ok in H3 as [Ha' ->].
  rewrite (Hfr a (Nat.le_refl a)) in Ha'. rewrite Ha1 in Ha'. injection Ha' as <-.
  assert (Hpos : (1 <= length (sampled_nodes A1))%nat) by lia.
  destruct (length (sampled_nodes A1)) as [| n] eqn:En; [lia |].
  apply ret_ok in H as [-> ->].
  assert (Hga : a_gamma A1 = a_gamma A).
  { pose proof (mono_active_nodes any_exn fuel a (PyInt z) I I w) as Hm.
    rewrite H1 in Hm. destruct Hm as (_ & _ & Hav & _).
    destruct (Hav a A Ha) as (A2 & Ha2 & Hle).
    rewrite Ha1 in Ha2. injection Ha2 as <-. apply Hle. }
  exists A1, w1, uniques, counts, values.
  split; [rewrite H1, Hact; reflexivity |].
  split; [assumption |].
  split; [rewrite (Hfr a (Nat.le_refl a)); assumption |].
  split; [rewrite <- Hact; exact Hg |].
  split.
  { destruct Hg as (_ & _ & _ & _ & Hsum). cbn [snd] in Hsum.
    rewrite Hsum, Hact, length_take, En. lia. }
  split; [assumption |].
  split; [rewrite Hmu, Hga, En; cbn [num_val]; lra |].
  split; [rewrite En; assumption |].
  split; [assumption |].
  intros Hlt. destruct (Hsame Hlt) as [-> _]. reflexivity.
Qed.

(** C5, as the code has it: after a call with an integer budget m has
    returned, a second call with the same m and epsilon either takes the
    early exit again (returning 0, store untouched), or finds at least m
    records in the cache of the node so that its sampling phase makes no
    generative-model call and leaves the store as it is; and whatever the
    second call returns, it leaves the cache and the reward sum of the node
    as the first call left them.  (Nothing is said about the value
    returned, which the recursion into the children decides.) *)
Theorem resample_draws_nothing fuel a z epsilon (w w' : World) v :
  wf w ->
  run (S fuel) (CallAvg a (PyInt z) epsilon) w = Ok (v, w') ->
  exists A' : AvgNode,
    avgs w' !! a = Some A' /\
    ((1 / (1 - a_gamma A') <= epsilon /\ v = 0 /\ w' = w /\
      forall fuel2, run (S fuel2) (CallAvg a (PyInt z) epsilon) w' = Ok (0, w'))
     \/
     (epsilon < 1 / (1 - a_gamma A') /\
      forall fuel2, exists active,
        active_nodes fuel2 a (PyInt z) w' = Ok (active, w'))) /\
    (forall fuel2 v2 (w2 : World),
        run (S fuel2) (CallAvg a (PyInt z) epsilon) w' = Ok (v2, w2) ->
        avgs w2 !! a = Some A').
Proof.
  intros Hwf H. pose proof H as Hrun.
  destruct (run_frame _ _ _ _ _ Hwf Hrun) as [Hwf' _].
  rewrite run_avg_unfold in H. unfold AvgNode_run in H.
  inv_bind H as self w0 H0. apply get_avg_ok in H0 as [Ha ->].
  destruct (Rleb _ _) eqn:Ee.
  - apply ret_ok in H as [-> ->]. exists self. split; [assumption |].
    apply Rleb_spec in Ee.
    assert (Hagain : forall fuel2,
              run (S fuel2) (CallAvg a (PyInt z) epsilon) w = Ok (0, w)).
    { intros fuel2. rewrite run_avg_unfold. unfold AvgNode_run, bind.
      rewrite (get_avg_some w a self Ha). rewrite (Rleb_true _ _ Ee). reflexivity. }
    split.
    + left. repeat split; try assumption.
    + intros fuel2 v2 w2 H2. rewrite Hagain in H2. injection H2 as _ <-. assumption.
  - inv_bind H as active w1 H1.
    apply active_nodes_cache in H1 as (self1 & Ha1 & E1).
    destruct (group active) as [uniques counts].
    inv_bind H as mu w2 H2.
    pose proof (mono_avg_children any_exn (run fuel) uniques counts (PyInt z) epsilon
                  (a_gamma self) 0 I (mono_run fuel) w1) as Hext.
    rewrite H2 in Hext.
    unfold avg_result in H. inv_bind H as self' w3 H3.
    apply get_avg_ok in H3 as [Ha' ->].
    assert (w' = w2) as ->.
    { destruct (length (sampled_nodes self')); [discriminate |].
      apply ret_ok in H as [_ ->]. reflexivity. }
    exists self'. split; [assumption |].
    assert (Hga : a_gamma self' = a_gamma self).
    { apply run_ext in Hrun. destruct Hrun as (_ & _ & Hav & _).
      destruct (Hav a self Ha) as (self2 & Ha2 & Hle).
      rewrite Ha' in Ha2. injection Ha2 as <-. apply Hle. }
    assert (Hnoop : forall fuel2, exists active',
               active_nodes fuel2 a (PyInt z) w2 = Ok (active', w2)).
    { intros fuel2. apply (active_nodes_noop fuel2 a z w2 self' Ha').
      pose proof (ext_cache_length w1 w2 a self1 self' Hext Ha1 Ha') as Hlen.
      cbn [num_val] in E1. rewrite Rltb_INR_IZR in *.
      apply Z.ltb_ge in E1. apply Z.ltb_ge. lia. }
    split.
    + right. split; [| exact Hnoop].
      rewrite Hga. destruct (Rle_dec (1 / (1 - a_gamma self)) epsilon) as [Hle | Hnle].
      * rewrite (Rleb_true _ _ Hle) in Ee. discriminate.
      * lra.
    + intros fuel2 v2 w4 Hrun2.
      rewrite run_avg_unfold in Hrun2. unfold AvgNode_run in Hrun2.
      inv_bind Hrun2 as self2 w5 H5. apply get_avg_ok in H5 as [Ha2 ->].
      rewrite Ha' in Ha2. injection Ha2 as <-.
      rewrite Hga, Ee in Hrun2.
      inv_bind Hrun2 as active2 w6 H6.
      destruct (Hnoop fuel2) as (active' & Hact'). rewrite Hact' in H6.
      injection H6 as <- <-.
      destruct (active_nodes_wf fuel2 a (PyInt z) w2 w2 active' Hwf' Hact')
        as (_ & _ & A2 & Ha2 & Hsub).
      rewrite Ha' in Ha2. injection Ha2 as <-.
      pose proof (group_grouped active') as Hg.
      destruct (group active') as [uniques2 counts2].
      inv_bind Hrun2 as mu2 w7 H7.
      assert (Hu : forall u, u ∈ uniques2 ->
                exists Mx, maxs w2 !! u = Some Mx /\
                           forall act c, (act, c) ∈ m_children Mx -> (a < c)%nat).
      { intros u Hu. apply (Hwf' a self' Ha'). apply Hsub.
        destruct Hg as (_ & _ & Hmem & _). apply Hmem. exact Hu. }
      destruct (avg_children_frame (run fuel2) (mono_run fuel2) (run_frame fuel2)
                  a uniques2 counts2 (PyInt z) epsilon (a_gamma self) 0 w2 w7 mu2
                  Hwf' Hu H7) as [_ Hfr].
      unfold avg_result in Hrun2. inv_bind Hrun2 as self3 w8 H8.
      apply get_avg_ok in H8 as [Ha3 ->].
      assert (w4 = w7) as ->.
      { destruct (length (sampled_nodes self3)); [discriminate |].
        apply ret_ok in Hrun2 as [_ ->]. reflexivity. }
      rewrite (Hfr a (Nat.le_refl a)). assumption.
Qed.

End Frame.

(** ** The planner *)

Section TrailBlazerProperties.

Context {State Action : Type} `{GM : GenerativeModel State Action}.

Local Abbreviation World := (World State Action).

Lemma pow2_pos (x : R) : x <> 0 -> 0 < x ^ 2.
Proof.
  intros Hx. cbn [pow]. rewrite Rmult_1_r.
  destruct (Rtotal_order x 0) as [Hlt | [Heq | Hgt]]; [nra | contradiction | nra].
Qed.

Lemma derive_m_pos gamma delta epsilon :
  0 < gamma < 1 -> 0 < delta < 1 -> 0 < epsilon ->
  0 < derive_m gamma delta epsilon 0.
Proof.
  intros [Hg0 Hg1] [Hd0 Hd1] He. unfold derive_m. rewrite Rplus_0_r.
  apply Rdiv_lt_0_compat.
  - rewrite <- ln_1. apply ln_increasing; [lra |].
    unfold Rdiv. rewrite Rmult_1_l. rewrite <- Rinv_1 at 1.
    apply Rinv_lt_contravar; lra.
  - apply Rmult_lt_0_compat; apply pow2_pos; lra.
Qed.

Lemma init_children_total state gamma delta alpha eta K actions d (w : World) :
  exists d' w', init_children state gamma delta alpha eta K actions d w = Ok (d', w').
Proof.
  revert d w. induction actions as [| action rest IH]; intros d w; cbn [init_children].
  - eexists _, _. reflexivity.
  - unfold bind at 1. unfold AvgNode_init, new_avg. apply IH.
Qed.

Lemma MaxNode_init_total state gamma delta alpha eta (w : World) (s : State) :
  states w !! state = Some s ->
  exists x w', MaxNode_init state gamma delta alpha eta w = Ok (x, w').
Proof.
  intros Hs. unfold MaxNode_init, bind at 1, get_state. rewrite Hs. cbn [of_option ret].
  destruct (init_children_total state gamma delta alpha eta (length (get_actions s))
              (get_actions s) [] w) as (d' & w' & Hd).
  unfold bind. rewrite Hd. unfold new_max. eexists _, _. reflexivity.
Qed.

(** Construction succeeds whenever no division by zero and no [nan]
    arises, whatever the ranges of the parameters. *)
Lemma TrailBlazer_init_ok state gamma delta epsilon (w : World) (s : State) :
  states w !! state = Some s ->
  0 <= gamma -> gamma <> 1 -> 0 < delta -> epsilon <> 0 ->
  exists tb w',
    TrailBlazer_init state gamma delta epsilon w = Ok (tb, w') /\
    tb_alpha tb = 0 /\
    tb_eta tb = derive_eta gamma epsilon /\
    tb_m tb = derive_m gamma delta epsilon 0 /\
    tb_epsilon tb = epsilon.
Proof.
  intros Hs Hg Hg1 Hd He. unfold TrailBlazer_init.
  rewrite (Reqb_false epsilon 0 He).
  unfold bind at 1, get_state. rewrite Hs. cbn [of_option ret].
  rewrite (Reqb_false delta 0) by lra. rewrite (Rltb_false gamma 0) by lra.
  assert (Hinv : 0 < 1 / delta).
  { unfold Rdiv. rewrite Rmult_1_l. apply Rinv_0_lt_compat. assumption. }
  rewrite (Rleb_false (1 / delta) 0) by lra.
  assert (Hden : 0 < (1 - gamma) ^ 2 * epsilon ^ 2).
  { apply Rmult_lt_0_compat; apply pow2_pos; lra. }
  rewrite (Rleb_false _ 0 Hden).
  destruct (MaxNode_init_total state gamma delta 0 (derive_eta gamma epsilon) w s Hs)
    as (x & w' & Hx).
  unfold bind. rewrite Hx. eexists _, w'. split; [reflexivity |].
  cbn. repeat split; reflexivity.
Qed.

Lemma TrailBlazer_init_calls state gamma delta epsilon (w w' : World) tb :
  TrailBlazer_init state gamma delta epsilon w = Ok (tb, w') -> calls w' = calls w.
Proof.
  unfold TrailBlazer_init. intros H.
  destruct (Reqb epsilon 0); [discriminate |].
  apply bind_ok in H as (s & w1 & Hs & H). apply get_state_ok in Hs as [_ ->].
  destruct (Reqb delta 0); [discriminate |].
  destruct (Rltb gamma 0); [discriminate |].
  destruct (Rleb (1 / delta) 0); [discriminate |].
  destruct (Rleb _ 0); [discriminate |].
  apply bind_ok in H as (x & w2 & Hx & H).
  apply MaxNode_init_alloc in Hx as (_ & Hc & _).
  apply ret_ok in H as [_ ->]. assumption.
Qed.

(** Construction consults [get_actions] and the comparison of actions
    only: a model with another [step] gives the same outcome. *)
Lemma dict_set_model (GM' : GenerativeModel State Action) :
  @action_eq State Action GM' = @action_eq State Action GM ->
  forall d k v, @dict_set State Action GM' d k v = @dict_set State Action GM d k v.
Proof.
  intros Heq. induction d as [| [k0 v0] d IH]; intros k v; cbn [dict_set].
  - reflexivity.
  - rewrite Heq, IH. reflexivity.
Qed.

Lemma init_children_model (GM' : GenerativeModel State Action) :
  @action_eq State Action GM' = @action_eq State Action GM ->
  forall state gamma delta alpha eta K actions d (w : World),
    @init_children State Action GM' state gamma delta alpha eta K actions d w
    = @init_children State Action GM state gamma delta alpha eta K actions d w.
Proof.
  intros Heq state gamma delta alpha eta K actions.
  induction actions as [| action rest IH]; intros d w; cbn [init_children].
  - reflexivity.
  - unfold bind, AvgNode_init, new_avg. rewrite (dict_set_model GM' Heq). apply IH.
Qed.

Lemma TrailBlazer_init_model (GM' : GenerativeModel State Action) :
  @get_actions State Action GM' = @get_actions State Action GM ->
  @action_eq State Action GM' = @action_eq State Action GM ->
  forall state gamma delta epsilon (w : World),
    @TrailBlazer_init State Action GM' state gamma delta epsilon w
    = @TrailBlazer_init State Action GM state gamma delta epsilon w.
Proof.
  intros Hact Heq state gamma delta epsilon w. unfold TrailBlazer_init.
  destruct (Reqb epsilon 0); [reflexivity |].
  unfold bind at 1 3. destruct (get_state state w) as [[s w1] | | |]; try reflexivity.
  destruct (Reqb delta 0); [reflexivity |].
  destruct (Rltb gamma 0); [reflexivity |].
  destruct (Rleb (1 / delta) 0); [reflexivity |].
  destruct (Rleb _ 0); [reflexivity |].
  unfold MaxNode_init, bind. rewrite Hact.
  destruct (get_state state w1) as [[s1 w2] | | |]; try reflexivity.
  rewrite (init_children_model GM' Heq). reflexivity.
Qed.

(** C3, as the code has it: the constructor checks no range.  For
    epsilon = 0 and for delta = 0, whatever the other parameters, it fails
    with a division by zero; delta = 2, outside (0,1), is accepted (with
    gamma = 1/2 and epsilon = 1); and no construction samples the
    generative model: one that succeeds leaves the number of calls as it
    was, and the outcome, a failure included, is the same whatever [step]
    would return. *)
Theorem init_validation :
  (forall state gamma delta (w : World),
      TrailBlazer_init state gamma delta 0 w = Raise ZeroDivisionError) /\
  (forall state gamma epsilon (w : World) (s : State),
      states w !! state = Some s ->
      TrailBlazer_init state gamma 0 epsilon w = Raise ZeroDivisionError) /\
  (forall state (w : World) (s : State),
      states w !! state = Some s ->
      exists tb w', TrailBlazer_init state (1 / 2) 2 1 w = Ok (tb, w')) /\
  (forall state gamma delta epsilon (w w' : World) tb,
      TrailBlazer_init state gamma delta epsilon w = Ok (tb, w') ->
      calls w' = calls w) /\
  (forall (GM' : GenerativeModel State Action),
      @get_actions State Action GM' = @get_actions State Action GM ->
      @action_eq State Action GM' = @action_eq State Action GM ->
      forall state gamma delta epsilon (w : World),
        @TrailBlazer_init State Action GM' state gamma delta epsilon w
        = @TrailBlazer_init State Action GM state gamma delta epsilon w).
Proof.
  split; [| split; [| split; [| split; [| exact TrailBlazer_init_model]]]].
  - intros state gamma delta w. unfold TrailBlazer_init.
    rewrite (Reqb_true 0). reflexivity.
  - intros state gamma epsilon w s Hs. unfold TrailBlazer_init.
    destruct (Reqb epsilon 0); [reflexivity |].
    unfold bind, get_state. rewrite Hs. cbn [of_option ret].
    rewrite (Reqb_true 0). reflexivity.
  - intros state w s Hs.
    destruct (TrailBlazer_init_ok state (1 / 2) 2 1 w s Hs) as (tb & w' & H & _);
      try lra.
    exists tb, w'. assumption.
  - apply TrailBlazer_init_calls.
Qed.

(** What lines 111 and 123 do: for valid gamma, delta and epsilon the
    planner computes m = ln(1/delta) / ((1-gamma)^2 epsilon^2) (alpha is 0),
    which is positive, and passes it as it is, a float, as the budget of the
    top-level call. *)
Lemma planner_budget state gamma delta epsilon (w : World) (s : State) :
  states w !! state = Some s ->
  0 < gamma < 1 -> 0 < delta < 1 -> 0 < epsilon ->
  exists tb w',
    TrailBlazer_init state gamma delta epsilon w = Ok (tb, w') /\
    tb_m tb = ln (1 / delta) / ((1 - gamma) ^ 2 * epsilon ^ 2) /\
    0 < tb_m tb /\
    TrailBlazer_call tb = CallMax (tb_root tb) (PyFloat (tb_m tb)) (epsilon / 2).
Proof.
  intros Hs [Hg0 Hg1] [Hd0 Hd1] He.
  destruct (TrailBlazer_init_ok state gamma delta epsilon w s Hs) as
    (tb & w' & H & Ha & _ & Hm & Heps); try lra.
  exists tb, w'. split; [assumption |].
  assert (Hm' : tb_m tb = ln (1 / delta) / ((1 - gamma) ^ 2 * epsilon ^ 2)).
  { rewrite Hm. unfold derive_m. rewrite Rplus_0_r. reflexivity. }
  split; [assumption |]. split.
  - rewrite Hm. apply derive_m_pos; [split | split |]; assumption.
  - unfold TrailBlazer_call. rewrite Heps. reflexivity.
Qed.

(** With a float budget the path that reuses a larger cache cannot run:
    line 65 slices the list with it. *)
Lemma float_budget_slice_raises fuel a x epsilon (w : World) (self : AvgNode Action) :
  avgs w !! a = Some self ->
  epsilon < 1 / (1 - a_gamma self) ->
  x < INR (length (sampled_nodes self)) ->
  run (S fuel) (CallAvg a (PyFloat x) epsilon) w = Raise TypeError.
Proof.
  intros Ha He Hx. rewrite run_avg_unfold. unfold AvgNode_run, bind at 1.
  rewrite (get_avg_some w a self Ha). rewrite (Rleb_false _ _ He).
  unfold bind at 1. unfold active_nodes, bind at 1.
  rewrite (get_avg_some w a self Ha). cbn [num_val].
  rewrite (Rltb_true _ _ Hx). reflexivity.
Qed.

(** Construction keeps the tree shape of the store. *)
Lemma MaxNode_init_wf state gamma delta alpha eta (w w' : World) x :
  wf w -> MaxNode_init state gamma delta alpha eta w = Ok (x, w') -> wf w'.
Proof.
  intros Hwf H.
  apply MaxNode_init_spec in H as (_ & _ & _ & Mx & l & Hm & Ha & Hl & _).
  intros b B Hb y Hy. rewrite Ha in Hb.
  destruct (decide (b < length (avgs w))%nat) as [Hlt | Hge].
  - rewrite lookup_app_l in Hb by assumption.
    destruct (Hwf b B Hb y Hy) as (My & HMy & Hc).
    exists My. split; [| assumption]. rewrite Hm. apply lookup_app_l_Some. assumption.
  - rewrite lookup_app_r in Hb by lia. apply list_elem_of_lookup_2 in Hb.
    rewrite Forall_forall in Hl. rewrite (Hl B Hb) in Hy.
    apply elem_of_nil in Hy. destruct Hy.
Qed.

Lemma TrailBlazer_init_wf state gamma delta epsilon (w w' : World) tb :
  wf w -> TrailBlazer_init state gamma delta epsilon w = Ok (tb, w') -> wf w'.
Proof.
  unfold TrailBlazer_init. intros Hwf H.
  destruct (Reqb epsilon 0); [discriminate |].
  apply bind_ok in H as (s & w1 & Hs & H). apply get_state_ok in Hs as [_ ->].
  destruct (Reqb delta 0); [discriminate |].
  destruct (Rltb gamma 0); [discriminate |].
  destruct (Rleb (1 / delta) 0); [discriminate |].
  destruct (Rleb _ 0); [discriminate |].
  apply bind_ok in H as (x & w2 & Hx & H).
  apply ret_ok in H as [_ ->]. eapply MaxNode_init_wf; eassumption.
Qed.

(** X20.  The top-level call of the planner never divides by zero: its
    budget is positive, though it can be below 1. *)
Lemma TrailBlazer_run_not_zde state gamma delta epsilon (w : World) (s : State) :
  states w !! state = Some s ->
  0 < gamma < 1 -> 0 < delta < 1 -> 0 < epsilon ->
  exists tb w',
    TrailBlazer_init state gamma delta epsilon w = Ok (tb, w') /\
    forall fuel, TrailBlazer_run fuel tb w' <> Raise ZeroDivisionError.
Proof.
  intros Hs Hg Hd He.
  destruct (TrailBlazer_init_ok state gamma delta epsilon w s Hs) as
    (tb & w' & H & _ & _ & Hm & _); try lra.
  exists tb, w'. split; [assumption |].
  intros fuel. unfold TrailBlazer_run. apply run_not_zde.
  unfold TrailBlazer_call. cbn [budget num_val]. rewrite Hm.
  apply derive_m_pos; assumption.
Qed.

(** The two main statements of C10, which hold on the code: on a node
    without samples, budget 0 and epsilon < 1/(1-gamma) make line 99 divide
    by zero; with a budget of at least 1 -- as are the round counts MaxNode
    passes and the occurrence counts AvgNode passes to its children -- no
    call of the recursion, at any depth, divides by zero. *)
Theorem division_by_sample_count :
  (forall fuel a epsilon (w : World) (self : AvgNode Action),
      avgs w !! a = Some self ->
      sampled_nodes self = [] ->
      epsilon < 1 / (1 - a_gamma self) ->
      run (S fuel) (CallAvg a (PyInt 0) epsilon) w = Raise ZeroDivisionError) /\
  (forall fuel c (w : World),
      1 <= num_val (budget c) ->
      run fuel c w <> Raise ZeroDivisionError).
Proof.
  split.
  - intros fuel a epsilon w self Ha Hs He.
    rewrite run_avg_unfold. unfold AvgNode_run, bind at 1.
    rewrite (get_avg_some w a self Ha). rewrite (Rleb_false _ _ He).
    assert (Hact : active_nodes fuel a (PyInt 0) w = Ok ([], w)).
    { unfold active_nodes, bind at 1. rewrite (get_avg_some w a self Ha).
      rewrite Hs. cbn [length num_val INR]. rewrite (Rltb_false 0 0) by lra.
      unfold bind. rewrite (sample_loop_noop fuel a (PyInt 0) w self Ha).
      - rewrite (get_avg_some w a self Ha). rewrite Hs. reflexivity.
      - rewrite Hs. cbn. apply Rltb_false. lra. }
    unfold bind at 1. rewrite Hact. cbn [group fold_left avg_children].
    unfold bind, ret, avg_result, bind. rewrite (get_avg_some w a self Ha).
    rewrite Hs. reflexivity.
  - intros fuel c w Hm. apply run_not_zde. lra.
Qed.

End TrailBlazerProperties.

(** ** Runs of the two small models *)

Ltac decide_R :=
  match goal with
  | |- context [Rleb ?a ?b] =>
      first [ rewrite (Rleb_true a b) by lra | rewrite (Rleb_false a b) by lra ]
  | |- context [Rltb ?a ?b] =>
      first [ rewrite (Rltb_true a b) by lra | rewrite (Rltb_false a b) by lra ]
  | |- context [ln ?x] =>
      replace (ln x) with 0 by (replace x with 1 by lra; symmetry; apply ln_1)
  | |- context [sqrt ?x] =>
      replace (sqrt x) with (1 / 4)
        by (replace x with ((1 / 4) * (1 / 4)) by lra; rewrite sqrt_square; lra)
  end.

(** Symbolic execution of a call on a concrete store. *)
Ltac run_model :=
  repeat (rewrite ?run_avg_unfold, ?run_max_unfold;
    unfold AvgNode_run, MaxNode_run, bind, ret, raise, nonreal, get_avg, get_max,
      get_state, of_option, set_avg, new_state, new_max, new_avg, deepcopy,
      state_step, AvgNode_init, MaxNode_init, append_sampled, add_reward,
      sample_once, py_slice_to, active_nodes, group, avg_result, count_one,
      py_max, elim_round, max_result, loop_test, retained;
    cbn [init_children find_node sample_loop index_of avg_children
         py_max_from estimate_all elim_loop candidates count lU lmu dict_set
         states maxs avgs calls a_state a_action a_gamma a_delta a_alpha a_eta a_K
         sampled_nodes a_r m_state m_gamma m_delta m_alpha m_eta m_K m_children
         num_val fst snd length app map fold_left List.filter
         lookup list_lookup insert list_insert alter list_alter take
         get_actions step state_eq action_eq
         chain chain_reward chain_node chain_world chain_world_2
         fork fork_reward fork_node fork_world fork_world_2 fork_max
         Nat.eqb Nat.ltb Nat.leb Z.leb Z.of_nat Z.to_nat Pos.of_succ_nat Pos.succ
         Pos.to_nat Pos.iter_op Nat.add Z.compare Pos.compare Pos.compare_cont
         andb INR Nat.sub Z.opp];
    repeat match goal with
           | |- context [Z.to_nat ?z] =>
               let n := eval vm_compute in (Z.to_nat z) in
               change (Z.to_nat z) with n
           | |- context [Z.of_nat ?k] =>
               let z := eval vm_compute in (Z.of_nat k) in
               change (Z.of_nat k) with z
           end;
    try decide_R).

(** Closes [Ok (v, w) = Ok (v', w')] up to arithmetic in the real fields. *)
Ltac same_outcome := repeat f_equal; lra.

Lemma chain_first_call :
  @run nat nat chain 4 (CallAvg 0%nat (PyInt 2) 1) chain_world = Ok (1, chain_world_2).
Proof. run_model. unfold chain_world_2. same_outcome. Qed.

Lemma chain_second_call :
  @run nat nat chain 4 (CallAvg 0%nat (PyInt 1) 1) chain_world_2 = Ok (1, chain_world_2).
Proof. run_model. unfold chain_world_2. same_outcome. Qed.

Lemma chain_child_call :
  @run nat nat chain 3 (CallMax 0%nat (PyInt 1) (1 / (1 / 4))) chain_world_2
  = Ok (0, chain_world_2).
Proof. run_model. reflexivity. Qed.

Lemma fork_first_call :
  @run nat nat fork 8 (CallAvg 0%nat (PyInt 2) (1 / 2)) fork_world
  = Ok (- 1 / 4, fork_world_2).
Proof. run_model. unfold fork_world_2. same_outcome. Qed.

Lemma fork_second_call :
  @run nat nat fork 8 (CallAvg 0%nat (PyInt 2) (1 / 2)) fork_world_2
  = Ok (0, fork_world_2).
Proof. run_model. unfold fork_world_2. same_outcome. Qed.

Lemma fork_loop_again :
  @elim_loop nat nat 7 (@run nat nat fork 7) fork_max 2
    (mkLoop (map snd (m_children fork_max)) 1 None []) fork_world_2
  = Ok (fork_loop_2, fork_world_2).
Proof. run_model. unfold fork_loop_2, fork_world_2. same_outcome. Qed.

Lemma ln_2_lt_1 : ln 2 < 1.
Proof.
  rewrite <- (ln_exp 1). apply ln_increasing; [lra |].
  pose proof (exp_ineq1 1 ltac:(lra)). lra.
Qed.

(** ** The claims on the two small models *)

Lemma early_exit_witness :
  avgs chain_world !! 0%nat = Some chain_node /\
  0 < a_gamma chain_node < 1 /\
  1 / (1 - a_gamma chain_node) <= 2 /\
  @run nat nat chain 1 (CallAvg 0%nat (PyInt 5) 2) chain_world = Ok (0, chain_world).
Proof.
  assert (H1 : avgs chain_world !! 0%nat = Some chain_node) by reflexivity.
  assert (H2 : 0 < a_gamma chain_node < 1) by (cbn [a_gamma chain_node]; lra).
  assert (H3 : 1 / (1 - a_gamma chain_node) <= 2) by (cbn [a_gamma chain_node]; lra).
  repeat split; try assumption; try apply H2.
  exact (early_exit (GM:=chain) 0 0%nat (PyInt 5) 2 chain_world chain_node H1 H2 H3).
Defined.

Lemma owning_state_unchanged_witness :
  (exists self', avgs chain_world_2 !! 0%nat = Some self' /\
                 a_state self' = a_state chain_node) /\
  states chain_world_2 !! a_state chain_node = Some 0%nat /\
  (forall i si, states chain_world !! i = Some si ->
                states chain_world_2 !! i = Some si).
Proof.
  exact (owning_state_unchanged (GM:=chain) 4 0%nat (PyInt 2) 1 chain_world
           chain_world_2 1 chain_node 0%nat eq_refl eq_refl chain_first_call).
Defined.

Lemma chain_world_wf : wf chain_world.
Proof.
  intros a A Ha x Hx. destruct a as [| a]; cbn in Ha; [| discriminate].
  injection Ha as <-. cbn in Hx. apply elem_of_nil in Hx. destruct Hx.
Qed.

Lemma avg_value_witness :
  exists (A1 : AvgNode nat) (w1 : World nat nat) uniques counts values,
    @active_nodes nat nat chain 3 0%nat (PyInt 2) chain_world
      = Ok (take (Z.to_nat 2) (sampled_nodes A1), w1) /\
    avgs w1 !! 0%nat = Some A1 /\ avgs chain_world_2 !! 0%nat = Some A1 /\
    grouped (take (Z.to_nat 2) (sampled_nodes A1)) (uniques, counts) /\
    sum_list counts = Z.to_nat 2 /\
    child_runs (@run nat nat chain 3) uniques counts (1 / a_gamma chain_node) w1
      values chain_world_2 /\
    1 = a_r A1 / INR (length (sampled_nodes A1))
        + a_gamma chain_node * weighted_sum counts values (IZR 2) /\
    length (sampled_nodes A1)
      = Nat.max (Z.to_nat 2) (length (sampled_nodes chain_node)) /\
    ((length (sampled_nodes chain_node) <= Z.to_nat 2)%nat ->
       forall s, states chain_world !! a_state chain_node = Some s ->
       a_r A1 = a_r chain_node
                + @reward_sum nat nat chain s (a_action chain_node) (calls chain_world)
                    (Z.to_nat 2 - length (sampled_nodes chain_node))) /\
    ((Z.to_nat 2 < length (sampled_nodes chain_node))%nat -> a_r A1 = a_r chain_node).
Proof.
  apply (avg_value (GM:=chain) 3 0%nat 2 1 chain_world chain_world_2 1 chain_node).
  - exact chain_world_wf.
  - reflexivity.
  - lia.
  - cbn [a_gamma chain_node]. lra.
  - exact chain_first_call.
Defined.

(** C1, as stated, fails: the node of the chain has drawn two samples, of
    rewards 0 and 2.  Called with budget 1 it returns (0 + 2)/2 + gamma * 0 = 1,
    while the average over the first sample alone, whose reward is 0, plus
    gamma times the value 0 of the child, is 0. *)
Lemma avg_value_not_first_m :
  @run nat nat chain 4 (CallAvg 0%nat (PyInt 2) 1) chain_world = Ok (1, chain_world_2) /\
  @run nat nat chain 4 (CallAvg 0%nat (PyInt 1) 1) chain_world_2 = Ok (1, chain_world_2) /\
  fst (@step nat nat chain 0%nat 0%nat 0%nat) = 0 /\
  @run nat nat chain 3 (CallMax 0%nat (PyInt 1) (1 / (1 / 4))) chain_world_2
    = Ok (0, chain_world_2) /\
  1 <> fst (@step nat nat chain 0%nat 0%nat 0%nat) / 1 + 1 / 4 * (1 / 1 * 0).
Proof.
  split; [exact chain_first_call |].
  split; [exact chain_second_call |].
  split; [reflexivity |].
  split; [exact chain_child_call |].
  cbn [step chain chain_reward fst]. lra.
Qed.

Lemma resample_draws_nothing_witness :
  exists A' : AvgNode nat,
    avgs chain_world_2 !! 0%nat = Some A' /\
    ((1 / (1 - a_gamma A') <= 1 /\ 1 = 0 /\ chain_world_2 = chain_world /\
      forall fuel2, @run nat nat chain (S fuel2) (CallAvg 0%nat (PyInt 2) 1) chain_world_2
                    = Ok (0, chain_world_2))
     \/
     (1 < 1 / (1 - a_gamma A') /\
      forall fuel2, exists active,
        @active_nodes nat nat chain fuel2 0%nat (PyInt 2) chain_world_2
        = Ok (active, chain_world_2))) /\
    (forall fuel2 v2 (w2 : World nat nat),
        @run nat nat chain (S fuel2) (CallAvg 0%nat (PyInt 2) 1) chain_world_2
          = Ok (v2, w2) ->
        avgs w2 !! 0%nat = Some A').
Proof.
  exact (resample_draws_nothing (GM:=chain) 3 0%nat 2 1 chain_world chain_world_2 1
           chain_world_wf chain_first_call).
Defined.

(** C5, as stated, fails: on the model with a choice the first call returns
    -1/4 and a second call with the same budget and epsilon returns 0.  The
    second elimination round of the child sees, for action 1, the reward sum
    of both cached samples where the first call saw one sample. *)
Lemma resample_changes_value :
  @run nat nat fork 8 (CallAvg 0%nat (PyInt 2) (1 / 2)) fork_world
    = Ok (- 1 / 4, fork_world_2) /\
  @run nat nat fork 8 (CallAvg 0%nat (PyInt 2) (1 / 2)) fork_world_2
    = Ok (0, fork_world_2) /\
  - 1 / 4 <> 0.
Proof.
  split; [exact fork_first_call |]. split; [exact fork_second_call |]. lra.
Qed.

Lemma division_by_sample_count_witness :
  @run nat nat chain 1 (CallAvg 0%nat (PyInt 0) 1) chain_world = Raise ZeroDivisionError /\
  @run nat nat chain 4 (CallAvg 0%nat (PyInt 2) 1) chain_world <> Raise ZeroDivisionError.
Proof.
  destruct (division_by_sample_count (GM:=chain)) as (H1 & H2).
  split.
  - apply (H1 0%nat 0%nat 1 chain_world chain_node).
    + reflexivity.
    + reflexivity.
    + cbn [a_gamma chain_node]. lra.
  - apply (H2 4%nat (CallAvg 0%nat (PyInt 2) 1) chain_world).
    cbn [budget num_val]. lra.
Defined.

(** C10: the code at gamma = 1/2, delta = 1/2 and epsilon = 2.  The budget
    of the call the planner issues is ln 2, which is below 1: line 123
    passes the value of line 111 as it is, so the precondition m >= 1 that
    the claim states for every call of the planner does not hold there. *)
Lemma planner_budget_below_one :
  0 < 1 / 2 < 1 /\ 0 < 2 /\
  exists tb w',
    @TrailBlazer_init nat nat chain 0%nat (1 / 2) (1 / 2) 2 chain_world = Ok (tb, w') /\
    ~ 1 <= num_val (budget (TrailBlazer_call tb)).
Proof.
  split; [lra |]. split; [lra |].
  destruct (TrailBlazer_init_ok (GM:=chain) 0%nat (1 / 2) (1 / 2) 2 chain_world 0%nat)
    as (tb & w' & H & _ & _ & Hm & _); [reflexivity | lra | lra | lra | lra |].
  exists tb, w'. split; [assumption |].
  unfold TrailBlazer_call. cbn [budget num_val]. rewrite Hm. unfold derive_m.
  replace (1 / (1 / 2)) with 2 by lra.
  replace ((1 - 1 / 2) ^ 2 * 2 ^ 2) with 1 by (cbn [pow]; lra).
  pose proof ln_2_lt_1. lra.
Qed.

Lemma max_value_witness :
  (exists v stp wp,
      @run nat nat fork 8 (CallMax 0%nat (PyInt 2) 2) fork_world_2 = Ok (v, fork_world_2) /\
      @elim_round nat nat (@run nat nat fork 7) fork_max 2 stp wp
        = Ok (fork_loop_2, fork_world_2) /\
      is_max_of v (map snd (lmu fork_loop_2))) /\
  (forall c, candidates fork_loop_2 = [c] ->
     @run nat nat fork 8 (CallMax 0%nat (PyInt 2) 2) fork_world_2
     = @run nat nat fork 7 (CallAvg c (PyInt 2) (m_eta fork_max * 2)) fork_world_2).
Proof.
  destruct (max_value (GM:=fork) 7 0%nat (PyInt 2) 2 fork_world_2 fork_world_2
              fork_max fork_loop_2 eq_refl fork_loop_again) as (H1 & H2 & _).
  split; [| exact H1].
  apply H2. cbn [candidates fork_loop_2 length]. lia.
Defined.

Lemma candidates_never_empty_witness :
  m_gamma fork_max < 1 /\ m_eta fork_max < 1 /\
  exists c rest, candidates fork_loop_2 = c :: rest.
Proof.
  assert (Hg : m_gamma fork_max < 1) by (cbn [m_gamma fork_max]; lra).
  assert (He : m_eta fork_max < 1) by (cbn [m_eta fork_max]; lra).
  split; [exact Hg |]. split; [exact He |].
  refine (proj2 (candidates_never_empty (State:=nat) (Action:=nat)
                   (@run nat nat fork 7) fork_max 2 Hg He)
            7%nat (mkLoop (map snd (m_children fork_max)) 1 None [])
            fork_world_2 fork_world_2 fork_loop_2 _ fork_loop_again).
  cbn. discriminate.
Defined.

Lemma init_validation_witness :
  @TrailBlazer_init nat nat chain 0%nat (1 / 2) (1 / 2) 0 chain_world
    = Raise ZeroDivisionError /\
  @TrailBlazer_init nat nat chain 0%nat (- 1) 0 1 chain_world
    = Raise ZeroDivisionError /\
  (exists tb w', @TrailBlazer_init nat nat chain 0%nat (1 / 2) 2 1 chain_world = Ok (tb, w')) /\
  @TrailBlazer_init nat nat steady 0%nat (- 1) 0 1 chain_world
    = @TrailBlazer_init nat nat chain 0%nat (- 1) 0 1 chain_world.
Proof.
  destruct (init_validation (GM:=chain)) as (H1 & H2 & H3 & _ & H5).
  split; [apply H1 |]. split; [| split].
  - apply (H2 0%nat (- 1) 1 chain_world 0%nat). reflexivity.
  - apply (H3 0%nat chain_world 0%nat). reflexivity.
  - apply (H5 steady); reflexivity.
Defined.

(** C3, as stated, fails: with delta = 2, outside (0,1), construction
    succeeds. *)
Lemma init_accepts_bad_delta :
  ~ 0 < 2 < 1 /\
  exists tb w', @TrailBlazer_init nat nat chain 0%nat (1 / 2) 2 1 chain_world = Ok (tb, w').
Proof.
  split; [lra |].
  destruct (TrailBlazer_init_ok (GM:=chain) 0%nat (1 / 2) 2 1 chain_world 0%nat)
    as (tb & w' & H & _); [reflexivity | lra | lra | lra | lra |].
  exists tb, w'. assumption.
Qed.

Lemma planner_budget_witness :
  exists tb w',
    @TrailBlazer_init nat nat chain 0%nat (1 / 2) (1 / 2) 1 chain_world = Ok (tb, w') /\
    tb_m tb = ln (1 / (1 / 2)) / ((1 - 1 / 2) ^ 2 * 1 ^ 2) /\
    0 < tb_m tb /\
    TrailBlazer_call tb = CallMax (tb_root tb) (PyFloat (tb_m tb)) (1 / 2).
Proof.
  apply (planner_budget (GM:=chain) 0%nat (1 / 2) (1 / 2) 1 chain_world 0%nat);
    [reflexivity | lra | lra | lra].
Defined.

(** C4: for gamma = 1/2, delta = 1/2 and epsilon = 2 the budget of the
    top-level call is the float ln 2, strictly between 0 and 1: it is not an
    integer, and nothing has rounded it up to 1. *)
Lemma planner_budget_not_integer :
  exists tb w',
    @TrailBlazer_init nat nat chain 0%nat (1 / 2) (1 / 2) 2 chain_world = Ok (tb, w') /\
    budget (TrailBlazer_call tb) = PyFloat (ln 2) /\
    0 < ln 2 < 1 /\
    (forall z, budget (TrailBlazer_call tb) <> PyInt z) /\
    (forall z, num_val (budget (TrailBlazer_call tb)) <> IZR z).
Proof.
  destruct (TrailBlazer_init_ok (GM:=chain) 0%nat (1 / 2) (1 / 2) 2 chain_world 0%nat)
    as (tb & w' & H & _ & _ & Hm & _); [reflexivity | lra | lra | lra | lra |].
  assert (Hln : 0 < ln 2 < 1).
  { split; [pose proof ln_lt_2; lra | exact ln_2_lt_1]. }
  assert (Hb : budget (TrailBlazer_call tb) = PyFloat (ln 2)).
  { unfold TrailBlazer_call. cbn [budget]. rewrite Hm. unfold derive_m.
    f_equal. replace (1 / (1 / 2)) with 2 by lra.
    replace ((1 - 1 / 2) ^ 2 * 2 ^ 2) with 1 by (cbn [pow]; lra). lra. }
  exists tb, w'. split; [assumption |]. split; [assumption |]. split; [assumption |].
  split.
  - intros z. rewrite Hb. discriminate.
  - intros z. rewrite Hb. cbn [num_val]. intros Heq.
    destruct (Z_lt_le_dec z 1) as [Hz | Hz].
    + assert (IZR z <= 0) by (apply (IZR_le z 0); lia). lra.
    + assert (1 <= IZR z) by (apply (IZR_le 1 z); assumption). lra.
Qed.

(** * Further properties of the code *)

(** ** Construction (MaxNode.__init__, AvgNode.__init__) *)

Section Construction.

Context {State Action : Type} `{GM : GenerativeModel State Action}.

Local Abbreviation World := (World State Action).
Local Abbreviation AvgNode := (AvgNode Action).
Local Abbreviation MaxNode := (MaxNode Action).
Local Abbreviation M := (M State Action).

Tactic Notation "inv_bind" hyp(H) "as" ident(a) ident(w1) ident(H1) :=
  apply bind_ok in H as (a & w1 & H1 & H).

Lemma init_children_exact state gamma delta alpha eta K actions d (w : World) :
  init_children state gamma delta alpha eta K actions d w
  = Ok (dict_of (zip actions (seq (length (avgs w)) (length actions))) d,
        mkWorld (states w) (maxs w)
                (avgs w ++ map (fresh_avg state gamma delta alpha eta K) actions)
                (calls w)).
Proof.
  revert d w. induction actions as [| action rest IH]; intros d w; cbn [init_children].
  - cbn. rewrite app_nil_r. destruct w; reflexivity.
  - unfold bind at 1, AvgNode_init, new_avg. rewrite IH.
    cbn [states maxs avgs calls length seq zip zip_with map].
    rewrite length_app. cbn [length]. rewrite Nat.add_1_r.
    rewrite <- app_assoc. reflexivity.
Qed.

Lemma MaxNode_init_exact state gamma delta alpha eta (w : World) (s : State) :
  states w !! state = Some s ->
  MaxNode_init state gamma delta alpha eta w
  = Ok (length (maxs w),
        mkWorld (states w)
                (maxs w ++ [fresh_max state gamma delta alpha eta (get_actions s)
                                      (length (avgs w))])
                (avgs w ++ map (fresh_avg state gamma delta alpha eta
                                          (length (get_actions s))) (get_actions s))
                (calls w)).
Proof.
  intros Hs. unfold MaxNode_init, bind at 1, get_state. rewrite Hs. cbn [of_option ret].
  unfold bind. rewrite init_children_exact. reflexivity.
Qed.

Lemma dict_set_length (d : list (Action * nat)) k v :
  (length (dict_set d k v) <= S (length d))%nat.
Proof.
  induction d as [| [k0 v0] d IH]; cbn [dict_set length]; [lia |].
  destruct (action_eq k0 k); cbn [length]; lia.
Qed.

Lemma dict_of_length (ps d : list (Action * nat)) :
  (length (dict_of ps d) <= length d + length ps)%nat.
Proof.
  unfold dict_of. revert d. induction ps as [| p ps IH]; intros d; cbn [fold_left length].
  - lia.
  - specialize (IH (dict_set d (fst p) (snd p))).
    pose proof (dict_set_length d (fst p) (snd p)). lia.
Qed.

Lemma dict_of_elem (ps d : list (Action * nat)) act c :
  (act, c) ∈ dict_of ps d -> (act, c) ∈ d \/ c ∈ map snd ps.
Proof.
  unfold dict_of. revert d. induction ps as [| p ps IH]; intros d; cbn [fold_left map].
  - intros H. left. assumption.
  - intros H. destruct (IH _ H) as [Hd | Hp].
    + apply dict_set_elem in Hd as [Hd | ->]; [left; assumption |].
      right. apply elem_of_cons. left. reflexivity.
    + right. apply elem_of_cons. right. assumption.
Qed.

Lemma dict_set_new (d : list (Action * nat)) k v :
  (forall a b, action_eq a b = true <-> a = b) ->
  k ∉ map fst d -> dict_set d k v = d ++ [(k, v)].
Proof.
  intros Heq. induction d as [| [k0 v0] d IH]; cbn [dict_set map fst app]; intros Hk.
  - reflexivity.
  - apply not_elem_of_cons in Hk as [Hne Hk].
    destruct (action_eq k0 k) eqn:E.
    + apply Heq in E. congruence.
    + rewrite IH by assumption. reflexivity.
Qed.

Lemma dict_of_new (ps d : list (Action * nat)) :
  (forall a b, action_eq a b = true <-> a = b) ->
  NoDup (map fst d ++ map fst ps) -> dict_of ps d = d ++ ps.
Proof.
  intros Heq. unfold dict_of. revert d.
  induction ps as [| [k v] ps IH]; intros d Hnd; cbn [fold_left map fst snd] in *.
  - rewrite app_nil_r. reflexivity.
  - assert (Hk : k ∉ map fst d).
    { apply NoDup_app in Hnd as (_ & Hdis & _). intros Hin.
      apply (Hdis k Hin). apply elem_of_cons. left. reflexivity. }
    rewrite (dict_set_new d k v Heq Hk). rewrite IH.
    + rewrite <- app_assoc. reflexivity.
    + rewrite map_app. cbn [map fst]. rewrite <- app_assoc. exact Hnd.
Qed.

(** X1.  [MaxNode.__init__] makes no generative-model call and touches no
    existing object: it appends one MaxNode and one fresh AvgNode (no
    samples, reward sum 0) per entry of [get_actions()], in that order.  [K]
    counts the entries; the dict holds at most [K] children, all of them
    among the new AvgNodes, and exactly one per action, in order, when the
    actions are pairwise distinct. *)
Theorem MaxNode_init_builds state gamma delta alpha eta (w : World) (s : State) :
  states w !! state = Some s ->
  exists Mx : MaxNode,
    MaxNode_init state gamma delta alpha eta w
    = Ok (length (maxs w),
          mkWorld (states w) (maxs w ++ [Mx])
                  (avgs w ++ map (fresh_avg state gamma delta alpha eta
                                            (length (get_actions s))) (get_actions s))
                  (calls w)) /\
    m_state Mx = state /\ m_gamma Mx = gamma /\ m_delta Mx = delta /\
    m_alpha Mx = alpha /\ m_eta Mx = eta /\
    m_K Mx = length (get_actions s) /\
    (length (m_children Mx) <= m_K Mx)%nat /\
    (forall act c, (act, c) ∈ m_children Mx ->
       (length (avgs w) <= c < length (avgs w) + m_K Mx)%nat) /\
    ((forall a b, action_eq a b = true <-> a = b) ->
     NoDup (get_actions s) ->
     m_children Mx = zip (get_actions s) (seq (length (avgs w)) (m_K Mx))).
Proof.
  intros Hs. eexists. split; [apply MaxNode_init_exact; exact Hs |].
  unfold fresh_max. cbn [m_state m_gamma m_delta m_alpha m_eta m_K m_children].
  repeat split.
  - pose proof (dict_of_length (zip (get_actions s)
                 (seq (length (avgs w)) (length (get_actions s)))) []) as H.
    rewrite length_zip, length_seq in H. cbn [length] in H. lia.
  - apply dict_of_elem in H as [H | H]; [apply elem_of_nil in H; destruct H |].
    rewrite snd_zip in H by (rewrite length_seq; lia).
    apply list_elem_of_In, in_seq in H. lia.
  - apply dict_of_elem in H as [H | H]; [apply elem_of_nil in H; destruct H |].
    rewrite snd_zip in H by (rewrite length_seq; lia).
    apply list_elem_of_In, in_seq in H. lia.
  - intros Heq Hnd. rewrite (dict_of_new _ [] Heq); [reflexivity |].
    cbn [map app]. rewrite fst_zip by (rewrite length_seq; lia). exact Hnd.
Qed.

(** X2.  A state without actions is accepted by the constructor (K = 0, no
    children) and rejected only when the node is run: the loop is skipped
    and [candidates[0]] on line 40 raises IndexError, whatever the budget
    and precision. *)
Theorem no_action_state state gamma delta alpha eta (w : World) (s : State) :
  states w !! state = Some s ->
  get_actions s = [] ->
  exists w' : World,
    MaxNode_init state gamma delta alpha eta w = Ok (length (maxs w), w') /\
    forall fuel m epsilon,
      run (S fuel) (CallMax (length (maxs w)) m epsilon) w' = Raise IndexError.
Proof.
  intros Hs Hna. eexists. split; [apply MaxNode_init_exact; exact Hs |].
  intros fuel m epsilon. rewrite run_max_unfold. unfold MaxNode_run, bind at 1.
  rewrite (get_max_some _ _ (fresh_max state gamma delta alpha eta (get_actions s)
                                        (length (avgs w)))).
  - rewrite Hna. unfold fresh_max, dict_of. cbn [zip zip_with length seq fold_left
      m_children map]. unfold bind.
    destruct fuel; cbn [elim_loop]; unfold loop_test; cbn [candidates length Nat.ltb
      Nat.leb andb ret]; reflexivity.
  - cbn [maxs]. rewrite lookup_app_r by lia. rewrite Nat.sub_diag. reflexivity.
Qed.

End Construction.

(** ** Sampling (AvgNode.run, lines 64-83) *)

Section Sampling.

Context {State Action : Type} `{GM : GenerativeModel State Action}.

Local Abbreviation World := (World State Action).
Local Abbreviation AvgNode := (AvgNode Action).
Local Abbreviation MaxNode := (MaxNode Action).
Local Abbreviation M := (M State Action).

Tactic Notation "inv_bind" hyp(H) "as" ident(a) ident(w1) ident(H1) :=
  apply bind_ok in H as (a & w1 & H1 & H).

(** X3.  The scan of lines 72-76 changes nothing in the store and returns
    the FIRST cached node whose state equals the new state: every node
    before it holds a different state; it returns no node only when every
    cached node holds a different state. *)
Theorem find_node_first nodes new_st (w w' : World) r :
  find_node nodes new_st w = Ok (r, w') ->
  w' = w /\
  match r with
  | Some node =>
      exists pre post vn vs,
        nodes = pre ++ node :: post /\
        state_of w node = Some vn /\ states w !! new_st = Some vs /\
        state_eq vn vs = true /\
        forall p, p ∈ pre ->
          exists vp, state_of w p = Some vp /\ state_eq vp vs = false
  | None =>
      forall p, p ∈ nodes ->
        exists vp vs, state_of w p = Some vp /\ states w !! new_st = Some vs /\
                      state_eq vp vs = false
  end.
Proof.
  intros H. split; [eapply find_node_pure; eassumption |].
  revert r H. induction nodes as [| node rest IH]; intros r H; cbn [find_node] in H.
  - apply ret_ok in H as [-> _]. intros p Hp. apply elem_of_nil in Hp. destruct Hp.
  - inv_bind H as Mn w1 H1. apply get_max_ok in H1 as [HM ->].
    inv_bind H as vn w2 H2. apply get_state_ok in H2 as [Hvn ->].
    inv_bind H as vs w3 H3. apply get_state_ok in H3 as [Hvs ->].
    assert (Hso : state_of w node = Some vn) by (unfold state_of; rewrite HM; exact Hvn).
    destruct (state_eq vn vs) eqn:E.
    + apply ret_ok in H as [-> _]. exists [], rest, vn, vs.
      repeat split; try assumption.
      intros p Hp. apply elem_of_nil in Hp. destruct Hp.
    + specialize (IH r H). destruct r as [found |].
      * destruct IH as (pre & post & vn' & vs' & -> & Hso' & Hvs' & E' & Hpre).
        exists (node :: pre), post, vn', vs'. repeat split; try assumption.
        intros p Hp. apply elem_of_cons in Hp as [-> | Hp]; [| apply Hpre; assumption].
        rewrite Hvs in Hvs'. injection Hvs' as <-. exists vn. split; assumption.
      * intros p Hp. apply elem_of_cons in Hp as [-> | Hp]; [| apply IH; assumption].
        exists vn, vs. repeat split; assumption.
Qed.

(** One iteration of the sampling loop, as an equation: the copy of the
    owning state is stepped, and the store grows by the new state object and,
    when no cached node holds an equal state, by one MaxNode with its
    AvgNodes. *)
Lemma sample_once_eq a (w : World) (A : AvgNode) (v : State) :
  avgs w !! a = Some A ->
  states w !! a_state A = Some v ->
  let reward := fst (step v (a_action A) (calls w)) in
  let v' := snd (step v (a_action A) (calls w)) in
  let new_st := length (states w) in
  let w3 := mkWorld (states w ++ [v']) (maxs w) (avgs w) (S (calls w)) in
  let A' node := mkAvgNode (a_state A) (a_action A) (a_gamma A) (a_delta A)
                   (a_alpha A) (a_eta A) (a_K A) (sampled_nodes A ++ [node])
                   (a_r A + reward) in
  sample_once a w
  = match find_node (sampled_nodes A) new_st w3 with
    | Ok (Some node, _) =>
        Ok (tt, mkWorld (states w ++ [v']) (maxs w)
                        (<[a := A' node]> (avgs w)) (S (calls w)))
    | Ok (None, _) =>
        Ok (tt, mkWorld (states w ++ [v'])
                  (maxs w ++ [fresh_max new_st (a_gamma A) (a_delta A) (a_alpha A)
                                        (a_eta A) (get_actions v') (length (avgs w))])
                  (<[a := A' (length (maxs w))]>
                     (avgs w ++ map (fresh_avg new_st (a_gamma A) (a_delta A)
                                       (a_alpha A) (a_eta A) (length (get_actions v')))
                                    (get_actions v')))
                  (S (calls w)))
    | Raise e => Raise e
    | NonReal => NonReal
    | OutOfFuel => OutOfFuel
    end.
Proof.
  intros Ha Hs reward v' new_st w3 A'.
  assert (Hlt : (a < length (avgs w))%nat) by (eapply lookup_lt_Some; eassumption).
  unfold sample_once. unfold bind at 1. rewrite (get_avg_some w a A Ha).
  destruct (copy_step (a_state A) (a_action A) w v Hs) as [Hc Hst].
  unfold bind at 1. rewrite Hc. unfold bind at 1. rewrite Hst.
  fold reward v' new_st w3. unfold bind at 1.
  destruct (find_node (sampled_nodes A) new_st w3) as [[found w4] | e | |] eqn:Ef;
    try reflexivity.
  apply find_node_pure in Ef as ->.
  destruct found as [node |].
  - unfold bind at 1. cbn [ret]. unfold bind at 1, append_sampled, bind at 1.
    rewrite (get_avg_some w3 a A Ha). unfold set_avg. cbn [states maxs avgs calls w3].
    unfold add_reward, bind, get_avg. cbn [avgs of_option].
    rewrite list_lookup_insert_eq by assumption. cbn [of_option ret].
    unfold set_avg. cbn [states maxs avgs calls a_state a_action a_gamma a_delta a_alpha
      a_eta a_K sampled_nodes a_r]. rewrite list_insert_insert_eq. reflexivity.
  - assert (Hs3 : states w3 !! new_st = Some v').
    { unfold w3, new_st. cbn [states]. rewrite lookup_app_r by lia.
      rewrite Nat.sub_diag. reflexivity. }
    unfold bind at 1. rewrite (MaxNode_init_exact new_st _ _ _ _ w3 v' Hs3).
    cbn [states maxs avgs calls w3].
    unfold bind at 1, append_sampled, bind at 1, get_avg. cbn [avgs].
    rewrite (lookup_app_l_Some _ _ _ _ Ha). cbn [of_option ret].
    unfold set_avg. cbn [states maxs avgs calls].
    unfold add_reward, bind, get_avg. cbn [avgs of_option].
    rewrite list_lookup_insert_eq by (rewrite length_app; lia). cbn [of_option ret].
    unfold set_avg. cbn [states maxs avgs calls a_state a_action a_gamma a_delta a_alpha
      a_eta a_K sampled_nodes a_r]. rewrite list_insert_insert_eq. reflexivity.
Qed.

Lemma sample_once_sizes a (w w' : World) (A : AvgNode) u :
  sample_once a w = Ok (u, w') ->
  avgs w !! a = Some A ->
  calls w' = S (calls w) /\
  length (states w') = S (length (states w)) /\
  (length (maxs w) <= length (maxs w') <= S (length (maxs w)))%nat /\
  exists A', avgs w' !! a = Some A' /\
             length (sampled_nodes A') = S (length (sampled_nodes A)).
Proof.
  intros H Ha.
  destruct (sample_once_spec a w w' A u Ha H) as (node0 & v & Hv & _ & _).
  assert (Hlen : (a < length (avgs w))%nat) by (eapply lookup_lt_Some; eassumption).
  rewrite (sample_once_eq a w A v Ha Hv) in H. cbv zeta in H.
  destruct (find_node _ _ _) as [[[node |] w4] | e | |] in H; try discriminate;
    injection H as _ Hw; subst w'; cbn [states maxs avgs calls];
    rewrite ?length_app; cbn [length].
  - repeat split; try lia. eexists. split.
    + apply list_lookup_insert_eq. assumption.
    + cbn [sampled_nodes]. rewrite length_app. cbn [length]. lia.
  - repeat split; try lia. eexists. split.
    + apply list_lookup_insert_eq. rewrite length_app. lia.
    + cbn [sampled_nodes]. rewrite length_app. cbn [length]. lia.
Qed.

Lemma sample_loop_cost fuel a z (w w' : World) (A : AvgNode) u :
  sample_loop fuel a (PyInt z) w = Ok (u, w') ->
  avgs w !! a = Some A ->
  calls w' = (calls w + (Z.to_nat z - length (sampled_nodes A)))%nat /\
  length (states w') = (length (states w) + (Z.to_nat z - length (sampled_nodes A)))%nat /\
  (length (maxs w) <= length (maxs w')
   <= length (maxs w) + (Z.to_nat z - length (sampled_nodes A)))%nat /\
  exists A', avgs w' !! a = Some A' /\
             length (sampled_nodes A')
             = Nat.max (Z.to_nat z) (length (sampled_nodes A)).
Proof.
  revert w A. induction fuel as [| fuel IH]; intros w A H Ha; cbn [sample_loop] in H.
  - inv_bind H as self0 w1 H1. apply get_avg_ok in H1 as [Ha' ->].
    rewrite Ha in Ha'. injection Ha' as <-.
    cbn [num_val] in H. rewrite Rltb_INR_IZR in H.
    destruct (Z.ltb_spec (Z.of_nat (length (sampled_nodes A))) z) as [Hlt | Hge];
      [discriminate |].
    apply ret_ok in H as [_ ->].
    replace (Z.to_nat z - length (sampled_nodes A))%nat with 0%nat by lia.
    repeat split; try lia. exists A. split; [assumption | lia].
  - inv_bind H as self0 w1 H1. apply get_avg_ok in H1 as [Ha' ->].
    rewrite Ha in Ha'. injection Ha' as <-.
    cbn [num_val] in H. rewrite Rltb_INR_IZR in H.
    destruct (Z.ltb_spec (Z.of_nat (length (sampled_nodes A))) z) as [Hlt | Hge].
    + inv_bind H as u1 w2 H2.
      destruct (sample_once_sizes a w w2 A u1 H2 Ha) as (Hc2 & Hs2 & Hm2 & A2 & Ha2 & Hl2).
      destruct (IH w2 A2 H Ha2) as (Hc & Hs & Hm & A' & Ha' & Hl).
      repeat split; try lia. exists A'. split; [assumption | lia].
    + apply ret_ok in H as [_ ->].
      replace (Z.to_nat z - length (sampled_nodes A))%nat with 0%nat by lia.
      repeat split; try lia. exists A. split; [assumption | lia].
Qed.

(** X4.  For an integer budget m >= 0 on a node with n cached samples, the
    sampling phase makes exactly max(0, m - n) generative-model calls, one
    deep copy of the owning state per call, creates at most one MaxNode per
    call, and hands exactly m records to the rest of the method. *)
Theorem sampling_cost fuel a z (w w' : World) (A : AvgNode) active :
  (0 <= z)%Z ->
  avgs w !! a = Some A ->
  active_nodes fuel a (PyInt z) w = Ok (active, w') ->
  calls w' = (calls w + (Z.to_nat z - length (sampled_nodes A)))%nat /\
  length (states w') = (length (states w) + (Z.to_nat z - length (sampled_nodes A)))%nat /\
  (length (maxs w) <= length (maxs w')
   <= length (maxs w) + (Z.to_nat z - length (sampled_nodes A)))%nat /\
  length active = Z.to_nat z.
Proof.
  intros Hz Ha H.
  destruct (active_nodes_int_full fuel a z w w' A active Hz Ha H)
    as (A1 & Ha1 & Hact & Hlen & _ & Hsame).
  assert (Hal : length active = Z.to_nat z).
  { rewrite Hact, length_take. lia. }
  unfold active_nodes in H.
  inv_bind H as self0 w0 H0. apply get_avg_ok in H0 as [Ha' ->].
  rewrite Ha in Ha'. injection Ha' as <-.
  cbn [num_val] in H. rewrite Rltb_IZR_INR in H.
  destruct (Z.ltb_spec z (Z.of_nat (length (sampled_nodes A)))) as [Hlt | Hge].
  - destruct (Hsame ltac:(lia)) as [_ ->].
    replace (Z.to_nat z - length (sampled_nodes A))%nat with 0%nat by lia.
    repeat split; try lia.
  - inv_bind H as u w2 H2.
    inv_bind H as self2 w3 H3. apply get_avg_ok in H3 as [_ ->].
    apply ret_ok in H as [_ ->].
    destruct (sample_loop_cost fuel a z w w2 A u H2 Ha) as (Hc & Hs & Hm & _).
    repeat split; try assumption; lia.
Qed.

Lemma replicate_snoc {A} (k : nat) (x : A) : replicate k x ++ [x] = replicate (S k) x.
Proof. induction k as [| k IH]; cbn; [reflexivity | rewrite IH; reflexivity]. Qed.

(** Once the cache holds copies of one node whose state is the successor
    state, every further sample finds that node again. *)
Lemma dedup_loop fuel a z x (v v' : State) (action : Action) :
  (forall n, snd (step v action n) = v') ->
  state_eq v' v' = true ->
  forall (w w' : World) (A : AvgNode) k u,
    avgs w !! a = Some A ->
    a_action A = action ->
    states w !! a_state A = Some v ->
    sampled_nodes A = replicate (S k) x ->
    state_of w x = Some v' ->
    sample_loop fuel a (PyInt z) w = Ok (u, w') ->
    maxs w' = maxs w /\
    exists A', avgs w' !! a = Some A' /\
               sampled_nodes A' = replicate (Nat.max (Z.to_nat z) (S k)) x.
Proof.
  intros Hdet Hrefl. induction fuel as [| fuel IH]; intros w w' A k u Ha Hact Hv Hsam Hx H;
    cbn [sample_loop] in H.
  - inv_bind H as self0 w1 H1. apply get_avg_ok in H1 as [Ha' ->].
    rewrite Ha in Ha'. injection Ha' as <-.
    cbn [num_val] in H. rewrite Rltb_INR_IZR in H.
    rewrite Hsam, length_replicate in H.
    destruct (Z.ltb_spec (Z.of_nat (S k)) z) as [Hlt | Hge]; [discriminate |].
    apply ret_ok in H as [_ ->]. split; [reflexivity |]. exists A.
    split; [assumption |]. rewrite Hsam. f_equal. lia.
  - inv_bind H as self0 w1 H1. apply get_avg_ok in H1 as [Ha' ->].
    rewrite Ha in Ha'. injection Ha' as <-.
    cbn [num_val] in H. rewrite Rltb_INR_IZR in H.
    rewrite Hsam, length_replicate in H.
    destruct (Z.ltb_spec (Z.of_nat (S k)) z) as [Hlt | Hge].
    + inv_bind H as u1 w2 H2.
      rewrite (sample_once_eq a w A v Ha Hv) in H2. cbv zeta in H2.
      rewrite Hact, (Hdet (calls w)) in H2.
      unfold state_of in Hx. destruct (maxs w !! x) as [Mx |] eqn:HMx; [| discriminate].
      assert (Hfind : find_node (sampled_nodes A) (length (states w))
                        (mkWorld (states w ++ [v']) (maxs w) (avgs w) (S (calls w)))
                      = Ok (Some x, mkWorld (states w ++ [v']) (maxs w) (avgs w)
                                            (S (calls w)))).
      { rewrite Hsam. cbn [replicate find_node]. unfold bind, get_max, get_state.
        cbn [maxs states]. rewrite HMx. cbn [of_option ret states].
        rewrite (lookup_app_l_Some _ _ _ _ Hx). cbn [of_option ret states].
        rewrite lookup_app_r by lia. rewrite Nat.sub_diag. cbn [lookup list_lookup of_option ret].
        rewrite Hrefl. reflexivity. }
      rewrite Hfind in H2. injection H2 as _ Hw. subst w2.
      eapply (IH _ _ _ (S k)) in H.
      * destruct H as (Hm & A' & Ha' & Hs'). cbn [maxs] in Hm.
        split; [assumption |]. exists A'. split; [assumption |].
        rewrite Hs'. f_equal. lia.
      * cbn [avgs]. apply list_lookup_insert_eq. eapply lookup_lt_Some. eassumption.
      * reflexivity.
      * cbn [states a_state]. apply lookup_app_l_Some. assumption.
      * cbn [sampled_nodes]. rewrite Hsam. apply (replicate_snoc (S k) x).
      * unfold state_of. cbn [maxs states]. rewrite HMx.
        apply lookup_app_l_Some. assumption.
    + apply ret_ok in H as [_ ->]. split; [reflexivity |]. exists A.
      split; [assumption |]. rewrite Hsam. f_equal. lia.
Qed.

(** A sampling phase that starts without samples, on a node whose successor
    state is always the same. *)
Lemma dedup_from_empty fuel a z (w w' : World) (A : AvgNode) (v v' : State) u :
  avgs w !! a = Some A ->
  states w !! a_state A = Some v ->
  sampled_nodes A = [] ->
  (1 <= z)%Z ->
  (forall n, snd (step v (a_action A) n) = v') ->
  state_eq v' v' = true ->
  sample_loop fuel a (PyInt z) w = Ok (u, w') ->
  maxs w' = maxs w ++ [fresh_max (length (states w)) (a_gamma A) (a_delta A)
                                 (a_alpha A) (a_eta A) (get_actions v')
                                 (length (avgs w))] /\
  exists A', avgs w' !! a = Some A' /\
             sampled_nodes A' = replicate (Z.to_nat z) (length (maxs w)).
Proof.
  intros Ha Hv Hsam Hz Hdet Hrefl H.
  assert (Hlt : (a < length (avgs w))%nat) by (eapply lookup_lt_Some; eassumption).
  destruct fuel as [| fuel]; cbn [sample_loop] in H.
  - inv_bind H as self0 w1 H1. apply get_avg_ok in H1 as [Ha' ->].
    rewrite Ha in Ha'. injection Ha' as <-.
    cbn [num_val] in H. rewrite Rltb_INR_IZR, Hsam in H. cbn [length] in H.
    destruct (Z.ltb_spec (Z.of_nat 0) z) as [Hlt0 | Hge]; [discriminate | lia].
  - inv_bind H as self0 w1 H1. apply get_avg_ok in H1 as [Ha' ->].
    rewrite Ha in Ha'. injection Ha' as <-.
    cbn [num_val] in H. rewrite Rltb_INR_IZR, Hsam in H. cbn [length] in H.
    destruct (Z.ltb_spec (Z.of_nat 0) z) as [Hlt0 | Hge]; [| lia].
    inv_bind H as u1 w2 H2.
    rewrite (sample_once_eq a w A v Ha Hv) in H2. cbv zeta in H2.
    rewrite (Hdet (calls w)), Hsam in H2. cbn [find_node ret] in H2.
    injection H2 as _ Hw. subst w2.
    eapply (dedup_loop fuel a z (length (maxs w)) v v' (a_action A) Hdet Hrefl)
      with (k := 0%nat) in H.
    + destruct H as (Hm & A' & Ha' & Hs'). cbn [maxs] in Hm.
      split; [assumption |]. exists A'. split; [assumption |].
      rewrite Hs'. f_equal. lia.
    + cbn [avgs]. apply list_lookup_insert_eq. rewrite length_app. lia.
    + reflexivity.
    + cbn [states a_state]. apply lookup_app_l_Some. assumption.
    + cbn [sampled_nodes]. reflexivity.
    + unfold state_of. cbn [maxs states].
      rewrite lookup_app_r by lia. rewrite Nat.sub_diag.
      cbn [lookup list_lookup fresh_max m_state].
      rewrite lookup_app_r by lia. rewrite Nat.sub_diag. reflexivity.
Qed.

(** X5.  When the successor state of the node's state and action does not
    depend on the call, and compares equal to itself, the deduplication of
    lines 71-79 creates ONE MaxNode however many samples are drawn: starting
    without samples, a sampling phase of budget m >= 1 leaves the cache with
    m references to the same new MaxNode. *)
Theorem dedup_deterministic fuel a z (w w' : World) (A : AvgNode) (v v' : State) u :
  avgs w !! a = Some A ->
  states w !! a_state A = Some v ->
  sampled_nodes A = [] ->
  (1 <= z)%Z ->
  (forall n, snd (step v (a_action A) n) = v') ->
  state_eq v' v' = true ->
  sample_loop fuel a (PyInt z) w = Ok (u, w') ->
  maxs w' = maxs w ++ [fresh_max (length (states w)) (a_gamma A) (a_delta A)
                                 (a_alpha A) (a_eta A) (get_actions v')
                                 (length (avgs w))] /\
  exists A', avgs w' !! a = Some A' /\
             sampled_nodes A' = replicate (Z.to_nat z) (length (maxs w)).
Proof. apply dedup_from_empty. Qed.

End Sampling.

(** ** Grouping, the store and the elimination loop *)

Section Structure.

Context {State Action : Type} `{GM : GenerativeModel State Action}.

Local Abbreviation World := (World State Action).
Local Abbreviation AvgNode := (AvgNode Action).
Local Abbreviation MaxNode := (MaxNode Action).
Local Abbreviation M := (M State Action).

Tactic Notation "inv_bind" hyp(H) "as" ident(a) ident(w1) ident(H1) :=
  apply bind_ok in H as (a & w1 & H1 & H).

(** X6.  Lines 85-93 turn the records of a call into the list of the
    distinct records and the list of their numbers of occurrences: the two
    lists have the same length, no record is listed twice, a record is listed
    exactly when it occurs, every count is the number of occurrences of its
    record (hence at least 1), and the counts add up to the number of
    records. *)
Theorem group_occurrences (active : list nat) :
  length (fst (group active)) = length (snd (group active)) /\
  NoDup (fst (group active)) /\
  (forall x, x ∈ fst (group active) <-> x ∈ active) /\
  (forall i u c, fst (group active) !! i = Some u -> snd (group active) !! i = Some c ->
                 c = count_occ Nat.eq_dec active u /\ (1 <= c)%nat) /\
  sum_list (snd (group active)) = length active.
Proof.
  pose proof (group_grouped active) as Hg.
  destruct Hg as (Hlen & Hnd & Hmem & Hcnt & Hsum).
  repeat split; try assumption; try apply Hmem.
  - eapply Hcnt; eassumption.
  - eapply (grouped_counts_pos active (group active)); [apply group_grouped |].
    eapply list_elem_of_lookup_2. eassumption.
Qed.

(** X7.  Whatever is called, with whatever budget and precision, a call
    that returns has only added to the store: every state object and every
    MaxNode is as it was, every AvgNode keeps its constructor arguments and
    its cached samples as a prefix of its cache, and the number of
    generative-model calls has not gone down. *)
Theorem run_only_appends fuel c (w w' : World) v :
  run fuel c w = Ok (v, w') ->
  (forall i s, states w !! i = Some s -> states w' !! i = Some s) /\
  (forall x Mx, maxs w !! x = Some Mx -> maxs w' !! x = Some Mx) /\
  (forall a (A : AvgNode), avgs w !! a = Some A ->
     exists A' : AvgNode,
       avgs w' !! a = Some A' /\
       a_state A' = a_state A /\ a_action A' = a_action A /\
       a_gamma A' = a_gamma A /\ a_delta A' = a_delta A /\
       a_alpha A' = a_alpha A /\ a_eta A' = a_eta A /\ a_K A' = a_K A /\
       sampled_nodes A `prefix_of` sampled_nodes A') /\
  (calls w <= calls w')%nat.
Proof.
  intros H. apply run_ext in H. destruct H as (Hs & Hm & Ha & Hc).
  repeat split.
  - intros i s Hi. eapply prefix_lookup_Some; eassumption.
  - intros x Mx Hx. eapply prefix_lookup_Some; eassumption.
  - intros a A HA. destruct (Ha a A HA) as (A' & HA' & Hle).
    exists A'. split; [assumption | exact Hle].
  - assumption.
Qed.

(** X8.  On a store in which the children of every sampled MaxNode were
    allocated after the AvgNode that sampled it (as construction and
    sampling build it), a call that returns keeps that shape, and has left
    every AvgNode allocated before its own node exactly as it was. *)
Theorem run_keeps_tree fuel c (w w' : World) v :
  wf w ->
  run fuel c w = Ok (v, w') ->
  wf w' /\
  match c with
  | CallAvg a _ _ => forall j, (j < a)%nat -> avgs w' !! j = avgs w !! j
  | CallMax x _ _ =>
      forall Mx, maxs w !! x = Some Mx ->
      forall j, (forall act b, (act, b) ∈ m_children Mx -> (j < b)%nat) ->
                avgs w' !! j = avgs w !! j
  end.
Proof.
  intros Hwf H. destruct (run_frame fuel c w w' v Hwf H) as [Hwf' Hfr].
  split; [assumption |]. destruct c; exact Hfr.
Qed.

Lemma estimate_all_fst rec cands count eps (w w' : World) mu :
  estimate_all rec cands count eps w = Ok (mu, w') -> map fst mu = cands.
Proof.
  revert w w' mu. induction cands as [| b rest IH]; intros w w' mu H; cbn [estimate_all] in H.
  - apply ret_ok in H as [-> _]. reflexivity.
  - inv_bind H as v w1 H1. inv_bind H as vs w2 H2.
    apply ret_ok in H as [-> _]. cbn. f_equal. eapply IH. eassumption.
Qed.

Lemma sublist_map_filter {A B} (f : A -> B) (p : A -> bool) (l : list A) :
  map f (List.filter p l) `sublist_of` map f l.
Proof.
  induction l as [| x l IH]; cbn [List.filter map].
  - constructor.
  - destruct (p x); cbn [map].
    + apply sublist_skip. assumption.
    + apply sublist_cons. assumption.
Qed.

Lemma elim_round_sublist rec (self : MaxNode) epsilon st (w w' : World) st' :
  elim_round rec self epsilon st w = Ok (st', w') ->
  candidates st' `sublist_of` candidates st /\ count st' = (count st + 1)%nat /\
  length (lmu st') = length (candidates st).
Proof.
  intros H. apply elim_round_ok in H as (U & mu & best & _ & Hest & _ & _ & ->).
  apply estimate_all_fst in Hest. cbn [candidates count lmu].
  split; [| split; [reflexivity |]].
  - rewrite <- Hest. apply sublist_map_filter.
  - rewrite <- Hest. rewrite length_map. reflexivity.
Qed.

(** X9.  The elimination loop of [MaxNode.run] only removes candidates,
    keeping their order, and counts its rounds from its start value; when
    it ends, at most one candidate is left or the last confidence radius U
    is below (1 - eta) * epsilon. *)
Theorem elim_loop_exit fuel rec (self : MaxNode) epsilon st0 (w w' : World) st :
  elim_loop fuel rec self epsilon st0 w = Ok (st, w') ->
  candidates st `sublist_of` candidates st0 /\
  (count st0 <= count st)%nat /\
  ((length (candidates st) <= 1)%nat \/
   exists U, lU st = Some U /\ U < (1 - m_eta self) * epsilon).
Proof.
  intros H. split; [| split].
  - revert st0 w H. induction fuel as [| fuel IH]; intros st0 w H; cbn [elim_loop] in H.
    + destruct (loop_test _ _ _); [discriminate |]. apply ret_ok in H as [-> _]. reflexivity.
    + destruct (loop_test _ _ _).
      * inv_bind H as st1 w1 H1. apply elim_round_sublist in H1 as (Hsub & _).
        etrans; [eapply IH; eassumption | assumption].
      * apply ret_ok in H as [-> _]. reflexivity.
  - revert st0 w H. induction fuel as [| fuel IH]; intros st0 w H; cbn [elim_loop] in H.
    + destruct (loop_test _ _ _); [discriminate |]. apply ret_ok in H as [-> _]. lia.
    + destruct (loop_test _ _ _).
      * inv_bind H as st1 w1 H1. apply elim_round_sublist in H1 as (_ & Hc & _).
        specialize (IH st1 w1 H). lia.
      * apply ret_ok in H as [-> _]. lia.
  - apply elim_loop_last in H as [Hexit _]. unfold loop_test in Hexit.
    destruct (Nat.ltb_spec 1 (length (candidates st))) as [Hlt | Hge]; [| left; lia].
    cbn [andb] in Hexit. destruct (lU st) as [U |]; [| discriminate].
    right. exists U. split; [reflexivity |].
    destruct (Rle_dec ((1 - m_eta self) * epsilon) U) as [Hle | Hnle].
    + rewrite (Rleb_true _ _ Hle) in Hexit. discriminate.
    + lra.
Qed.

End Structure.

(** ** The range of the estimates *)

Section Range.

Context {State Action : Type} `{GM : GenerativeModel State Action}.

Local Abbreviation World := (World State Action).
Local Abbreviation AvgNode := (AvgNode Action).
Local Abbreviation MaxNode := (MaxNode Action).
Local Abbreviation M := (M State Action).

Tactic Notation "inv_bind" hyp(H) "as" ident(a) ident(w1) ident(H1) :=
  apply bind_ok in H as (a & w1 & H1 & H).

Variable g : R.
Hypothesis g_range : 0 <= g < 1.
Hypothesis unit_rewards : rewards_in_unit.

Lemma unit_store_sample_once a (w w' : World) u :
  unit_store g w -> sample_once a w = Ok (u, w') -> unit_store g w'.
Proof.
  intros Hus H.
  destruct (avgs w !! a) as [A |] eqn:Ha.
  2: { unfold sample_once, bind at 1, get_avg in H. rewrite Ha in H. discriminate. }
  destruct (sample_once_spec a w w' A u Ha H) as (node0 & v & Hv & _ & _).
  assert (Hlt : (a < length (avgs w))%nat) by (eapply lookup_lt_Some; eassumption).
  rewrite (sample_once_eq a w A v Ha Hv) in H. cbv zeta in H.
  destruct (Hus a A Ha) as (HgA & Hr0 & Hr1).
  pose proof (unit_rewards v (a_action A) (calls w)) as [Hrew0 Hrew1].
  assert (Hnew : forall node,
            a_gamma (mkAvgNode (a_state A) (a_action A) (a_gamma A) (a_delta A)
                       (a_alpha A) (a_eta A) (a_K A) (sampled_nodes A ++ [node])
                       (a_r A + fst (step v (a_action A) (calls w)))) = g /\
            0 <= a_r A + fst (step v (a_action A) (calls w))
              <= INR (length (sampled_nodes A ++ [node]))).
  { intros node. cbn [a_gamma]. split; [assumption |].
    rewrite length_app. cbn [length]. rewrite Nat.add_1_r, S_INR. lra. }
  destruct (find_node _ _ _) as [[[node |] w4] | e | |] in H; try discriminate;
    injection H as _ Hw; subst w'; intros j B Hj; cbn [avgs] in Hj.
  - destruct (decide (j = a)) as [-> | Hne].
    + rewrite list_lookup_insert_eq in Hj by assumption. injection Hj as <-.
      cbn [a_r sampled_nodes]. apply Hnew.
    + rewrite list_lookup_insert_ne in Hj by congruence. apply (Hus j B Hj).
  - destruct (decide (j = a)) as [-> | Hne].
    + rewrite list_lookup_insert_eq in Hj by (rewrite length_app; lia).
      injection Hj as <-. cbn [a_r sampled_nodes]. apply Hnew.
    + rewrite list_lookup_insert_ne in Hj by congruence.
      destruct (decide (j < length (avgs w))%nat) as [Hjl | Hjl].
      * rewrite lookup_app_l in Hj by assumption. apply (Hus j B Hj).
      * rewrite lookup_app_r in Hj by lia.
        apply list_elem_of_lookup_2, list_elem_of_In, in_map_iff in Hj as (act & <- & _).
        unfold fresh_avg. cbn [a_gamma a_r sampled_nodes length INR].
        split; [assumption | lra].
Qed.

Lemma unit_store_sample_loop fuel a m (w w' : World) u :
  unit_store g w -> sample_loop fuel a m w = Ok (u, w') -> unit_store g w'.
Proof.
  revert w. induction fuel as [| fuel IH]; intros w Hus H; cbn [sample_loop] in H.
  - inv_bind H as self w1 H1. apply get_avg_ok in H1 as [_ ->].
    destruct (Rltb _ _); [discriminate |]. apply ret_ok in H as [_ ->]. assumption.
  - inv_bind H as self w1 H1. apply get_avg_ok in H1 as [_ ->].
    destruct (Rltb _ _).
    + inv_bind H as u1 w2 H2. eapply IH; [| eassumption].
      eapply unit_store_sample_once; eassumption.
    + apply ret_ok in H as [_ ->]. assumption.
Qed.

Lemma unit_store_active_nodes fuel a m (w w' : World) active :
  unit_store g w -> active_nodes fuel a m w = Ok (active, w') -> unit_store g w'.
Proof.
  intros Hus H. unfold active_nodes in H.
  inv_bind H as self w1 H1. apply get_avg_ok in H1 as [_ ->].
  destruct (Rltb _ _).
  - destruct m as [z | x]; cbn [py_slice_to] in H; [| discriminate].
    destruct (0 <=? z)%Z; apply ret_ok in H as [_ ->]; assumption.
  - inv_bind H as u w2 H2. inv_bind H as self2 w3 H3.
    apply get_avg_ok in H3 as [_ ->]. apply ret_ok in H as [_ ->].
    eapply unit_store_sample_loop; eassumption.
Qed.

Lemma range_top : 0 <= 1 / (1 - g) /\ 1 + g * (1 / (1 - g)) = 1 / (1 - g).
Proof.
  destruct g_range as [Hg0 Hg1]. split.
  - apply Rlt_le. apply Rdiv_lt_0_compat; lra.
  - field. lra.
Qed.

Section Recursion.

Variable rec : Call -> M R.
Hypothesis rec_range :
  forall c (w w' : World) v,
    unit_store g w -> int_budget c -> rec c w = Ok (v, w') ->
    0 <= v <= 1 / (1 - g) /\ unit_store g w'.

Lemma avg_children_range uniques counts m epsilon gamma mu0 (w w' : World) mu :
  unit_store g w -> 0 < num_val m ->
  (forall c, c ∈ counts -> (1 <= c)%nat) ->
  avg_children rec uniques counts m epsilon gamma mu0 w = Ok (mu, w') ->
  unit_store g w' /\
  mu0 <= mu <= mu0 + INR (sum_list counts) / num_val m * (1 / (1 - g)).
Proof.
  intros Hus Hm. destruct range_top as [HB _].
  revert counts mu0 w Hus. induction uniques as [| u us IH]; intros counts mu0 w Hus Hpos H;
    cbn [avg_children] in H.
  - apply ret_ok in H as [-> ->]. split; [assumption |].
    assert (0 <= INR (sum_list counts) / num_val m).
    { apply Rmult_le_pos; [apply pos_INR | left; apply Rinv_0_lt_compat; assumption]. }
    nra.
  - destruct counts as [| c cs]; [discriminate |].
    inv_bind H as nu w1 H1.
    assert (Hib : int_budget (CallMax u (PyInt (Z.of_nat c)) (epsilon / gamma))).
    { exists (Z.of_nat c). split; [reflexivity |].
      specialize (Hpos c ltac:(apply elem_of_cons; left; reflexivity)). lia. }
    destruct (rec_range _ w w1 nu Hus Hib H1) as [[Hnu0 Hnu1] Hus1].
    apply IH in H as [Hus' [Hlo Hhi]]; [| assumption |
      intros c' Hc'; apply Hpos; apply elem_of_cons; right; assumption].
    split; [assumption |].
    assert (Hq : 0 <= INR c / num_val m).
    { apply Rmult_le_pos; [apply pos_INR | left; apply Rinv_0_lt_compat; assumption]. }
    assert (Hsum : INR (sum_list (c :: cs)) / num_val m
                   = INR c / num_val m + INR (sum_list cs) / num_val m).
    { change (sum_list (c :: cs)) with (c + sum_list cs)%nat.
      rewrite plus_INR. field. lra. }
    rewrite Hsum. nra.
Qed.

Lemma AvgNode_run_range fuel a z epsilon (w w' : World) v :
  unit_store g w -> (1 <= z)%Z ->
  AvgNode_run fuel rec a (PyInt z) epsilon w = Ok (v, w') ->
  0 <= v <= 1 / (1 - g) /\ unit_store g w'.
Proof.
  intros Hus Hz H. destruct range_top as [HB HB1]. unfold AvgNode_run in H.
  inv_bind H as self w0 H0. apply get_avg_ok in H0 as [Ha ->].
  destruct (Rleb _ _).
  { apply ret_ok in H as [-> ->]. split; [lra | assumption]. }
  inv_bind H as active w1 H1.
  pose proof (unit_store_active_nodes fuel a (PyInt z) w w1 active Hus H1) as Hus1.
  destruct (active_nodes_int_full fuel a z w w1 self active ltac:(lia) Ha H1)
    as (A1 & Ha1 & Hact & Hlen & _).
  pose proof (group_grouped active) as Hg.
  destruct (group active) as [uniques counts] eqn:Eg.
  inv_bind H as mu w2 H2.
  assert (Hzpos : 0 < IZR z) by (apply (IZR_lt 0); lia).
  assert (Hcp : forall c, c ∈ counts -> (1 <= c)%nat).
  { intros c Hc. eapply (grouped_counts_pos active (uniques, counts)); eassumption. }
  destruct (avg_children_range uniques counts (PyInt z) epsilon (a_gamma self) 0 w1 w2 mu
              Hus1 Hzpos Hcp H2) as [Hus2 [Hmu0 Hmu1]].
  assert (Hsum : INR (sum_list counts) = IZR z).
  { destruct Hg as (_ & _ & _ & _ & Hsum). cbn [snd] in Hsum.
    rewrite Hsum, Hact, length_take, INR_IZR_INZ. f_equal. lia. }
  cbn [num_val] in Hmu1. rewrite Hsum in Hmu1.
  replace (IZR z / IZR z) with 1 in Hmu1 by (field; lra).
  unfold avg_result in H. inv_bind H as self' w3 H3. apply get_avg_ok in H3 as [Ha' ->].
  destruct (Hus2 a self' Ha') as (Hga & Hr0 & Hr1).
  destruct (length (sampled_nodes self')) as [| n] eqn:En; [discriminate |].
  apply ret_ok in H as [-> ->]. split; [| assumption].
  rewrite Hga.
  assert (Hn : 0 < INR (S n)) by (apply lt_0_INR; lia).
  assert (Hq : 0 <= a_r self' / INR (S n) <= 1).
  { split.
    - apply Rmult_le_pos; [assumption | left; apply Rinv_0_lt_compat; assumption].
    - apply (Rmult_le_reg_r (INR (S n))); [assumption |].
      unfold Rdiv. rewrite Rmult_assoc, Rinv_l by lra. lra. }
  destruct g_range as [Hg0 Hg1]. split; [nra |].
  rewrite <- HB1. nra.
Qed.

Lemma estimate_all_range cands count eps (w w' : World) mu :
  unit_store g w -> (1 <= count)%nat ->
  estimate_all rec cands count eps w = Ok (mu, w') ->
  unit_store g w' /\ forall p, In p mu -> 0 <= snd p <= 1 / (1 - g).
Proof.
  intros Hus Hc. revert w w' mu Hus.
  induction cands as [| b rest IH]; intros w w' mu Hus H; cbn [estimate_all] in H.
  - apply ret_ok in H as [-> ->]. split; [assumption |]. intros p [].
  - inv_bind H as v w1 H1.
    assert (Hib : int_budget (CallAvg b (PyInt (Z.of_nat count)) eps)).
    { exists (Z.of_nat count). split; [reflexivity | lia]. }
    destruct (rec_range _ w w1 v Hus Hib H1) as [Hv Hus1].
    inv_bind H as vs w2 H2. destruct (IH w1 w2 vs Hus1 H2) as [Hus2 Hvs].
    apply ret_ok in H as [-> ->]. split; [assumption |].
    intros p [<- | Hp]; [exact Hv | apply Hvs; assumption].
Qed.

Lemma elim_loop_range fuel (self : MaxNode) epsilon st (w w' : World) st' :
  unit_store g w -> (1 <= count st)%nat ->
  (forall p, In p (lmu st) -> 0 <= snd p <= 1 / (1 - g)) ->
  elim_loop fuel rec self epsilon st w = Ok (st', w') ->
  unit_store g w' /\ forall p, In p (lmu st') -> 0 <= snd p <= 1 / (1 - g).
Proof.
  revert st w. induction fuel as [| fuel IH]; intros st w Hus Hc Hmu H; cbn [elim_loop] in H.
  - destruct (loop_test _ _ _); [discriminate |].
    apply ret_ok in H as [-> ->]. split; assumption.
  - destruct (loop_test _ _ _).
    + inv_bind H as st1 w1 H1.
      apply elim_round_ok in H1 as (U & mu & best & _ & Hest & _ & _ & ->).
      destruct (estimate_all_range _ _ _ w w1 mu Hus Hc Hest) as [Hus1 Hmu1].
      apply (IH _ _ Hus1) in H; [exact H | cbn [count]; lia | exact Hmu1].
    + apply ret_ok in H as [-> ->]. split; assumption.
Qed.

Lemma MaxNode_run_range fuel x z epsilon (w w' : World) v :
  unit_store g w -> (1 <= z)%Z ->
  MaxNode_run fuel rec x (PyInt z) epsilon w = Ok (v, w') ->
  0 <= v <= 1 / (1 - g) /\ unit_store g w'.
Proof.
  intros Hus Hz H. unfold MaxNode_run in H.
  inv_bind H as self w0 H0. apply get_max_ok in H0 as [_ ->].
  inv_bind H as st w1 H1.
  assert (Hc1 : (1 <= count (mkLoop (map snd (m_children self)) 1 None []))%nat)
    by (cbn; lia).
  assert (Hmu0 : forall p, In p (lmu (mkLoop (map snd (m_children self)) 1 None [])) ->
                           0 <= snd p <= 1 / (1 - g)) by (intros p []).
  destruct (elim_loop_range fuel self epsilon _ w w1 st Hus Hc1 Hmu0 H1) as [Hus1 Hmu].
  unfold max_result in H. destruct (1 <? length (candidates st))%nat.
  - inv_bind H as best w2 H2. apply py_max_ok in H2 as (-> & Hin & _).
    apply ret_ok in H as [-> ->]. split; [apply Hmu; assumption | assumption].
  - destruct (candidates st) as [| c rest]; [discriminate |].
    eapply rec_range; [exact Hus1 | | exact H].
    exists z. split; [reflexivity | assumption].
Qed.

End Recursion.

Lemma run_range fuel c (w w' : World) v :
  unit_store g w -> int_budget c -> run fuel c w = Ok (v, w') ->
  0 <= v <= 1 / (1 - g) /\ unit_store g w'.
Proof.
  revert c w w' v. induction fuel as [| fuel IH]; intros c w w' v Hus Hb H; cbn [run] in H.
  - discriminate.
  - destruct Hb as (z & Hb & Hz). destruct c as [x m epsilon | a m epsilon];
      cbn [budget] in Hb; subst m.
    + eapply MaxNode_run_range; [exact IH | exact Hus | exact Hz | exact H].
    + eapply AvgNode_run_range; [exact IH | exact Hus | exact Hz | exact H].
Qed.

End Range.

Section RangeTheorem.

Context {State Action : Type} `{GM : GenerativeModel State Action}.

(** X10.  When every reward of the generative model lies in [0, 1] and
    every AvgNode of the store has the discount g in (0, 1) and a reward sum
    between 0 and its number of samples (as on construction), every call
    with an integer budget of at least 1 that returns, returns an estimate
    between 0 and 1/(1-g), the range of the discounted return, and keeps
    the store that way. *)
Theorem estimate_in_range (g : R) fuel c (w w' : World State Action) v :
  0 < g < 1 ->
  rewards_in_unit ->
  unit_store g w ->
  int_budget c ->
  run fuel c w = Ok (v, w') ->
  0 <= v <= 1 / (1 - g) /\ unit_store g w'.
Proof.
  intros Hg Hr Hu Hc H.
  assert (Hg' : 0 <= g < 1) by lra.
  exact (run_range g Hg' Hr fuel c w w' v Hu Hc H).
Qed.

End RangeTheorem.

(** ** The planner's constants and constructor *)

Lemma exponent_denominator_pos (epsilon : R) :
  0 < epsilon -> exponent_denominator epsilon = Rmax 2 (ln (1 / epsilon)).
Proof.
  intros He. unfold exponent_denominator.
  assert (0 < 1 / epsilon) by (apply Rdiv_lt_0_compat; lra).
  rewrite (Rltb_true 0 (1 / epsilon)) by assumption.
  unfold Rmax. destruct (Rle_dec 2 (ln (1 / epsilon))) as [Hle | Hnle].
  - destruct (Rle_lt_or_eq_dec _ _ Hle) as [Hlt | Heq].
    + rewrite (Rltb_true _ _ Hlt). reflexivity.
    + rewrite (Rltb_false 2 (ln (1 / epsilon))) by lra. exact Heq.
  - rewrite (Rltb_false 2 (ln (1 / epsilon))) by lra. reflexivity.
Qed.

(** X11.  The elimination rate of line 107 as a function of epsilon: for
    gamma in (0,1) it is the square root of gamma for every epsilon of at
    least e^-2 (the maximum picks 2), and it never decreases when epsilon
    shrinks. *)
Theorem eta_schedule (gamma : R) :
  0 < gamma < 1 ->
  (forall epsilon, exp (- 2) <= epsilon -> derive_eta gamma epsilon = sqrt gamma) /\
  (forall epsilon epsilon', 0 < epsilon' <= epsilon ->
     derive_eta gamma epsilon <= derive_eta gamma epsilon').
Proof.
  intros [Hg0 Hg1].
  assert (Hln : ln gamma < 0) by (rewrite <- ln_1; apply ln_increasing; lra).
  split.
  - intros epsilon He.
    assert (Hpos : 0 < epsilon) by (pose proof (exp_pos (- 2)); lra).
    rewrite derive_eta_pos_gamma by assumption.
    rewrite exponent_denominator_pos by assumption.
    assert (Hle : ln (1 / epsilon) <= 2).
    { unfold Rdiv. rewrite Rmult_1_l, ln_Rinv by assumption.
      assert (- 2 <= ln epsilon); [| lra].
      rewrite <- (ln_exp (- 2)).
      destruct He as [Hlt | Heq]; [left; apply ln_increasing; [apply exp_pos | assumption] |].
      rewrite Heq. lra. }
    rewrite Rmax_left by assumption.
    replace (1 / 2) with (/ 2) by lra. apply Rpower_sqrt. assumption.
  - intros epsilon epsilon' [He' He].
    assert (Hpos : 0 < epsilon) by lra.
    rewrite !derive_eta_pos_gamma by assumption.
    rewrite !exponent_denominator_pos by assumption.
    assert (Hlnle : ln (1 / epsilon) <= ln (1 / epsilon')).
    { unfold Rdiv. rewrite !Rmult_1_l, !ln_Rinv by assumption.
      assert (ln epsilon' <= ln epsilon); [| lra].
      destruct He as [Hlt | Heq]; [left; apply ln_increasing; assumption | rewrite Heq; lra]. }
    assert (Hd : 2 <= Rmax 2 (ln (1 / epsilon)) <= Rmax 2 (ln (1 / epsilon'))).
    { split; [apply Rmax_l |]. apply Rle_max_compat_l. assumption. }
    set (d := Rmax 2 (ln (1 / epsilon))) in *.
    set (d' := Rmax 2 (ln (1 / epsilon'))) in *.
    assert (Hinv : 1 / d' <= 1 / d).
    { unfold Rdiv. rewrite !Rmult_1_l. apply Rinv_le_contravar; lra. }
    assert (Hinv0 : 0 < 1 / d').
    { unfold Rdiv. rewrite Rmult_1_l. apply Rinv_0_lt_compat. lra. }
    unfold Rpower.
    destruct (Rle_lt_or_eq_dec _ _ Hinv) as [Hlt | Heq].
    + left. apply exp_increasing. nra.
    + rewrite Heq. lra.
Qed.

Section PlannerConstruction.

Context {State Action : Type} `{GM : GenerativeModel State Action}.

Local Abbreviation World := (World State Action).

(** The planner a valid construction returns, and the store it leaves. *)
Lemma TrailBlazer_init_exact state gamma delta epsilon (w : World) (s : State) :
  states w !! state = Some s ->
  0 < gamma < 1 -> 0 < delta < 1 -> 0 < epsilon ->
  TrailBlazer_init state gamma delta epsilon w
  = Ok (mkTrailBlazer gamma delta epsilon (derive_eta gamma epsilon)
          (length (get_actions s)) 0 (derive_m gamma delta epsilon 0)
          (length (maxs w)),
        mkWorld (states w)
          (maxs w ++ [fresh_max state gamma delta 0 (derive_eta gamma epsilon)
                                (get_actions s) (length (avgs w))])
          (avgs w ++ map (fresh_avg state gamma delta 0 (derive_eta gamma epsilon)
                                    (length (get_actions s))) (get_actions s))
          (calls w)).
Proof.
  intros Hs [Hg0 Hg1] [Hd0 Hd1] He. unfold TrailBlazer_init.
  rewrite (Reqb_false epsilon 0) by lra.
  unfold bind at 1, get_state. rewrite Hs. cbn [of_option ret].
  rewrite (Reqb_false delta 0) by lra. rewrite (Rltb_false gamma 0) by lra.
  assert (Hinv : 0 < 1 / delta) by (apply Rdiv_lt_0_compat; lra).
  rewrite (Rleb_false (1 / delta) 0) by lra.
  assert (Hden : 0 < (1 - gamma) ^ 2 * epsilon ^ 2).
  { apply Rmult_lt_0_compat; apply pow2_pos; lra. }
  rewrite (Rleb_false _ 0 Hden).
  unfold bind. rewrite (MaxNode_init_exact state _ _ _ _ w s Hs). reflexivity.
Qed.

(** X12.  For valid gamma, delta and epsilon [TrailBlazer.__init__] makes
    no generative-model call and appends to the store exactly the root
    MaxNode and one fresh AvgNode per action of the root state, all built
    with alpha = 0 and the derived eta; the planner records K, eta and m as
    derived. *)
Theorem TrailBlazer_init_builds state gamma delta epsilon (w : World) (s : State) :
  states w !! state = Some s ->
  0 < gamma < 1 -> 0 < delta < 1 -> 0 < epsilon ->
  TrailBlazer_init state gamma delta epsilon w
  = Ok (mkTrailBlazer gamma delta epsilon (derive_eta gamma epsilon)
          (length (get_actions s)) 0 (derive_m gamma delta epsilon 0)
          (length (maxs w)),
        mkWorld (states w)
          (maxs w ++ [fresh_max state gamma delta 0 (derive_eta gamma epsilon)
                                (get_actions s) (length (avgs w))])
          (avgs w ++ map (fresh_avg state gamma delta 0 (derive_eta gamma epsilon)
                                    (length (get_actions s))) (get_actions s))
          (calls w)).
Proof. apply TrailBlazer_init_exact. Qed.

End PlannerConstruction.

(** ** A float budget *)

Section FloatBudget.

Context {State Action : Type} `{GM : GenerativeModel State Action}.

Local Abbreviation World := (World State Action).
Local Abbreviation AvgNode := (AvgNode Action).
Local Abbreviation mono := (@mono State Action).

Tactic Notation "inv_bind" hyp(H) "as" ident(a) ident(w1) ident(H1) :=
  apply bind_ok in H as (a & w1 & H1 & H).

(** X16.  A float budget that is not a whole number can be used once only:
    after a call of [AvgNode.run] with it has returned past the early exit,
    the cache holds more than m samples, and every later call with the same
    budget (and an epsilon below the early exit) reaches the slice of line
    65 and raises TypeError. *)
Theorem float_budget_not_reusable fuel fuel' a x epsilon epsilon'
    (w w' : World) (self : AvgNode) v :
  (forall k : nat, INR k <> x) ->
  avgs w !! a = Some self ->
  epsilon < 1 / (1 - a_gamma self) ->
  epsilon' < 1 / (1 - a_gamma self) ->
  run fuel (CallAvg a (PyFloat x) epsilon) w = Ok (v, w') ->
  run (S fuel') (CallAvg a (PyFloat x) epsilon') w' = Raise TypeError.
Proof.
  intros Hx Ha He He' H.
  destruct fuel as [| fuel]; [discriminate |].
  rewrite run_avg_unfold in H. unfold AvgNode_run in H.
  inv_bind H as self0 w0 H0. apply get_avg_ok in H0 as [Ha0 ->].
  rewrite Ha in Ha0. injection Ha0 as <-.
  rewrite (Rleb_false _ _ He) in H.
  inv_bind H as active w1 H1.
  destruct (active_nodes_cache fuel a (PyFloat x) w w1 active H1) as (self1 & Ha1 & Hlen).
  assert (Hext0 : ext w w1).
  { pose proof (mono_active_nodes any_exn fuel a (PyFloat x) I I w) as Hm.
    rewrite H1 in Hm. exact Hm. }
  destruct (group active) as [uniques counts].
  inv_bind H as mu w2 H2.
  assert (Hext : ext w1 w').
  { pose proof (mono_avg_children any_exn (run fuel) uniques counts (PyFloat x) epsilon
                  (a_gamma self) 0 I (mono_run fuel) w1) as Hm1.
    rewrite H2 in Hm1.
    pose proof (mono_avg_result any_exn a mu I I w2) as Hm2.
    rewrite H in Hm2. eapply ext_trans; eassumption. }
  destruct Hext0 as (_ & _ & Hav0 & _).
  destruct (Hav0 a self Ha) as (self1' & Ha1' & Hle0).
  rewrite Ha1 in Ha1'. injection Ha1' as <-.
  destruct Hext as (_ & _ & Hav & _).
  destruct (Hav a self1 Ha1) as (self' & Ha' & Hle).
  assert (Hg : a_gamma self' = a_gamma self).
  { destruct Hle as (_ & _ & -> & _). destruct Hle0 as (_ & _ & -> & _). reflexivity. }
  apply (float_budget_slice_raises fuel' a x epsilon' w' self' Ha').
  - rewrite Hg. exact He'.
  - cbn [num_val] in Hlen.
    assert (Hge : x <= INR (length (sampled_nodes self1))).
    { destruct (Rle_dec x (INR (length (sampled_nodes self1)))) as [Hy | Hn]; [exact Hy |].
      rewrite Rltb_true in Hlen by lra. discriminate. }
    assert (Hne := Hx (length (sampled_nodes self1))).
    assert (Hpre : (length (sampled_nodes self1) <= length (sampled_nodes self'))%nat).
    { apply prefix_length. apply Hle. }
    apply le_INR in Hpre. lra.
Qed.

End FloatBudget.

(** ** DummyState *)

Lemma DummyState_absorbing (num action : Z) :
  num <> 0%Z -> DummyState_step num action = (Some 0, num).
Proof.
  intros Hn. unfold DummyState_step.
  destruct (Z.eqb_spec num 0) as [-> | _]; [contradiction | reflexivity].
Qed.

Lemma DummyState_episode_absorbing (num : Z) (actions : list Z) :
  num <> 0%Z -> DummyState_episode num actions = (Some 0, num).
Proof.
  intros Hn. induction actions as [| action rest IH]; cbn [DummyState_episode].
  - reflexivity.
  - rewrite (DummyState_absorbing num action Hn), IH. f_equal. f_equal. lra.
Qed.

(** X13.  [DummyState.step]: every state other than 0 is absorbing with
    reward 0, a listed action from state 0 leads to state action + 1, and the
    rewards of any sequence of listed actions add up to 1 when the sequence
    starts in state 0 with action 1, and to 0 otherwise; the method returns
    a reward for every listed action. *)
Theorem DummyState_return (num : Z) (actions : list Z) :
  (forall action, action ∈ actions -> action ∈ DummyState_get_actions) ->
  (forall action, action ∈ DummyState_get_actions ->
     exists reward, DummyState_step num action
                    = (Some reward, if (num =? 0)%Z then (action + 1)%Z else num)) /\
  fst (DummyState_episode num actions)
  = Some (match actions with
          | action :: _ => if ((num =? 0) && (action =? 1))%Z then 1 else 0
          | [] => 0
          end).
Proof.
  intros Hlegal. split.
  - intros action Ha. unfold DummyState_get_actions in Ha.
    destruct (Z.eqb_spec num 0) as [-> | Hn].
    + unfold DummyState_step. cbn [Z.eqb negb].
      apply elem_of_cons in Ha as [-> | Ha]; [eexists; reflexivity |].
      apply elem_of_cons in Ha as [-> | Ha]; [eexists; reflexivity |].
      apply list_elem_of_singleton in Ha as ->. eexists; reflexivity.
    + rewrite (DummyState_absorbing num action Hn). eexists; reflexivity.
  - destruct actions as [| action rest]; [reflexivity |].
    cbn [DummyState_episode].
    destruct (Z.eqb_spec num 0) as [-> | Hn].
    + assert (Ha : action ∈ DummyState_get_actions).
      { apply Hlegal. apply elem_of_cons. left. reflexivity. }
      unfold DummyState_get_actions in Ha. unfold DummyState_step. cbn [Z.eqb negb andb].
      apply elem_of_cons in Ha as [-> | Ha];
        [| apply elem_of_cons in Ha as [-> | Ha];
           [| apply list_elem_of_singleton in Ha as ->]];
        cbn [Z.eqb Pos.eqb]; rewrite DummyState_episode_absorbing by lia;
        cbn [fst]; f_equal; lra.
    + rewrite (DummyState_absorbing num action Hn).
      rewrite DummyState_episode_absorbing by assumption. cbn [fst andb]. f_equal. lra.
Qed.

Lemma dummy_rewards_in_unit : @rewards_in_unit Z Z dummy.
Proof.
  intros num action n. cbn [step dummy fst]. unfold DummyState_step.
  destruct (negb (num =? 0)%Z); [cbn; lra |].
  destruct (action =? 0)%Z; [cbn; lra |].
  destruct (action =? 1)%Z; [cbn; lra |].
  destruct (action =? 2)%Z; cbn; lra.
Qed.

(** X14.  On DummyState the deduplication always finds the successor
    again: an AvgNode without samples ends a sampling phase of budget
    m >= 1 with m references to one new MaxNode, which has the three
    actions of [get_actions]. *)
Theorem DummyState_one_child fuel a z (w w' : World Z Z) (A : AvgNode Z) (num : Z) u :
  avgs w !! a = Some A ->
  states w !! a_state A = Some num ->
  sampled_nodes A = [] ->
  (1 <= z)%Z ->
  @sample_loop Z Z dummy fuel a (PyInt z) w = Ok (u, w') ->
  maxs w' = maxs w ++ [fresh_max (GM:=dummy) (length (states w)) (a_gamma A)
                                 (a_delta A) (a_alpha A) (a_eta A)
                                 DummyState_get_actions (length (avgs w))] /\
  exists A', avgs w' !! a = Some A' /\
             sampled_nodes A' = replicate (Z.to_nat z) (length (maxs w)).
Proof.
  intros Ha Hs Hsam Hz H.
  apply (dedup_from_empty (GM:=dummy) fuel a z w w' A num
           (snd (DummyState_step num (a_action A))) u Ha Hs Hsam Hz);
    [reflexivity | apply Z.eqb_refl | exact H].
Qed.

(** X15.  The rewards of DummyState lie in [0, 1], so on it every estimate
    of a call with an integer budget lies in [0, 1 / (1 - gamma)]. *)
Theorem DummyState_estimate_range (g : R) fuel c (w w' : World Z Z) v :
  0 < g < 1 ->
  unit_store g w ->
  int_budget c ->
  @run Z Z dummy fuel c w = Ok (v, w') ->
  0 <= v <= 1 / (1 - g).
Proof.
  intros Hg Hu Hc H.
  assert (Hg' : 0 <= g < 1) by lra.
  destruct (run_range (GM:=dummy) g Hg' dummy_rewards_in_unit fuel c w w' v Hu Hc H)
    as [Hv _]. exact Hv.
Qed.

(** ** The elimination loop ends *)

Lemma ln_lt_self (y : R) : 0 < y -> ln y < y.
Proof.
  intros Hy. rewrite <- (ln_exp y) at 2. apply ln_increasing; [assumption |].
  pose proof (exp_ineq1 y) as H. lra.
Qed.

Lemma ln_le_sqrt (x : R) : 0 < x -> ln x <= 2 * sqrt x.
Proof.
  intros Hx. assert (Hs : 0 < sqrt x) by (apply sqrt_lt_R0; assumption).
  rewrite <- (sqrt_sqrt x) at 1 by lra.
  rewrite ln_mult by assumption.
  pose proof (ln_lt_self (sqrt x) Hs). lra.
Qed.

(** The radius of a round tends to 0 as the round number grows. *)
Lemma radius_vanishes (A c g t : R) :
  0 < A -> 0 < g -> 0 < t ->
  exists L0 : nat, forall l : nat, (L0 <= l)%nat -> (1 <= l)%nat ->
    g * sqrt ((ln (A * INR l) + c) / INR l) < t.
Proof.
  intros HA Hg Ht.
  set (B := 2 * sqrt A + Rabs c + 1).
  assert (HB : 0 < B).
  { unfold B. pose proof (sqrt_pos A). pose proof (Rabs_pos c). lra. }
  set (q := (t / g) * (t / g)).
  assert (Htg : 0 < t / g) by (apply Rdiv_lt_0_compat; assumption).
  assert (Hq : 0 < q) by (unfold q; nra).
  set (D := B / q).
  assert (HD : 0 < D) by (apply Rdiv_lt_0_compat; assumption).
  destruct (INR_unbounded (D * D)) as [L0 HL0].
  exists L0. intros l Hl H1.
  assert (Hl1 : 1 <= INR l) by (apply (le_INR 1); assumption).
  assert (HlD : D * D < INR l).
  { apply Rlt_le_trans with (INR L0); [assumption | apply le_INR; assumption]. }
  assert (Hsl : D < sqrt (INR l)).
  { rewrite <- (sqrt_square D) by lra. apply sqrt_lt_1_alt. split; [nra | assumption]. }
  assert (Hsl1 : 1 <= sqrt (INR l)).
  { rewrite <- sqrt_1. apply sqrt_le_1_alt. assumption. }
  assert (Hss : sqrt (INR l) * sqrt (INR l) = INR l) by (apply sqrt_sqrt; lra).
  assert (Hln : ln (A * INR l) <= 2 * sqrt A * sqrt (INR l)).
  { pose proof (ln_le_sqrt (A * INR l)) as H. rewrite sqrt_mult in H by lra.
    assert (0 < A * INR l) by nra. lra. }
  assert (Hc : c <= Rabs c) by apply Rle_abs.
  assert (Hnum : ln (A * INR l) + c <= B * sqrt (INR l)).
  { unfold B. pose proof (Rabs_pos c). pose proof (sqrt_pos A). nra. }
  assert (Hfrac : (ln (A * INR l) + c) / INR l < q).
  { apply Rle_lt_trans with (B * sqrt (INR l) / INR l).
    - unfold Rdiv. apply Rmult_le_compat_r; [| assumption].
      left. apply Rinv_0_lt_compat. lra.
    - rewrite <- Hss at 2.
      replace (B * sqrt (INR l) / (sqrt (INR l) * sqrt (INR l))) with (B / sqrt (INR l))
        by (field; lra).
      apply Rmult_lt_reg_r with (sqrt (INR l)); [lra |].
      replace (B / sqrt (INR l) * sqrt (INR l)) with B by (field; lra).
      assert (B = D * q) by (unfold D; field; lra). nra. }
  assert (Hsq : sqrt ((ln (A * INR l) + c) / INR l) < t / g).
  { rewrite <- (sqrt_square (t / g)) by lra. fold q.
    destruct (Rle_lt_dec 0 ((ln (A * INR l) + c) / INR l)) as [Hpos | Hneg].
    - apply sqrt_lt_1_alt. split; assumption.
    - rewrite sqrt_neg_0 by lra. apply sqrt_lt_R0. assumption. }
  apply Rmult_lt_reg_r with (/ g); [apply Rinv_0_lt_compat; assumption |].
  replace (g * sqrt ((ln (A * INR l) + c) / INR l) * / g)
    with (sqrt ((ln (A * INR l) + c) / INR l)) by (field; lra).
  exact Hsq.
Qed.

Section LoopEnds.

Context {State Action : Type} `{GM : GenerativeModel State Action}.

Local Abbreviation World := (World State Action).
Local Abbreviation MaxNode := (MaxNode Action).
Local Abbreviation M := (M State Action).

Tactic Notation "inv_bind" hyp(H) "as" ident(a) ident(w1) ident(H1) :=
  apply bind_ok in H as (a & w1 & H1 & H).

Lemma bind_not_out_of_fuel {A B} (c : M A) (k : A -> M B) (w : World) :
  c w <> OutOfFuel -> (forall a w1, c w = Ok (a, w1) -> k a w1 <> OutOfFuel) ->
  bind c k w <> OutOfFuel.
Proof.
  intros Hc Hk. unfold bind. destruct (c w) as [[a w1] | e | |] eqn:E.
  - apply Hk. reflexivity.
  - discriminate.
  - discriminate.
  - contradiction.
Qed.

Lemma estimate_all_not_out_of_fuel (rec : Call -> M R) cands cnt eps (w : World) :
  (forall c w, rec c w <> OutOfFuel) ->
  estimate_all rec cands cnt eps w <> OutOfFuel.
Proof.
  intros Hrec. revert w. induction cands as [| b rest IH]; intros w; cbn [estimate_all].
  - discriminate.
  - apply bind_not_out_of_fuel; [apply Hrec |]. intros v w1 _.
    apply bind_not_out_of_fuel; [apply IH |]. intros vs w2 _. discriminate.
Qed.

Lemma py_max_not_out_of_fuel (mu : list (nat * R)) (w : World) : py_max mu w <> OutOfFuel.
Proof. destruct mu; cbn; discriminate. Qed.

(** A round either stops the run or leaves the loop variables of the next
    round. *)
Lemma elim_round_in_round (rec : Call -> M R) (self : MaxNode) epsilon st (w w' : World) st' :
  (1 <= count st)%nat ->
  elim_round rec self epsilon st w = Ok (st', w') ->
  count st' = S (count st) /\ in_round self epsilon st'.
Proof.
  intros Hc H. unfold elim_round in H.
  destruct (Rleb _ 0) eqn:Earg; [discriminate |].
  destruct (Rltb _ 0) eqn:Esqr; [discriminate |].
  inv_bind H as mu w1 H1. inv_bind H as best w2 H2.
  apply ret_ok in H as [-> _]. cbn [count lU].
  split; [lia |]. right. cbn [count lU].
  replace (count st + 1 - 1)%nat with (count st) by lia.
  split; [lia |]. split; [reflexivity |].
  destruct (Rle_dec (INR (m_K self) * INR (count st) / (m_delta self * epsilon)) 0)
    as [Hle | Hgt]; [| lra].
  rewrite Rleb_true in Earg by assumption. discriminate.
Qed.

Lemma elim_loop_fuel (rec : Call -> M R) (self : MaxNode) epsilon (L0 : nat) :
  (forall c w, rec c w <> OutOfFuel) ->
  (forall l, (L0 <= l)%nat -> (1 <= l)%nat ->
     0 < INR (m_K self) * INR l / (m_delta self * epsilon) ->
     radius self epsilon l < (1 - m_eta self) * epsilon) ->
  forall fuel st (w : World),
    in_round self epsilon st ->
    (L0 + 2 <= fuel + count st)%nat ->
    elim_loop fuel rec self epsilon st w <> OutOfFuel /\
    forall st' w', elim_loop fuel rec self epsilon st w = Ok (st', w') ->
                   (count st' <= Nat.max (count st) (L0 + 2))%nat.
Proof.
  intros Hrec Hsmall. induction fuel as [| fuel IH]; intros st w Hin Hf.
  - cbn [elim_loop]. destruct (loop_test self epsilon st) eqn:Et.
    + exfalso. destruct Hin as [[_ Hc] | (Hc & HU & Harg)]; [lia |].
      unfold loop_test in Et. rewrite HU in Et.
      apply andb_prop in Et as [_ Et]. apply Rleb_spec in Et.
      assert (radius self epsilon (count st - 1) < (1 - m_eta self) * epsilon).
      { apply Hsmall; [lia | lia | assumption]. }
      lra.
    + split; [discriminate |]. intros st' w' H. apply ret_ok in H as [-> _]. lia.
  - cbn [elim_loop]. destruct (loop_test self epsilon st) eqn:Et.
    + assert (Hc1 : (1 <= count st)%nat) by (destruct Hin as [[_ ?] | (? & _)]; lia).
      assert (Hlt : (count st <= L0)%nat \/ (L0 < count st)%nat) by lia.
      destruct Hlt as [Hlt | Hlt].
      * split.
        -- apply bind_not_out_of_fuel.
           ++ unfold elim_round. destruct (Rleb _ 0); [discriminate |].
              destruct (Rltb _ 0); [discriminate |].
              apply bind_not_out_of_fuel; [apply estimate_all_not_out_of_fuel; exact Hrec |].
              intros mu w1 _. apply bind_not_out_of_fuel; [apply py_max_not_out_of_fuel |].
              intros best w2 _. discriminate.
           ++ intros st1 w1 H1.
              destruct (elim_round_in_round rec self epsilon st w w1 st1 Hc1 H1) as [Hc' Hin'].
              apply IH; [assumption | lia].
        -- intros st' w' H. inv_bind H as st1 w1 H1.
           destruct (elim_round_in_round rec self epsilon st w w1 st1 Hc1 H1) as [Hc' Hin'].
           destruct (IH st1 w1 Hin') as [_ Hb]; [lia |].
           specialize (Hb st' w' H). lia.
      * (* past L0: the test can only hold before the first round *)
        destruct Hin as [[HU Hc] | (Hc & HU & Harg)].
        -- split.
           ++ apply bind_not_out_of_fuel.
              ** unfold elim_round. destruct (Rleb _ 0); [discriminate |].
                 destruct (Rltb _ 0); [discriminate |].
                 apply bind_not_out_of_fuel;
                   [apply estimate_all_not_out_of_fuel; exact Hrec |].
                 intros mu w1 _. apply bind_not_out_of_fuel; [apply py_max_not_out_of_fuel |].
                 intros best w2 _. discriminate.
              ** intros st1 w1 H1.
                 destruct (elim_round_in_round rec self epsilon st w w1 st1 Hc1 H1)
                   as [Hc' Hin'].
                 apply IH; [assumption | lia].
           ++ intros st' w' H. inv_bind H as st1 w1 H1.
              destruct (elim_round_in_round rec self epsilon st w w1 st1 Hc1 H1)
                as [Hc' Hin'].
              destruct (IH st1 w1 Hin') as [_ Hb]; [lia |].
              specialize (Hb st' w' H). lia.
        -- exfalso. unfold loop_test in Et. rewrite HU in Et.
           apply andb_prop in Et as [_ Et]. apply Rleb_spec in Et.
           assert (radius self epsilon (count st - 1) < (1 - m_eta self) * epsilon).
           { apply Hsmall; [lia | lia | assumption]. }
           lra.
    + split; [discriminate |]. intros st' w' H. apply ret_ok in H as [-> _]. lia.
Qed.

(** X17.  The elimination loop of [MaxNode.run] ends: for gamma < 1,
    eta < 1 and epsilon > 0 there is a number L of rounds, depending on the
    node and on epsilon only, after which the radius U is below
    (1 - eta) * epsilon; whenever the calls of the children return, the loop
    returns (or stops with an error) within L rounds, with count <= L + 1. *)
Theorem elim_loop_ends (self : MaxNode) (epsilon : R) :
  m_gamma self < 1 -> m_eta self < 1 -> 0 < epsilon ->
  exists L : nat,
    forall (rec : Call -> M R), (forall c w, rec c w <> OutOfFuel) ->
    forall fuel (w : World), (L <= fuel)%nat ->
      let st0 := mkLoop (map snd (m_children self)) 1 None [] in
      elim_loop fuel rec self epsilon st0 w <> OutOfFuel /\
      forall st w', elim_loop fuel rec self epsilon st0 w = Ok (st, w') ->
                    (count st <= L + 1)%nat.
Proof.
  intros Hg He Heps.
  set (t := (1 - m_eta self) * epsilon).
  assert (Ht : 0 < t) by (unfold t; nra).
  assert (Hgp : 0 < 2 / (1 - m_gamma self)) by (apply Rdiv_lt_0_compat; lra).
  set (A := INR (m_K self) / (m_delta self * epsilon)).
  set (c := m_gamma self / (m_eta self - m_gamma self) + m_alpha self + 1).
  assert (Hsmall : exists L0 : nat, forall l, (L0 <= l)%nat -> (1 <= l)%nat ->
            0 < INR (m_K self) * INR l / (m_delta self * epsilon) ->
            radius self epsilon l < t).
  { destruct (Rlt_dec 0 A) as [HA | HA].
    - destruct (radius_vanishes A c (2 / (1 - m_gamma self)) t HA Hgp Ht) as [L0 HL0].
      exists L0. intros l Hl H1 _. specialize (HL0 l Hl H1). unfold radius.
      replace (INR (m_K self) * INR l / (m_delta self * epsilon)) with (A * INR l)
        by (unfold A, Rdiv; ring).
      replace (ln (A * INR l) + m_gamma self / (m_eta self - m_gamma self)
               + m_alpha self + 1) with (ln (A * INR l) + c) by (unfold c; ring).
      exact HL0.
    - exists 0%nat. intros l _ H1 Harg. exfalso. apply HA.
      assert (Hl : 0 < INR l) by (apply (lt_INR 0); lia).
      replace (INR (m_K self) * INR l / (m_delta self * epsilon)) with (A * INR l) in Harg
        by (unfold A, Rdiv; ring).
      nra. }
  destruct Hsmall as [L0 HL0].
  exists (L0 + 1)%nat. intros rec Hrec fuel w Hfuel st0.
  destruct (elim_loop_fuel rec self epsilon L0 Hrec HL0 fuel st0 w) as [H1 H2].
  - left. split; reflexivity.
  - unfold st0. cbn [count]. lia.
  - split; [exact H1 |]. intros st w' H. specialize (H2 st w' H).
    unfold st0 in H2. cbn [count] in H2. lia.
Qed.

End LoopEnds.

(** ** Models with one action per state *)

Section SingleAction.

Context {State Action : Type} `{GM : GenerativeModel State Action}.

Local Abbreviation World := (World State Action).
Local Abbreviation AvgNode := (AvgNode Action).
Local Abbreviation MaxNode := (MaxNode Action).
Local Abbreviation M := (M State Action).
Local Abbreviation mono := (@mono State Action).

Tactic Notation "inv_bind" hyp(H) "as" ident(a) ident(w1) ident(H1) :=
  apply bind_ok in H as (a & w1 & H1 & H).

Variables g e : R.
Hypothesis one_action : single_action.

Lemma find_node_returns nodes new_st (w : World) :
  (forall x, x ∈ nodes -> exists Mx, maxs w !! x = Some Mx /\
                                     (m_state Mx < length (states w))%nat) ->
  (new_st < length (states w))%nat ->
  exists r, find_node nodes new_st w = Ok (r, w) /\
            forall node, r = Some node -> node ∈ nodes.
Proof.
  intros Hn Hs. induction nodes as [| node rest IH]; cbn [find_node].
  - exists None. split; [reflexivity | discriminate].
  - destruct (Hn node) as (Mx & HMx & Hst); [apply elem_of_cons; left; reflexivity |].
    destruct (lookup_lt_is_Some_2 _ _ Hst) as [v Hv].
    destruct (lookup_lt_is_Some_2 _ _ Hs) as [v' Hv'].
    unfold bind, get_max, get_state. rewrite HMx. cbn [of_option ret].
    rewrite Hv. cbn [of_option ret]. rewrite Hv'. cbn [of_option ret].
    destruct (state_eq v v').
    + exists (Some node). split; [reflexivity |]. intros n Hn'. injection Hn' as <-.
      apply elem_of_cons. left. reflexivity.
    + destruct IH as (r & Hr & Hin).
      { intros x Hx. apply Hn. apply elem_of_cons. right. assumption. }
      exists r. split; [exact Hr |]. intros n Hn'. apply elem_of_cons. right.
      apply Hin. assumption.
Qed.

Lemma sample_once_returns a (w : World) (A : AvgNode) :
  one_child_store g e w ->
  avgs w !! a = Some A ->
  exists (w' : World) (A' : AvgNode),
    sample_once a w = Ok (tt, w') /\ one_child_store g e w' /\
    avgs w' !! a = Some A' /\
    length (sampled_nodes A') = S (length (sampled_nodes A)).
Proof.
  intros [Havg Hmax] Ha.
  destruct (Havg a A Ha) as (Hg & He & Hst & Hsam).
  assert (Hlt : (a < length (avgs w))%nat) by (eapply lookup_lt_Some; eassumption).
  destruct (lookup_lt_is_Some_2 _ _ Hst) as [v Hv].
  pose proof (sample_once_eq a w A v Ha Hv) as Heq. cbv zeta in Heq.
  set (v' := snd (step v (a_action A) (calls w))) in *.
  set (reward := fst (step v (a_action A) (calls w))) in *.
  destruct (find_node_returns (sampled_nodes A) (length (states w))
              (mkWorld (states w ++ [v']) (maxs w) (avgs w) (S (calls w))))
    as (r & Hr & Hin).
  { intros x Hx. cbn [maxs states]. specialize (Hsam x Hx).
    destruct (lookup_lt_is_Some_2 _ _ Hsam) as [Mx HMx]. exists Mx.
    split; [assumption |]. destruct (Hmax x Mx HMx) as (_ & Hs & _).
    rewrite length_app. cbn [length]. lia. }
  { cbn [states]. rewrite length_app. cbn [length]. lia. }
  rewrite Hr in Heq. destruct r as [node |].
  - eexists _, _. split; [exact Heq |]. split; [split |].
    + intros b B Hb. cbn [avgs states maxs] in *.
      destruct (decide (b = a)) as [-> | Hne].
      * rewrite list_lookup_insert_eq in Hb by assumption. injection Hb as <-.
        cbn [a_gamma a_eta a_state sampled_nodes].
        split; [assumption |]. split; [assumption |].
        split; [rewrite length_app; cbn [length]; lia |].
        intros x Hx. apply elem_of_app in Hx as [Hx | Hx]; [apply Hsam; assumption |].
        apply list_elem_of_singleton in Hx as ->. apply Hsam. apply Hin. reflexivity.
      * rewrite list_lookup_insert_ne in Hb by congruence.
        destruct (Havg b B Hb) as (? & ? & ? & ?).
        split; [assumption |]. split; [assumption |].
        split; [rewrite length_app; cbn [length]; lia | assumption].
    + intros x Mx HMx. cbn [avgs states maxs] in *.
      destruct (Hmax x Mx HMx) as (? & ? & act & c & ? & ?).
      split; [assumption |]. split; [rewrite length_app; cbn [length]; lia |].
      exists act, c. split; [assumption |]. rewrite length_insert. assumption.
    + split.
      * cbn [avgs]. apply list_lookup_insert_eq. assumption.
      * cbn [sampled_nodes]. rewrite length_app. cbn [length]. lia.
  - destruct (one_action v') as [act Hact].
    eexists _, _. split; [exact Heq |]. split; [split |].
    + intros b B Hb. cbn [avgs states maxs] in *.
      destruct (decide (b = a)) as [-> | Hne].
      * rewrite list_lookup_insert_eq in Hb by (rewrite length_app; lia).
        injection Hb as <-.
        cbn [a_gamma a_eta a_state sampled_nodes].
        split; [assumption |]. split; [assumption |].
        split; [rewrite length_app; cbn [length]; lia |].
        intros x Hx. rewrite length_app. cbn [length].
        apply elem_of_app in Hx as [Hx | Hx]; [specialize (Hsam x Hx); lia |].
        apply list_elem_of_singleton in Hx as ->. lia.
      * rewrite list_lookup_insert_ne in Hb by congruence.
        rewrite !length_app. cbn [length].
        apply lookup_app_Some in Hb as [Hb | [Hge Hb]].
        -- destruct (Havg b B Hb) as (? & ? & ? & Hx).
           split; [assumption |]. split; [assumption |]. split; [lia |].
           intros x Hx'. specialize (Hx x Hx'). lia.
        -- rewrite Hact in Hb. cbn [map] in Hb.
           destruct (b - length (avgs w))%nat as [| n]; [| discriminate].
           cbn in Hb. injection Hb as <-. unfold fresh_avg.
           cbn [a_gamma a_eta a_state sampled_nodes].
           split; [assumption |]. split; [assumption |]. split; [lia |].
           intros x Hx. apply elem_of_nil in Hx. destruct Hx.
    + intros x Mx HMx. cbn [avgs states maxs] in *.
      rewrite length_insert, !length_app. cbn [length].
      apply lookup_app_Some in HMx as [HMx | [Hge HMx]].
      * destruct (Hmax x Mx HMx) as (? & ? & act' & c & ? & ?).
        split; [assumption |]. split; [lia |].
        exists act', c. split; [assumption |]. lia.
      * destruct (x - length (maxs w))%nat as [| n]; [| discriminate].
        cbn in HMx. injection HMx as <-. rewrite Hact.
        unfold fresh_max, dict_of. cbn [m_eta m_state m_children length seq zip zip_with
                                        fold_left dict_set fst snd map].
        split; [assumption |]. split; [lia |].
        exists act, (length (avgs w)). split; [reflexivity |]. lia.
    + split.
      * cbn [avgs]. apply list_lookup_insert_eq. rewrite length_app. lia.
      * cbn [sampled_nodes]. rewrite length_app. cbn [length]. lia.
Qed.

Lemma sample_loop_returns a m (k : nat) :
  num_val m <= INR k ->
  forall fuel (w : World) (A : AvgNode),
    one_child_store g e w ->
    avgs w !! a = Some A ->
    (k <= fuel + length (sampled_nodes A))%nat ->
    exists (w' : World) (A' : AvgNode),
      sample_loop fuel a m w = Ok (tt, w') /\ one_child_store g e w' /\
      avgs w' !! a = Some A' /\
      num_val m <= INR (length (sampled_nodes A')) /\
      (length (sampled_nodes A') <= Nat.max (length (sampled_nodes A)) k)%nat.
Proof.
  intros Hk. induction fuel as [| fuel IH]; intros w A Hw Ha Hf; cbn [sample_loop];
    unfold bind at 1; rewrite (get_avg_some w a A Ha).
  - rewrite Rltb_false.
    + exists w, A. split; [reflexivity |]. split; [assumption |].
      split; [assumption |]. split; [| lia].
      apply Rle_trans with (INR k); [assumption | apply le_INR; lia].
    + apply Rle_trans with (INR k); [assumption | apply le_INR; lia].
  - destruct (Rltb (INR (length (sampled_nodes A))) (num_val m)) eqn:E.
    + destruct (sample_once_returns a w A Hw Ha) as (w1 & A1 & H1 & Hw1 & Ha1 & Hlen1).
      unfold bind at 1. rewrite H1.
      destruct (IH w1 A1 Hw1 Ha1) as (w' & A' & H & Hw' & Ha' & Hm & Hlen); [lia |].
      exists w', A'. split; [assumption |]. split; [assumption |].
      split; [assumption |]. split; [assumption |].
      apply Rltb_spec in E.
      assert (length (sampled_nodes A) < k)%nat; [| lia].
      apply INR_lt. lra.
    + exists w, A. split; [reflexivity |]. split; [assumption |].
      split; [assumption |]. split; [| lia].
      destruct (Rle_dec (num_val m) (INR (length (sampled_nodes A)))) as [Hy | Hn];
        [exact Hy |].
      rewrite Rltb_true in E by lra. discriminate.
Qed.

Lemma active_nodes_returns fuel a m (k : nat) (w : World) (A : AvgNode) :
  one_child_store g e w ->
  avgs w !! a = Some A ->
  budget_fits m (length (sampled_nodes A)) k ->
  (k <= fuel)%nat ->
  exists active (w' : World) (A' : AvgNode),
    active_nodes fuel a m w = Ok (active, w') /\ one_child_store g e w' /\
    avgs w' !! a = Some A' /\
    (1 <= length (sampled_nodes A'))%nat /\
    (length active <= k)%nat /\
    forall x, x ∈ active -> (x < length (maxs w'))%nat.
Proof.
  intros Hw Ha Hm Hf. unfold active_nodes, bind at 1. rewrite (get_avg_some w a A Ha).
  destruct (Rltb (num_val m) (INR (length (sampled_nodes A)))) eqn:E.
  - apply Rltb_spec in E. destruct m as [z | x]; cbn [budget_fits num_val] in *.
    + destruct Hm as [Hz ->]. cbn [py_slice_to].
      destruct (Z.leb_spec 0 z) as [_ | Hneg]; [| lia].
      rewrite INR_IZR_INZ in E. apply lt_IZR in E.
      exists (take (Z.to_nat z) (sampled_nodes A)), w, A.
      split; [reflexivity |]. split; [assumption |]. split; [assumption |].
      split; [lia |]. split; [rewrite length_take; lia |].
      intros x Hx. destruct Hw as [Havg _].
      destruct (Havg a A Ha) as (_ & _ & _ & Hsam). apply Hsam.
      eapply elem_of_sublist; [exact Hx | apply sublist_take].
    + lra.
  - assert (Hle : num_val m <= INR (length (sampled_nodes A))
                  \/ INR (length (sampled_nodes A)) <= num_val m) by lra.
    assert (Hge : INR (length (sampled_nodes A)) <= num_val m).
    { destruct (Rle_dec (INR (length (sampled_nodes A))) (num_val m)) as [Hy | Hn];
        [exact Hy |]. rewrite Rltb_true in E by lra. discriminate. }
    assert (Hk : num_val m <= INR k /\ 0 < num_val m).
    { destruct m as [z | x]; cbn [budget_fits num_val] in *.
      - destruct Hm as [Hz ->]. rewrite INR_IZR_INZ, Z2Nat.id by lia.
        split; [lra |]. apply IZR_lt. lia.
      - lra. }
    destruct Hk as [Hk Hpos].
    assert (Hlenk : (length (sampled_nodes A) <= k)%nat).
    { apply INR_le. lra. }
    destruct (sample_loop_returns a m k Hk fuel w A Hw Ha)
      as (w' & A' & H & Hw' & Ha' & Hm' & Hlen'); [lia |].
    unfold bind at 1. rewrite H. unfold bind at 1. rewrite (get_avg_some w' a A' Ha').
    exists (sampled_nodes A'), w', A'.
    split; [reflexivity |]. split; [assumption |]. split; [assumption |].
    split; [| split; [lia |]].
    + assert (Hp : INR 0 < INR (length (sampled_nodes A'))) by (cbn [INR]; lra).
      apply INR_lt in Hp. lia.
    + intros x Hx. destruct Hw' as [Havg _].
      destruct (Havg a A' Ha') as (_ & _ & _ & Hsam). apply Hsam. assumption.
Qed.

Lemma elem_of_le_sum_list (c : nat) (l : list nat) : c ∈ l -> (c <= sum_list l)%nat.
Proof.
  induction l as [| x l IH]; intros H.
  - apply elem_of_nil in H. destruct H.
  - change (sum_list (x :: l)) with (x + sum_list l)%nat.
    apply elem_of_cons in H as [-> | H]; [lia |].
    specialize (IH H). lia.
Qed.

Lemma avg_children_returns fuel uniques m epsilon (k : nat) :
  (forall u c (w : World),
     one_child_store g e w -> (u < length (maxs w))%nat -> (1 <= c <= k)%nat ->
     exists v (w' : World),
       run fuel (CallMax u (PyInt (Z.of_nat c)) (epsilon / g)) w = Ok (v, w') /\
       one_child_store g e w') ->
  forall counts mu (w : World),
    length uniques = length counts ->
    (forall c, c ∈ counts -> (1 <= c <= k)%nat) ->
    one_child_store g e w ->
    (forall u, u ∈ uniques -> (u < length (maxs w))%nat) ->
    exists v (w' : World),
      avg_children (run fuel) uniques counts m epsilon g mu w = Ok (v, w') /\
      one_child_store g e w' /\ ext w w'.
Proof.
  intros Hchild. induction uniques as [| u us IH]; intros counts mu w Hlen Hc Hw Hu;
    cbn [avg_children].
  - exists mu, w. split; [reflexivity |]. split; [assumption | apply ext_refl].
  - destruct counts as [| c cs]; [discriminate |].
    destruct (Hchild u c w Hw) as (v1 & w1 & H1 & Hw1).
    { apply Hu. apply elem_of_cons. left. reflexivity. }
    { apply Hc. apply elem_of_cons. left. reflexivity. }
    unfold bind at 1. rewrite H1.
    pose proof (run_ext _ _ _ _ _ H1) as Hext1.
    destruct (IH cs (mu + INR c / num_val m * v1) w1) as (v & w' & H & Hw' & Hext).
    + cbn [length] in Hlen. lia.
    + intros c' Hc'. apply Hc. apply elem_of_cons. right. assumption.
    + assumption.
    + intros u' Hu'. destruct Hext1 as (_ & Hpre & _).
      apply prefix_length in Hpre.
      assert (u' < length (maxs w))%nat; [| lia].
      apply Hu. apply elem_of_cons. right. assumption.
    + exists v, w'. split; [assumption |]. split; [assumption |].
      eapply ext_trans; eassumption.
Qed.

Lemma MaxNode_run_returns fuel x m epsilon (w : World) :
  one_child_store g e w ->
  (x < length (maxs w))%nat ->
  (forall a (A : AvgNode), avgs w !! a = Some A ->
     exists v (w' : World),
       run fuel (CallAvg a m (e * epsilon)) w = Ok (v, w') /\ one_child_store g e w') ->
  exists v (w' : World),
    run (S fuel) (CallMax x m epsilon) w = Ok (v, w') /\ one_child_store g e w'.
Proof.
  intros Hw Hx Hchild.
  destruct (lookup_lt_is_Some_2 _ _ Hx) as [Mx HMx].
  destruct Hw as [Havg Hmax].
  destruct (Hmax x Mx HMx) as (He & _ & act & a & Hch & Ha).
  destruct (lookup_lt_is_Some_2 _ _ Ha) as [A HA].
  destruct (Hchild a A HA) as (v & w' & H & Hw').
  exists v, w'. split; [| assumption].
  rewrite run_max_unfold. unfold MaxNode_run, bind at 1.
  rewrite (get_max_some w x Mx HMx). rewrite Hch. cbn [map snd].
  assert (Hloop : elim_loop fuel (run fuel) Mx epsilon (mkLoop [a] 1 None []) w
                  = Ok (mkLoop [a] 1 None [], w)).
  { destruct fuel; reflexivity. }
  unfold bind at 1. rewrite Hloop. unfold max_result. cbn [candidates length Nat.ltb Nat.leb].
  rewrite He. exact H.
Qed.

Hypothesis g_range : 0 < g < 1.
Hypothesis e_above : g < e.

Lemma AvgNode_run_returns (n : nat) :
  forall fuel a m (k : nat) epsilon (w : World) (A : AvgNode),
    one_child_store g e w ->
    avgs w !! a = Some A ->
    budget_fits m (length (sampled_nodes A)) k ->
    0 < epsilon ->
    1 / (1 - g) <= epsilon * (e / g) ^ n ->
    (2 * n + k + 1 <= fuel)%nat ->
    exists v (w' : World),
      run fuel (CallAvg a m epsilon) w = Ok (v, w') /\ one_child_store g e w'.
Proof.
  induction n as [| n IH]; intros fuel a m k epsilon w A Hw Ha Hm Heps Hdepth Hfuel;
    (destruct fuel as [| fuel]; [lia |]);
    rewrite run_avg_unfold; unfold AvgNode_run, bind at 1;
    rewrite (get_avg_some w a A Ha);
    pose proof Hw as [Havg _]; destruct (Havg a A Ha) as (Hg & _); rewrite Hg.
  - rewrite Rleb_true by (cbn [pow] in Hdepth; lra).
    exists 0, w. split; [reflexivity | assumption].
  - destruct (Rleb (1 / (1 - g)) epsilon) eqn:E.
    + exists 0, w. split; [reflexivity | assumption].
    + destruct (active_nodes_returns fuel a m k w A Hw Ha Hm)
        as (active & w1 & A1 & H1 & Hw1 & Ha1 & Hlen1 & Hact & Hval); [lia |].
      unfold bind at 1. rewrite H1.
      pose proof (group_grouped active) as (Hgl & _ & Hmem & _ & Hsum).
      destruct (group active) as [uniques counts] eqn:Egroup. cbn [fst snd] in *.
      destruct (avg_children_returns fuel uniques m epsilon k) with
        (counts := counts) (mu := 0) (w := w1) as (mu & w2 & H2 & Hw2 & Hext2).
      * intros u c w0 Hw0 Hu Hc.
        destruct fuel as [| fuel]; [lia |].
        apply MaxNode_run_returns; [assumption | assumption |].
        intros a' A' Ha'.
        apply (IH fuel a' (PyInt (Z.of_nat c)) c (e * (epsilon / g)) w0 A' Hw0 Ha').
        -- cbn [budget_fits]. split; [lia | rewrite Nat2Z.id; reflexivity].
        -- apply Rmult_lt_0_compat; [lra | apply Rdiv_lt_0_compat; lra].
        -- cbn [pow] in Hdepth.
           replace (e * (epsilon / g) * (e / g) ^ n)
             with (epsilon * (e / g * (e / g) ^ n)) by (field; lra).
           exact Hdepth.
        -- lia.
      * assumption.
      * intros c Hc. split.
        -- eapply grouped_counts_pos; [apply (group_grouped active) |].
           rewrite Egroup. exact Hc.
        -- apply elem_of_le_sum_list in Hc. lia.
      * assumption.
      * intros u Hu. apply Hval. apply Hmem. assumption.
      * unfold bind at 1. rewrite H2.
        destruct Hext2 as (_ & _ & Hav & _).
        destruct (Hav a A1 Ha1) as (A2 & Ha2 & Hle).
        assert (Hlen2 : (1 <= length (sampled_nodes A2))%nat).
        { destruct Hle as (_ & _ & _ & _ & _ & _ & _ & Hpre).
          apply prefix_length in Hpre. lia. }
        unfold avg_result, bind at 1. rewrite (get_avg_some w2 a A2 Ha2).
        destruct (length (sampled_nodes A2)) as [| len] eqn:El; [lia |].
        eexists _, w2. split; [reflexivity | assumption].
Qed.

Lemma depth_exists (epsilon : R) :
  0 < epsilon -> exists n : nat, 1 / (1 - g) <= epsilon * (e / g) ^ n.
Proof.
  intros Heps.
  assert (Hrho : 1 < e / g).
  { apply Rmult_lt_reg_r with g; [lra |].
    replace (e / g * g) with e by (field; lra). lra. }
  destruct (Pow_x_infinity (e / g)) with (b := 1 / (1 - g) / epsilon) as [N HN].
  { rewrite Rabs_pos_eq by lra. lra. }
  exists N. specialize (HN N (Nat.le_refl N)).
  assert (Hpow : 0 < (e / g) ^ N) by (apply pow_lt; lra).
  rewrite Rabs_pos_eq in HN by lra.
  apply Rmult_le_reg_r with (/ epsilon); [apply Rinv_0_lt_compat; assumption |].
  replace (epsilon * (e / g) ^ N * / epsilon) with ((e / g) ^ N) by (field; lra).
  unfold Rdiv in HN at 1. lra.
Qed.

Lemma run_returns c (k : nat) (w : World) :
  one_child_store g e w ->
  target_allocated c w ->
  (forall a (A : AvgNode), avgs w !! a = Some A ->
     budget_fits (budget c) (length (sampled_nodes A)) k) ->
  0 < precision c ->
  exists N : nat, forall fuel, (N <= fuel)%nat ->
    exists v (w' : World), run fuel c w = Ok (v, w') /\ one_child_store g e w'.
Proof.
  intros Hw Ht Hm Heps. destruct c as [x m epsilon | a m epsilon];
    cbn [target_allocated precision budget] in *.
  - assert (He : 0 < e * epsilon) by (apply Rmult_lt_0_compat; lra).
    destruct (depth_exists (e * epsilon) He) as [n Hn].
    exists (2 * n + k + 2)%nat. intros fuel Hfuel.
    destruct fuel as [| fuel]; [lia |].
    apply MaxNode_run_returns; [assumption | assumption |].
    intros a A HA.
    apply (AvgNode_run_returns n fuel a m k (e * epsilon) w A Hw HA (Hm a A HA) He Hn). lia.
  - destruct (lookup_lt_is_Some_2 _ _ Ht) as [A HA].
    destruct (depth_exists epsilon Heps) as [n Hn].
    exists (2 * n + k + 1)%nat. intros fuel Hfuel.
    apply (AvgNode_run_returns n fuel a m k epsilon w A Hw HA (Hm a A HA) Heps Hn). lia.
Qed.

End SingleAction.

Section SingleActionTheorems.

Context {State Action : Type} `{GM : GenerativeModel State Action}.

Local Abbreviation World := (World State Action).

(** X18.  On a generative model whose states all have one action, every
    call of [run] with an integer budget m >= 1 and a positive epsilon
    returns a value: with 0 < gamma < eta and gamma < 1 the precision grows
    by the factor eta / gamma from one AvgNode to the next, so the recursion
    reaches the early exit; no exception is raised on the way. *)
Theorem single_action_returns (g e : R) c (w : World) :
  single_action ->
  0 < g < 1 -> g < e ->
  one_child_store g e w ->
  target_allocated c w ->
  int_budget c ->
  0 < precision c ->
  exists N : nat, forall fuel, (N <= fuel)%nat ->
    exists v (w' : World), run fuel c w = Ok (v, w') /\ one_child_store g e w'.
Proof.
  intros H1 Hg He Hw Ht (z & Hb & Hz) Heps.
  apply (run_returns g e H1 Hg He c (Z.to_nat z) w Hw Ht); [| assumption].
  intros a A _. rewrite Hb. cbn [budget_fits]. split; [assumption | reflexivity].
Qed.

Lemma derive_eta_above (gamma epsilon : R) :
  0 < gamma < 1 -> gamma < derive_eta gamma epsilon.
Proof.
  intros [Hg0 Hg1]. rewrite derive_eta_pos_gamma by assumption.
  pose proof (exponent_range epsilon) as [He0 He1].
  assert (Hln : ln gamma < 0) by (rewrite <- ln_1; apply ln_increasing; lra).
  unfold Rpower. rewrite <- (exp_ln gamma) at 1 by assumption.
  apply exp_increasing. nra.
Qed.

(** X19.  On such a model the planner returns a value: for valid gamma,
    delta and epsilon, built on a store that holds state objects only,
    [TrailBlazer.run] ends with an estimate, neither raising nor recursing
    for ever, although its budget is a float. *)
Theorem planner_returns state gamma delta epsilon (w : World) (s : State) :
  single_action ->
  states w !! state = Some s ->
  maxs w = [] -> avgs w = [] ->
  0 < gamma < 1 -> 0 < delta < 1 -> 0 < epsilon ->
  exists tb (w' : World),
    TrailBlazer_init state gamma delta epsilon w = Ok (tb, w') /\
    exists N : nat, forall fuel, (N <= fuel)%nat ->
      exists v (w'' : World), TrailBlazer_run fuel tb w' = Ok (v, w'').
Proof.
  intros H1 Hs Hmx Hav Hg Hd He.
  pose proof (TrailBlazer_init_exact state gamma delta epsilon w s Hs Hg Hd He) as Hinit.
  eexists _, _. split; [exact Hinit |].
  unfold TrailBlazer_run, TrailBlazer_call. cbn [tb_root tb_m tb_epsilon].
  destruct (H1 s) as [act Hact]. rewrite Hact, Hmx, Hav. cbn [app map length].
  set (eta := derive_eta gamma epsilon).
  pose proof (derive_eta_above gamma epsilon Hg) as Heta. fold eta in Heta.
  pose proof (derive_m_pos gamma delta epsilon Hg Hd He) as Hm.
  destruct (INR_unbounded (derive_m gamma delta epsilon 0)) as [k Hk].
  set (w' := mkWorld (states w) [fresh_max state gamma delta 0 eta [act] 0]
                     [fresh_avg state gamma delta 0 eta 1 act] (calls w)).
  destruct (run_returns gamma eta H1 Hg Heta
              (CallMax 0%nat (PyFloat (derive_m gamma delta epsilon 0)) (epsilon / 2))
              k w') as [N HN].
  - split.
    + intros a A Ha. destruct a as [| a]; [| discriminate]. cbn in Ha. injection Ha as <-.
      cbn [fresh_avg a_gamma a_eta a_state sampled_nodes states w'].
      split; [reflexivity |]. split; [reflexivity |].
      split; [eapply lookup_lt_Some; eassumption |].
      intros x Hx. apply elem_of_nil in Hx. destruct Hx.
    + intros x Mx HMx. destruct x as [| x]; [| discriminate]. cbn in HMx.
      injection HMx as <-. cbn [m_eta m_state m_children states avgs w' length].
      split; [reflexivity |]. split; [eapply lookup_lt_Some; eassumption |].
      exists act, 0%nat. split; [reflexivity | lia].
  - cbn. lia.
  - intros a A Ha. destruct a as [| a]; [| discriminate]. cbn in Ha. injection Ha as <-.
    cbn [budget budget_fits fresh_avg sampled_nodes length INR]. lra.
  - cbn [precision]. lra.
  - exists N. intros fuel Hfuel. destruct (HN fuel Hfuel) as (v & w'' & H & _).
    exists v, w''. exact H.
Qed.

End SingleActionTheorems.

(** ** No exception *)

Section NoException.

Context {State Action : Type} `{GM : GenerativeModel State Action}.

Local Abbreviation World := (World State Action).
Local Abbreviation AvgNode := (AvgNode Action).
Local Abbreviation MaxNode := (MaxNode Action).
Local Abbreviation M := (M State Action).

Tactic Notation "inv_bind" hyp(H) "as" ident(a) ident(w1) ident(H1) :=
  apply bind_ok in H as (a & w1 & H1 & H).

Hypothesis some_action : has_actions.

Lemma safe_bind {A B} (c : M A) (k : A -> M B) (Q : A -> World -> Prop)
    (R' : B -> World -> Prop) (w : World) :
  safe c Q w ->
  (forall a w1, c w = Ok (a, w1) -> Q a w1 -> safe (k a) R' w1) ->
  safe (bind c k) R' w.
Proof.
  unfold safe, bind. intros Hc Hk.
  destruct (c w) as [[a w1] | e | |]; try exact I.
  - apply (Hk a w1 eq_refl Hc).
  - destruct Hc.
Qed.

Lemma safe_ok {A} (c : M A) (Q : A -> World -> Prop) (w w' : World) a :
  c w = Ok (a, w') -> Q a w' -> safe c Q w.
Proof. intros H HQ. unfold safe. rewrite H. exact HQ. Qed.

Lemma safe_weaken {A} (c : M A) (Q Q' : A -> World -> Prop) (w : World) :
  safe c Q w -> (forall a w', c w = Ok (a, w') -> Q a w' -> Q' a w') -> safe c Q' w.
Proof.
  unfold safe. intros Hc HQ. destruct (c w) as [[a w1] | e | |]; try assumption.
  apply HQ; [reflexivity | assumption].
Qed.

Lemma dict_set_nonempty (d : list (Action * nat)) k v : dict_set d k v <> [].
Proof. destruct d as [| [k0 v0] d]; cbn [dict_set]; [| destruct (action_eq k0 k)]; discriminate. Qed.

Lemma dict_of_nonempty (ps d : list (Action * nat)) :
  ps <> [] \/ d <> [] -> dict_of ps d <> [].
Proof.
  unfold dict_of. revert d. induction ps as [| p ps IH]; intros d H; cbn [fold_left].
  - destruct H as [H | H]; [contradiction | assumption].
  - apply IH. right. apply dict_set_nonempty.
Qed.

Lemma fresh_max_children state gamma delta alpha eta (actions : list Action) (n : nat) :
  actions <> [] ->
  m_children (fresh_max state gamma delta alpha eta actions n) <> [] /\
  forall act c, (act, c) ∈ m_children (fresh_max state gamma delta alpha eta actions n) ->
                (n <= c < n + length actions)%nat.
Proof.
  intros Hne. unfold fresh_max. cbn [m_children]. split.
  - apply dict_of_nonempty. left. destruct actions; [contradiction |]. discriminate.
  - intros act c Hc. apply dict_of_elem in Hc as [Hc | Hc].
    + apply elem_of_nil in Hc. destruct Hc.
    + apply list_elem_of_In in Hc. apply in_map_iff in Hc as ([act' c'] & <- & Hin).
      cbn [snd]. apply list_elem_of_In in Hin. apply elem_of_zip_r in Hin.
      apply elem_of_seq in Hin. lia.
Qed.

Lemma sample_once_sound a (w : World) (A : AvgNode) :
  sound_store w ->
  avgs w !! a = Some A ->
  exists (w' : World) (A' : AvgNode),
    sample_once a w = Ok (tt, w') /\ sound_store w' /\
    avgs w' !! a = Some A' /\
    length (sampled_nodes A') = S (length (sampled_nodes A)).
Proof.
  intros [Havg Hmax] Ha.
  destruct (Havg a A Ha) as (Hr & Hst & Hsam).
  assert (Hlt : (a < length (avgs w))%nat) by (eapply lookup_lt_Some; eassumption).
  destruct (lookup_lt_is_Some_2 _ _ Hst) as [v Hv].
  pose proof (sample_once_eq a w A v Ha Hv) as Heq. cbv zeta in Heq.
  set (v' := snd (step v (a_action A) (calls w))) in *.
  set (reward := fst (step v (a_action A) (calls w))) in *.
  destruct (find_node_returns (sampled_nodes A) (length (states w))
              (mkWorld (states w ++ [v']) (maxs w) (avgs w) (S (calls w))))
    as (r & Hfind & Hin).
  { intros x Hx. cbn [maxs states]. specialize (Hsam x Hx).
    destruct (lookup_lt_is_Some_2 _ _ Hsam) as [Mx HMx]. exists Mx.
    split; [assumption |]. destruct (Hmax x Mx HMx) as (_ & Hs & _).
    rewrite length_app. cbn [length]. lia. }
  { cbn [states]. rewrite length_app. cbn [length]. lia. }
  rewrite Hfind in Heq. destruct r as [node |].
  - eexists _, _. split; [exact Heq |]. split; [split |].
    + intros b B Hb. cbn [avgs states maxs] in *.
      destruct (decide (b = a)) as [-> | Hne].
      * rewrite list_lookup_insert_eq in Hb by assumption. injection Hb as <-.
        cbn [a_gamma a_delta a_eta a_state sampled_nodes].
        split; [assumption |].
        split; [rewrite length_app; cbn [length]; lia |].
        intros x Hx. apply elem_of_app in Hx as [Hx | Hx]; [apply Hsam; assumption |].
        apply list_elem_of_singleton in Hx as ->. apply Hsam. apply Hin. reflexivity.
      * rewrite list_lookup_insert_ne in Hb by congruence.
        destruct (Havg b B Hb) as (? & ? & ?).
        split; [assumption |].
        split; [rewrite length_app; cbn [length]; lia | assumption].
    + intros x Mx HMx. cbn [avgs states maxs] in *.
      destruct (Hmax x Mx HMx) as (? & ? & ? & Hch).
      split; [assumption |]. split; [rewrite length_app; cbn [length]; lia |].
      split; [assumption |].
      intros act c Hc. rewrite length_insert. eapply Hch. eassumption.
    + split.
      * cbn [avgs]. apply list_lookup_insert_eq. assumption.
      * cbn [sampled_nodes]. rewrite length_app. cbn [length]. lia.
  - pose proof (some_action v') as Hact.
    destruct (fresh_max_children (length (states w)) (a_gamma A) (a_delta A) (a_alpha A)
                (a_eta A) (get_actions v') (length (avgs w)) Hact) as [Hne Hrange].
    eexists _, _. split; [exact Heq |]. split; [split |].
    + intros b B Hb. cbn [avgs states maxs] in *.
      destruct (decide (b = a)) as [-> | Hneq].
      * rewrite list_lookup_insert_eq in Hb by (rewrite length_app; lia).
        injection Hb as <-.
        cbn [a_gamma a_delta a_eta a_state sampled_nodes].
        split; [assumption |].
        split; [rewrite length_app; cbn [length]; lia |].
        intros x Hx. rewrite length_app. cbn [length].
        apply elem_of_app in Hx as [Hx | Hx]; [specialize (Hsam x Hx); lia |].
        apply list_elem_of_singleton in Hx as ->. lia.
      * rewrite list_lookup_insert_ne in Hb by congruence.
        rewrite !length_app. cbn [length].
        apply lookup_app_Some in Hb as [Hb | [Hge Hb]].
        -- destruct (Havg b B Hb) as (? & ? & Hx).
           split; [assumption |]. split; [lia |].
           intros x Hx'. specialize (Hx x Hx'). lia.
        -- apply list_elem_of_lookup_2 in Hb. apply list_elem_of_In in Hb.
           apply in_map_iff in Hb as (act & <- & _). unfold fresh_avg.
           cbn [a_gamma a_delta a_eta a_state sampled_nodes].
           split; [assumption |]. split; [lia |].
           intros x Hx. apply elem_of_nil in Hx. destruct Hx.
    + intros x Mx HMx. cbn [avgs states maxs] in *.
      rewrite !length_app. cbn [length].
      apply lookup_app_Some in HMx as [HMx | [Hge HMx]].
      * destruct (Hmax x Mx HMx) as (? & ? & ? & Hch).
        split; [assumption |]. split; [lia |]. split; [assumption |].
        intros act c Hc. rewrite length_insert, length_app. specialize (Hch act c Hc). lia.
      * destruct (x - length (maxs w))%nat as [| n]; [| discriminate].
        cbn in HMx. injection HMx as <-.
        split; [exact Hr |]. split; [cbn [fresh_max m_state]; lia |].
        split; [exact Hne |].
        intros act c Hc. rewrite length_insert, length_app, length_map.
        specialize (Hrange act c Hc). lia.
    + split.
      * cbn [avgs]. apply list_lookup_insert_eq. rewrite length_app. lia.
      * cbn [sampled_nodes]. rewrite length_app. cbn [length]. lia.
Qed.

Lemma sample_loop_safe fuel a m :
  forall (w : World) (A : AvgNode),
    sound_store w -> avgs w !! a = Some A ->
    safe (sample_loop fuel a m) (fun _ w' => sound_store w') w.
Proof.
  induction fuel as [| fuel IH]; intros w A Hw Ha; unfold safe; cbn [sample_loop];
    unfold bind at 1; rewrite (get_avg_some w a A Ha);
    destruct (Rltb _ _); try exact I; try exact Hw.
  destruct (sample_once_sound a w A Hw Ha) as (w1 & A1 & H1 & Hw1 & Ha1 & _).
  unfold bind. rewrite H1. apply (IH w1 A1 Hw1 Ha1).
Qed.

Lemma active_nodes_safe fuel a z (w : World) (A : AvgNode) :
  sound_store w -> avgs w !! a = Some A -> (1 <= z)%Z ->
  safe (active_nodes fuel a (PyInt z))
       (fun active w' =>
          sound_store w' /\
          (forall x, x ∈ active -> (x < length (maxs w'))%nat) /\
          exists A', avgs w' !! a = Some A' /\ (1 <= length (sampled_nodes A'))%nat) w.
Proof.
  intros Hw Ha Hz. unfold active_nodes.
  apply safe_bind with (Q := fun self w1 => self = A /\ w1 = w).
  { unfold safe. rewrite (get_avg_some w a A Ha). split; reflexivity. }
  intros self w1 _ [-> ->]. cbn [num_val].
  destruct (Rltb (IZR z) (INR (length (sampled_nodes A)))) eqn:E.
  - apply Rltb_spec in E. rewrite INR_IZR_INZ in E. apply lt_IZR in E.
    unfold safe. cbn [py_slice_to].
    destruct (Z.leb_spec 0 z) as [_ | Hneg]; [| lia]. cbn [ret].
    split; [assumption |]. split.
    + intros x Hx. destruct Hw as [Havg _].
      destruct (Havg a A Ha) as (_ & _ & Hsam). apply Hsam.
      eapply elem_of_sublist; [exact Hx | apply sublist_take].
    + exists A. split; [assumption | lia].
  - apply safe_bind with (Q := fun _ w1 => sound_store w1).
    { apply (sample_loop_safe fuel a (PyInt z) w A Hw Ha). }
    intros u w1 H1 Hw1.
    destruct (sample_loop_done fuel a (PyInt z) w w1 u H1) as (A' & Ha' & Hlen).
    cbn [num_val] in Hlen. rewrite Rltb_INR_IZR in Hlen.
    apply Z.ltb_ge in Hlen.
    unfold safe, bind. rewrite (get_avg_some w1 a A' Ha'). cbn [ret].
    split; [assumption |]. split.
    + intros x Hx. destruct Hw1 as [Havg _].
      destruct (Havg a A' Ha') as (_ & _ & Hsam). apply Hsam. assumption.
    + exists A'. split; [assumption | lia].
Qed.

(** The calls on which the recursion is made. *)
Lemma avg_children_safe fuel uniques m epsilon gamma :
  (forall c (w : World), sound_store w -> target_allocated c w -> int_budget c ->
     safe (run fuel c) (fun _ w' => sound_store w') w) ->
  forall counts mu (w : World),
    length uniques = length counts ->
    (forall c, c ∈ counts -> (1 <= c)%nat) ->
    sound_store w ->
    (forall u, u ∈ uniques -> (u < length (maxs w))%nat) ->
    safe (avg_children (run fuel) uniques counts m epsilon gamma mu)
         (fun _ w' => sound_store w' /\ ext w w') w.
Proof.
  intros Hrec. induction uniques as [| u us IH]; intros counts mu w Hlen Hc Hw Hu;
    cbn [avg_children].
  - unfold safe. cbn [ret]. split; [assumption | apply ext_refl].
  - destruct counts as [| c cs]; [discriminate |].
    apply safe_bind with (Q := fun _ w1 => sound_store w1).
    + apply Hrec; [assumption | |].
      * cbn [target_allocated]. apply Hu. apply elem_of_cons. left. reflexivity.
      * exists (Z.of_nat c). split; [reflexivity |].
        assert (1 <= c)%nat by (apply Hc; apply elem_of_cons; left; reflexivity). lia.
    + intros nu w1 H1 Hw1. pose proof (run_ext _ _ _ _ _ H1) as Hext1.
      eapply safe_weaken.
      * apply (IH cs (mu + INR c / num_val m * nu) w1).
        -- cbn [length] in Hlen. lia.
        -- intros c' Hc'. apply Hc. apply elem_of_cons. right. assumption.
        -- assumption.
        -- intros u' Hu'. destruct Hext1 as (_ & Hpre & _).
           apply prefix_length in Hpre.
           assert (u' < length (maxs w))%nat; [| lia].
           apply Hu. apply elem_of_cons. right. assumption.
      * intros v w' _ [Hw' Hext]. split; [assumption |].
        eapply ext_trans; eassumption.
Qed.

Lemma AvgNode_run_safe fuel a z epsilon (w : World) :
  (forall c (w : World), sound_store w -> target_allocated c w -> int_budget c ->
     safe (run fuel c) (fun _ w' => sound_store w') w) ->
  sound_store w -> (a < length (avgs w))%nat -> (1 <= z)%Z ->
  safe (AvgNode_run fuel (run fuel) a (PyInt z) epsilon) (fun _ w' => sound_store w') w.
Proof.
  intros Hrec Hw Ha Hz.
  destruct (lookup_lt_is_Some_2 _ _ Ha) as [A HA].
  unfold AvgNode_run.
  apply safe_bind with (Q := fun self w1 => self = A /\ w1 = w).
  { unfold safe. rewrite (get_avg_some w a A HA). split; reflexivity. }
  intros self w0 _ [-> ->].
  destruct (Rleb _ _); [exact Hw |].
  eapply safe_bind; [apply (active_nodes_safe fuel a z w A Hw HA Hz) |].
  intros active w1 H1 (Hw1 & Hval & A1 & Ha1 & Hlen1). cbv beta in *.
  pose proof (group_grouped active) as (Hgl & _ & Hmem & _ & _).
  pose proof (grouped_counts_pos active (group active) ) as Hpos.
  destruct (group active) as [uniques counts] eqn:Egroup. cbn [fst snd] in *.
  eapply safe_bind.
  - apply (avg_children_safe fuel uniques (PyInt z) epsilon (a_gamma A) Hrec counts 0 w1);
      [assumption | | assumption |].
    + intros c Hc. apply Hpos; [| assumption]. rewrite <- Egroup. apply group_grouped.
    + intros u Hu. apply Hval. apply Hmem. assumption.
  - intros mu w2 H2 [Hw2 Hext]. cbv beta in *.
    destruct Hext as (_ & _ & Hav & _).
    destruct (Hav a A1 Ha1) as (A2 & Ha2 & Hle).
    assert (Hlen2 : (1 <= length (sampled_nodes A2))%nat).
    { destruct Hle as (_ & _ & _ & _ & _ & _ & _ & Hpre).
      apply prefix_length in Hpre. lia. }
    unfold safe, avg_result, bind. rewrite (get_avg_some w2 a A2 Ha2).
    destruct (length (sampled_nodes A2)) as [| len] eqn:El; [lia |].
    cbn [ret]. assumption.
Qed.

Lemma estimate_all_safe fuel cands cnt eps :
  (forall c (w : World), sound_store w -> target_allocated c w -> int_budget c ->
     safe (run fuel c) (fun _ w' => sound_store w') w) ->
  (1 <= cnt)%nat ->
  forall (w : World),
    sound_store w ->
    (forall b, b ∈ cands -> (b < length (avgs w))%nat) ->
    safe (estimate_all (run fuel) cands cnt eps)
         (fun _ w' => sound_store w' /\ ext w w') w.
Proof.
  intros Hrec Hcnt. induction cands as [| b rest IH]; intros w Hw Hb; cbn [estimate_all].
  - unfold safe. cbn [ret]. split; [assumption | apply ext_refl].
  - apply safe_bind with (Q := fun _ w1 => sound_store w1).
    + apply Hrec; [assumption | |].
      * cbn [target_allocated]. apply Hb. apply elem_of_cons. left. reflexivity.
      * exists (Z.of_nat cnt). split; [reflexivity | lia].
    + intros v w1 H1 Hw1. pose proof (run_ext _ _ _ _ _ H1) as Hext1.
      eapply safe_bind.
      * apply (IH w1 Hw1). intros b' Hb'.
        assert (Hlt : (b' < length (avgs w))%nat).
        { apply Hb. apply elem_of_cons. right. assumption. }
        destruct (lookup_lt_is_Some_2 _ _ Hlt) as [B HB].
        destruct Hext1 as (_ & _ & Hav & _). destruct (Hav b' B HB) as (B' & HB' & _).
        eapply lookup_lt_Some. eassumption.
      * intros vs w2 _ [Hw2 Hext2]. unfold safe. cbn [ret].
        split; [assumption |]. eapply ext_trans; eassumption.
Qed.

Lemma ext_avgs_length (w w' : World) : ext w w' -> (length (avgs w) <= length (avgs w'))%nat.
Proof.
  intros (_ & _ & Hav & _).
  destruct (avgs w) as [| A0 l] eqn:E using rev_ind; [cbn; lia |].
  clear IHl. rewrite length_app. cbn [length].
  destruct (Hav (length l) A0) as (A' & HA' & _).
  { rewrite lookup_app_r by lia. rewrite Nat.sub_diag. reflexivity. }
  apply lookup_lt_Some in HA'. lia.
Qed.

(** What the loop keeps true of its variables. *)
Lemma elim_round_safe fuel (self : MaxNode) epsilon st (w : World) :
  (forall c (w : World), sound_store w -> target_allocated c w -> int_budget c ->
     safe (run fuel c) (fun _ w' => sound_store w') w) ->
  m_gamma self < 1 -> m_eta self < 1 ->
  sound_store w ->
  (1 <= count st)%nat ->
  candidates st <> [] ->
  (forall b, b ∈ candidates st -> (b < length (avgs w))%nat) ->
  safe (elim_round (run fuel) self epsilon st)
       (fun st' w' =>
          sound_store w' /\ (1 <= count st')%nat /\ candidates st' <> [] /\
          lmu st' <> [] /\
          forall b, b ∈ candidates st' -> (b < length (avgs w'))%nat) w.
Proof.
  intros Hrec Hg He Hw Hc Hne Hb.
  apply safe_weaken with (Q := fun _ w' => sound_store w' /\ ext w w').
  - unfold elim_round.
    destruct (Rleb _ 0); [exact I |]. destruct (Rltb _ 0); [exact I |].
    eapply safe_bind;
      [apply (estimate_all_safe fuel (candidates st) (count st) _ Hrec Hc w Hw Hb) |].
    intros mu w1 H1 [Hw1 Hext1]. cbv beta in *.
    apply estimate_all_fst in H1.
    destruct mu as [| x mu]; [cbn in H1; symmetry in H1; contradiction |].
    unfold safe. cbn [py_max bind ret]. split; assumption.
  - intros st' w' H [Hw' Hext].
    destruct (elim_round_nonempty _ _ _ _ _ _ _ Hg He H) as [Hne' Hmu'].
    destruct (elim_round_sublist _ _ _ _ _ _ _ H) as (Hsub & Hcnt & _).
    split; [assumption |]. split; [lia |]. split; [assumption |]. split; [assumption |].
    intros b Hb'. pose proof (ext_avgs_length w w' Hext).
    assert (b < length (avgs w))%nat; [| lia].
    apply Hb. eapply elem_of_sublist; eassumption.
Qed.

Lemma elim_loop_safe fuel' fuel (self : MaxNode) epsilon :
  (forall c (w : World), sound_store w -> target_allocated c w -> int_budget c ->
     safe (run fuel c) (fun _ w' => sound_store w') w) ->
  m_gamma self < 1 -> m_eta self < 1 ->
  forall st (w : World),
    sound_store w ->
    (1 <= count st)%nat ->
    candidates st <> [] ->
    (lU st = None \/ lmu st <> []) ->
    (forall b, b ∈ candidates st -> (b < length (avgs w))%nat) ->
    safe (elim_loop fuel' (run fuel) self epsilon st)
         (fun st' w' =>
            sound_store w' /\ candidates st' <> [] /\
            (lU st' = None \/ lmu st' <> []) /\
            loop_test self epsilon st' = false /\
            forall b, b ∈ candidates st' -> (b < length (avgs w'))%nat) w.
Proof.
  intros Hrec Hg He. induction fuel' as [| fuel' IH]; intros st w Hw Hc Hne Hmu Hb;
    cbn [elim_loop]; destruct (loop_test self epsilon st) eqn:Et;
    try exact I;
    try (unfold safe; cbn [ret]; split; [assumption |]; split; [assumption |];
         split; [assumption |]; split; assumption).
  eapply safe_bind; [apply (elim_round_safe fuel self epsilon st w Hrec Hg He Hw Hc Hne Hb) |].
  intros st1 w1 _ (Hw1 & Hc1 & Hne1 & Hmu1 & Hb1). cbv beta in *.
  apply IH; try assumption. right. assumption.
Qed.

Lemma MaxNode_run_safe fuel x z epsilon (w : World) :
  (forall c (w : World), sound_store w -> target_allocated c w -> int_budget c ->
     safe (run fuel c) (fun _ w' => sound_store w') w) ->
  sound_store w -> (x < length (maxs w))%nat -> (1 <= z)%Z ->
  safe (MaxNode_run fuel (run fuel) x (PyInt z) epsilon) (fun _ w' => sound_store w') w.
Proof.
  intros Hrec Hw Hx Hz.
  destruct (lookup_lt_is_Some_2 _ _ Hx) as [Mx HMx].
  pose proof Hw as [_ Hmax].
  destruct (Hmax x Mx HMx) as ((_ & Hge & He & _) & _ & Hne & Hch).
  unfold MaxNode_run.
  apply safe_bind with (Q := fun self w1 => self = Mx /\ w1 = w).
  { unfold safe. rewrite (get_max_some w x Mx HMx). split; reflexivity. }
  intros self w0 _ [-> ->].
  eapply safe_bind.
  - apply (elim_loop_safe fuel fuel Mx epsilon Hrec); try assumption; try lra.
    + cbn [count]. lia.
    + cbn [candidates]. intros Hnil. apply map_eq_nil in Hnil. contradiction.
    + left. reflexivity.
    + cbn [candidates]. intros b Hb'. apply list_elem_of_In in Hb'.
      apply in_map_iff in Hb' as ([act c] & <- & Hin). cbn [snd].
      apply (Hch act c). apply list_elem_of_In. assumption.
  - intros st w1 _ (Hw1 & Hne1 & Hmu1 & Ht & Hb1). cbv beta in *.
    unfold max_result. destruct (1 <? length (candidates st))%nat eqn:El.
    + unfold loop_test in Ht. rewrite El in Ht. cbn [andb] in Ht.
      destruct Hmu1 as [HU | Hmu1]; [rewrite HU in Ht; discriminate |].
      destruct (lmu st) as [| y l]; [contradiction |].
      unfold safe. cbn [py_max bind ret]. assumption.
    + destruct (candidates st) as [| c rest] eqn:Ec; [contradiction |].
      apply Hrec; [assumption | |].
      * cbn [target_allocated]. apply Hb1. apply elem_of_cons. left. reflexivity.
      * exists z. split; [reflexivity | assumption].
Qed.

Lemma run_safe fuel :
  forall c (w : World), sound_store w -> target_allocated c w -> int_budget c ->
    safe (run fuel c) (fun _ w' => sound_store w') w.
Proof.
  induction fuel as [| fuel IH]; intros c w Hw Ht (z & Hb & Hz).
  - exact I.
  - destruct c as [x m epsilon | a m epsilon]; cbn [budget] in Hb; subst m;
      cbn [target_allocated] in Ht.
    + rewrite run_max_unfold. apply MaxNode_run_safe; assumption.
    + rewrite run_avg_unfold. apply AvgNode_run_safe; assumption.
Qed.

End NoException.

Section NoExceptionTheorem.

Context {State Action : Type} `{GM : GenerativeModel State Action}.

(** X21.  No exception: on a model whose states all have an action, on a
    store whose references are allocated and whose nodes have parameters
    in range (0 < gamma < eta < 1, delta > 0), a call of [MaxNode.run] or
    [AvgNode.run] with an integer budget of at least 1 and a precision other
    than 0 raises neither TypeError, IndexError, ValueError nor
    ZeroDivisionError and follows no dangling reference, as long as no nan
    arises; a store it returns is again such a store. *)
Theorem no_exception c (w : World State Action) :
  has_actions ->
  sound_store w ->
  target_allocated c w ->
  int_budget c ->
  precision c <> 0 ->
  forall fuel,
    (forall e, run fuel c w <> Raise e) /\
    (forall v w', run fuel c w = Ok (v, w') -> sound_store w').
Proof.
  intros Hact Hw Ht Hb _ fuel.
  pose proof (run_safe Hact fuel c w Hw Ht Hb) as Hsafe. unfold safe in Hsafe.
  split.
  - intros e He. rewrite He in Hsafe. exact Hsafe.
  - intros v w' H. rewrite H in Hsafe. exact Hsafe.
Qed.

End NoExceptionTheorem.

(** ** Deterministic models with one action per state: the value returned *)

Lemma exits_fun (g e epsilon : R) (d d' : nat) :
  exits g e epsilon d -> exits g e epsilon d' -> d = d'.
Proof.
  intros H. revert d'. induction H as [epsilon Hge | epsilon d Hlt H IH]; intros d' H'.
  - inversion H' as [eps Hge' | eps d0 Hlt' H0]; subst; [reflexivity | lra].
  - inversion H' as [eps Hge' | eps d0 Hlt' H0]; subst; [lra |].
    f_equal. apply IH. assumption.
Qed.

Lemma exits_exists (g e epsilon : R) :
  0 < g < 1 -> g < e -> 0 < epsilon -> exists d, exits g e epsilon d.
Proof.
  intros Hg He Heps.
  destruct (depth_exists g e Hg He epsilon Heps) as [n Hn].
  revert epsilon Heps Hn. induction n as [| n IH]; intros epsilon Heps Hn.
  - exists 0%nat. apply exits_now. cbn [pow] in Hn. lra.
  - destruct (Rle_lt_dec (1 / (1 - g)) epsilon) as [Hge | Hlt].
    + exists 0%nat. apply exits_now. assumption.
    + destruct (IH (e * (epsilon / g))) as [d Hd].
      * apply Rmult_lt_0_compat; [lra | apply Rdiv_lt_0_compat; lra].
      * cbn [pow] in Hn.
        replace (e * (epsilon / g) * (e / g) ^ n)
          with (epsilon * (e / g * (e / g) ^ n)) by (field; lra).
        exact Hn.
      * exists (S d). apply exits_later; assumption.
Qed.

(** The truncation error of the level at which the recursion stops. *)
Lemma exits_error (g e epsilon : R) (d : nat) :
  0 < g < 1 -> 0 < e <= 1 -> 0 < epsilon ->
  exits g e epsilon d -> g ^ d / (1 - g) <= epsilon.
Proof.
  intros Hg He Heps H. induction H as [epsilon Hge | epsilon d Hlt H IH].
  - cbn [pow]. lra.
  - assert (Hpos : 0 < e * (epsilon / g)).
    { apply Rmult_lt_0_compat; [lra | apply Rdiv_lt_0_compat; lra]. }
    specialize (IH Hpos). cbn [pow].
    assert (Hstep : g * (g ^ d / (1 - g)) <= g * (e * (epsilon / g))).
    { apply Rmult_le_compat_l; lra. }
    replace (g * (e * (epsilon / g))) with (e * epsilon) in Hstep by (field; lra).
    replace (g * g ^ d / (1 - g)) with (g * (g ^ d / (1 - g))) by (field; lra).
    nra.
Qed.

Section Returns.

Context {State Action : Type} `{GM : GenerativeModel State Action}.

Local Abbreviation World := (World State Action).
Local Abbreviation AvgNode := (AvgNode Action).
Local Abbreviation MaxNode := (MaxNode Action).
Local Abbreviation M := (M State Action).

Tactic Notation "inv_bind" hyp(H) "as" ident(a) ident(w1) ident(H1) :=
  apply bind_ok in H as (a & w1 & H1 & H).

Variables g e : R.
Hypothesis g_range : 0 < g < 1.
Hypothesis unit_rewards : rewards_in_unit.

Lemma dret_range (d : nat) (s : State) (a : Action) :
  0 <= dret g d s a <= 1 / (1 - g).
Proof.
  assert (HB : 0 <= 1 / (1 - g)) by (apply Rlt_le, Rdiv_lt_0_compat; lra).
  assert (Htop : 1 + g * (1 / (1 - g)) = 1 / (1 - g)) by (field; lra).
  revert s a. induction d as [| d IH]; intros s a; cbn [dret].
  - lra.
  - pose proof (unit_rewards s a O) as Hr.
    destruct (get_actions (snd (step s a O))) as [| a' l].
    + nra.
    + specialize (IH (snd (step s a O)) a'). nra.
Qed.

(** Going on for more steps adds at most gamma^d / (1 - gamma). *)
Lemma dret_tail (d k : nat) (s : State) (a : Action) :
  0 <= dret g (d + k) s a - dret g d s a <= g ^ d / (1 - g).
Proof.
  revert s a. induction d as [| d IH]; intros s a.
  - cbn [Nat.add dret pow]. pose proof (dret_range k s a). lra.
  - cbn [Nat.add dret pow].
    destruct (get_actions (snd (step s a O))) as [| a' l].
    + assert (0 <= g * g ^ d / (1 - g)).
      { apply Rlt_le, Rdiv_lt_0_compat; [| lra].
        apply Rmult_lt_0_compat; [lra | apply pow_lt; lra]. }
      lra.
    + specialize (IH (snd (step s a O)) a').
      replace (g * g ^ d / (1 - g)) with (g * (g ^ d / (1 - g))) by (field; lra).
      nra.
Qed.

End Returns.

Section DetStore.

Context {State Action : Type} `{GM : GenerativeModel State Action}.

Local Abbreviation World := (World State Action).
Local Abbreviation AvgNode := (AvgNode Action).
Local Abbreviation MaxNode := (MaxNode Action).
Local Abbreviation M := (M State Action).
Local Abbreviation mono := (@mono State Action).

Tactic Notation "inv_bind" hyp(H) "as" ident(a) ident(w1) ident(H1) :=
  apply bind_ok in H as (a & w1 & H1 & H).

Variables g e : R.
Hypothesis one_action : single_action.
Hypothesis same_outcome : deterministic.

Lemma state_of_ext (w w' : World) x (s : State) :
  ext w w' -> state_of w x = Some s -> state_of w' x = Some s.
Proof.
  intros (Hs & Hm & _) H. unfold state_of in *.
  destruct (maxs w !! x) as [Mx |] eqn:E; [| discriminate].
  rewrite (prefix_lookup_Some _ _ _ _ E Hm).
  eapply prefix_lookup_Some; eassumption.
Qed.

(** What the invariant says of one AvgNode, and of one MaxNode. *)
Lemma det_avg_lift (w w' : World) (B : AvgNode) :
  ext w w' ->
  (exists s, states w !! a_state B = Some s /\
     a_r B = INR (length (sampled_nodes B)) * fst (step s (a_action B) O) /\
     forall x, x ∈ sampled_nodes B ->
               state_of w x = Some (snd (step s (a_action B) O))) ->
  exists s, states w' !! a_state B = Some s /\
    a_r B = INR (length (sampled_nodes B)) * fst (step s (a_action B) O) /\
    forall x, x ∈ sampled_nodes B ->
              state_of w' x = Some (snd (step s (a_action B) O)).
Proof.
  intros Hext (s & Hs & Hr & Hx). exists s. split.
  - destruct Hext as (Hp & _). eapply prefix_lookup_Some; eassumption.
  - split; [assumption |]. intros x Hin. eapply state_of_ext; [eassumption |].
    apply Hx. assumption.
Qed.

Lemma det_max_lift (w w' : World) (Mx : MaxNode) :
  ext w w' ->
  (forall act a, m_children Mx = [(act, a)] ->
     exists A s, avgs w !! a = Some A /\ a_state A = m_state Mx /\
                 states w !! m_state Mx = Some s /\ get_actions s = [a_action A]) ->
  forall act a, m_children Mx = [(act, a)] ->
    exists A s, avgs w' !! a = Some A /\ a_state A = m_state Mx /\
                states w' !! m_state Mx = Some s /\ get_actions s = [a_action A].
Proof.
  intros Hext H act a Hch. destruct (H act a Hch) as (A & s & HA & Hst & Hs & Hact).
  destruct Hext as (Hp & _ & Hav & _).
  destruct (Hav a A HA) as (A' & HA' & Hle).
  destruct Hle as (Hst' & Hact' & _).
  exists A', s. split; [assumption |]. split; [congruence |].
  split; [eapply prefix_lookup_Some; eassumption |]. rewrite Hact'. assumption.
Qed.

Lemma sample_once_det a (w : World) (A : AvgNode) :
  det_store g e w ->
  avgs w !! a = Some A ->
  exists w' : World, sample_once a w = Ok (tt, w') /\ det_store g e w'.
Proof.
  intros (Hone & Havg & Hmax) Ha.
  destruct (sample_once_returns g e one_action a w A Hone Ha)
    as (w0 & A0 & Hret & Hone0 & _).
  exists w0. split; [assumption |].
  pose proof (mono_sample_once any_exn a I w) as Hext. rewrite Hret in Hext.
  split; [assumption |].
  destruct (Havg a A Ha) as (s & Hs & Hr & Hx).
  assert (Hlt : (a < length (avgs w))%nat) by (eapply lookup_lt_Some; eassumption).
  pose proof (sample_once_eq a w A s Ha Hs) as Heq. cbv zeta in Heq.
  rewrite (same_outcome s (a_action A) (calls w)) in Heq.
  set (v' := snd (step s (a_action A) O)) in *.
  set (reward := fst (step s (a_action A) O)) in *.
  assert (Hnew : forall node, node ∈ sampled_nodes A \/ state_of w0 node = Some v' ->
     exists s0, states w0 !! a_state A = Some s0 /\
       a_r A + reward
       = INR (length (sampled_nodes A ++ [node])) * fst (step s0 (a_action A) O) /\
       forall x, x ∈ sampled_nodes A ++ [node] ->
                 state_of w0 x = Some (snd (step s0 (a_action A) O))).
  { intros node Hnode. exists s. split.
    - destruct Hext as (Hp & _). eapply prefix_lookup_Some; eassumption.
    - split.
      + rewrite length_app. cbn [length]. rewrite Nat.add_1_r, S_INR, Hr.
        fold reward. ring.
      + intros x Hin. fold v'. apply elem_of_app in Hin as [Hin | Hin].
        * eapply state_of_ext; [eassumption |]. apply Hx. assumption.
        * apply list_elem_of_singleton in Hin as ->.
          destruct Hnode as [Hnode | Hnode]; [| assumption].
          eapply state_of_ext; [eassumption |]. apply Hx. assumption. }
  destruct (find_node (sampled_nodes A) (length (states w))
              (mkWorld (states w ++ [v']) (maxs w) (avgs w) (S (calls w))))
    as [[[node |] w3] | | |] eqn:Efind.
  - (* a cached node is found *)
    assert (Hin : node ∈ sampled_nodes A).
    { destruct Hone as [Hav1 Hmx1]. destruct (Hav1 a A Ha) as (_ & _ & Hst & Hsam).
      destruct (find_node_returns (sampled_nodes A) (length (states w))
                  (mkWorld (states w ++ [v']) (maxs w) (avgs w) (S (calls w))))
        as (r & Hr' & Hin).
      - intros x Hx'. cbn [maxs states]. specialize (Hsam x Hx').
        destruct (lookup_lt_is_Some_2 _ _ Hsam) as [Mx HMx]. exists Mx.
        split; [assumption |]. destruct (Hmx1 x Mx HMx) as (_ & Hs' & _).
        rewrite length_app. cbn [length]. lia.
      - cbn [states]. rewrite length_app. cbn [length]. lia.
      - rewrite Efind in Hr'. injection Hr' as <- _. apply Hin. reflexivity. }
    rewrite Heq in Hret. injection Hret as <-. split.
    + intros b B Hb. cbn [avgs] in Hb.
      destruct (decide (b = a)) as [-> | Hne].
      * rewrite list_lookup_insert_eq in Hb by assumption. injection Hb as <-.
        cbn [a_state a_action a_r sampled_nodes]. apply Hnew. left. assumption.
      * rewrite list_lookup_insert_ne in Hb by congruence.
        apply (det_avg_lift w); [assumption |]. apply Havg with b. assumption.
    + intros x Mx HMx. cbn [maxs] in HMx.
      apply (det_max_lift w); [assumption |]. apply Hmax with x. assumption.
  - (* a new MaxNode is built *)
    destruct (one_action v') as [act' Hact'].
    rewrite Heq in Hret. injection Hret as <-.
    assert (Hnew_state : states (mkWorld (states w ++ [v'])
               (maxs w ++ [fresh_max (length (states w)) (a_gamma A) (a_delta A)
                                     (a_alpha A) (a_eta A) (get_actions v')
                                     (length (avgs w))])
               (<[a := mkAvgNode (a_state A) (a_action A) (a_gamma A) (a_delta A)
                         (a_alpha A) (a_eta A) (a_K A)
                         (sampled_nodes A ++ [length (maxs w)]) (a_r A + reward)]>
                  (avgs w ++ map (fresh_avg (length (states w)) (a_gamma A) (a_delta A)
                                    (a_alpha A) (a_eta A) (length (get_actions v')))
                                 (get_actions v')))
               (S (calls w))) !! length (states w) = Some v').
    { cbn [states]. rewrite lookup_app_r by lia. rewrite Nat.sub_diag. reflexivity. }
    split.
    + intros b B Hb. cbn [avgs] in Hb.
      destruct (decide (b = a)) as [-> | Hne].
      * rewrite list_lookup_insert_eq in Hb by (rewrite length_app; lia).
        injection Hb as <-.
        cbn [a_state a_action a_r sampled_nodes]. apply Hnew. right.
        unfold state_of. cbn [maxs]. rewrite lookup_app_r by lia. rewrite Nat.sub_diag.
        cbn [lookup list_lookup fresh_max m_state]. exact Hnew_state.
      * rewrite list_lookup_insert_ne in Hb by congruence.
        apply lookup_app_Some in Hb as [Hb | [Hge Hb]].
        -- apply (det_avg_lift w); [assumption |]. apply Havg with b. assumption.
        -- apply list_elem_of_lookup_2 in Hb. apply list_elem_of_In in Hb.
           apply in_map_iff in Hb as (act & <- & _). unfold fresh_avg.
           cbn [a_state a_action a_r sampled_nodes length INR].
           exists v'. split; [exact Hnew_state |]. split; [ring |].
           intros x Hx'. apply elem_of_nil in Hx'. destruct Hx'.
    + intros x Mx HMx. cbn [maxs] in HMx.
      apply lookup_app_Some in HMx as [HMx | [Hge HMx]].
      * apply (det_max_lift w); [assumption |]. apply Hmax with x. assumption.
      * destruct (x - length (maxs w))%nat as [| n]; [| discriminate].
        cbn in HMx. injection HMx as <-. rewrite Hact'.
        intros act c Hch. unfold fresh_max, dict_of in Hch.
        cbn [m_children length seq zip zip_with fold_left dict_set fst snd] in Hch.
        injection Hch as <- <-.
        exists (fresh_avg (length (states w)) (a_gamma A) (a_delta A) (a_alpha A)
                  (a_eta A) 1%nat act'), v'.
        split.
        { cbn [avgs]. rewrite list_lookup_insert_ne by lia.
          rewrite lookup_app_r by lia. rewrite Nat.sub_diag. reflexivity. }
        split; [reflexivity |]. split; [exact Hnew_state |]. exact Hact'.
  - rewrite Heq in Hret. discriminate.
  - rewrite Heq in Hret. discriminate.
  - rewrite Heq in Hret. discriminate.
Qed.

Lemma sample_loop_det fuel a m (w w' : World) u :
  det_store g e w ->
  sample_loop fuel a m w = Ok (u, w') -> det_store g e w'.
Proof.
  revert w. induction fuel as [| fuel IH]; intros w Hw H; cbn [sample_loop] in H;
    inv_bind H as self w1 H1; apply get_avg_ok in H1 as [Ha ->];
    destruct (Rltb _ _); try discriminate;
    try (apply ret_ok in H as [_ ->]; assumption).
  inv_bind H as u1 w2 H2.
  destruct (sample_once_det a w self Hw Ha) as (w2' & H2' & Hw2).
  rewrite H2' in H2. injection H2 as _ <-. apply (IH w2' Hw2 H).
Qed.

Lemma active_nodes_det fuel a z (w w' : World) active :
  det_store g e w ->
  active_nodes fuel a (PyInt z) w = Ok (active, w') -> det_store g e w'.
Proof.
  intros Hw H. unfold active_nodes in H.
  inv_bind H as self w1 H1. apply get_avg_ok in H1 as [Ha ->].
  destruct (Rltb _ _).
  - cbn [py_slice_to] in H. destruct (0 <=? z)%Z; apply ret_ok in H as [_ ->]; assumption.
  - inv_bind H as u w2 H2. inv_bind H as self2 w3 H3.
    apply get_avg_ok in H3 as [_ ->]. apply ret_ok in H as [_ ->].
    eapply sample_loop_det; eassumption.
Qed.

(** All children stand for the same state, so they return the same value
    [V], and the weights add up to the number of records over m. *)
Lemma avg_children_value fuel uniques m epsilon (V : R) (s' : State) :
  (forall u c (w w' : World) v,
     det_store g e w -> state_of w u = Some s' -> (1 <= c)%nat ->
     run fuel (CallMax u (PyInt (Z.of_nat c)) (epsilon / g)) w = Ok (v, w') ->
     det_store g e w' /\ v = V) ->
  forall counts mu (w w' : World) v,
    length uniques = length counts ->
    (forall c, c ∈ counts -> (1 <= c)%nat) ->
    det_store g e w ->
    (forall u, u ∈ uniques -> state_of w u = Some s') ->
    avg_children (run fuel) uniques counts m epsilon g mu w = Ok (v, w') ->
    det_store g e w' /\ ext w w' /\
    v = mu + INR (sum_list counts) / num_val m * V.
Proof.
  intros Hchild. induction uniques as [| u us IH];
    intros counts mu w w' v Hlen Hc Hw Hu H; cbn [avg_children] in H.
  - apply ret_ok in H as [-> ->]. split; [assumption |]. split; [apply ext_refl |].
    destruct counts; [| discriminate]. cbn. unfold Rdiv. ring.
  - destruct counts as [| c cs]; [discriminate |].
    inv_bind H as nu w1 H1.
    destruct (Hchild u c w w1 nu Hw) as [Hw1 ->]; try assumption.
    { apply Hu. apply elem_of_cons. left. reflexivity. }
    { apply Hc. apply elem_of_cons. left. reflexivity. }
    pose proof (run_ext _ _ _ _ _ H1) as Hext1.
    destruct (IH cs (mu + INR c / num_val m * V) w1 w' v) as (Hw' & Hext & ->);
      try assumption.
    + cbn [length] in Hlen. lia.
    + intros c' Hc'. apply Hc. apply elem_of_cons. right. assumption.
    + intros u' Hu'. eapply state_of_ext; [eassumption |].
      apply Hu. apply elem_of_cons. right. assumption.
    + split; [assumption |]. split; [eapply ext_trans; eassumption |].
      change (sum_list (c :: cs)) with (c + sum_list cs)%nat.
      rewrite plus_INR. unfold Rdiv. ring.
Qed.

Hypothesis g_range : 0 < g < 1.
Hypothesis e_above : g < e.

Lemma run_value fuel :
  (forall a z epsilon (w w' : World) v (A : AvgNode) (s : State),
     det_store g e w -> avgs w !! a = Some A -> states w !! a_state A = Some s ->
     (1 <= z)%Z -> 0 < epsilon ->
     run fuel (CallAvg a (PyInt z) epsilon) w = Ok (v, w') ->
     det_store g e w' /\
     exists d, exits g e epsilon d /\ v = dret g d s (a_action A)) /\
  (forall x z epsilon (w w' : World) v (s : State),
     det_store g e w -> state_of w x = Some s ->
     (1 <= z)%Z -> 0 < epsilon ->
     run fuel (CallMax x (PyInt z) epsilon) w = Ok (v, w') ->
     det_store g e w' /\
     exists d, exits g e (e * epsilon) d /\
               v = match get_actions s with a :: _ => dret g d s a | [] => 0 end).
Proof.
  induction fuel as [| fuel [IHavg IHmax]]; [split; intros; discriminate |].
  split.
  - intros a z epsilon w w' v A s Hw Ha Hs Hz Heps H.
    rewrite run_avg_unfold in H. unfold AvgNode_run in H.
    inv_bind H as self w0 H0. apply get_avg_ok in H0 as [Ha0 ->].
    rewrite Ha in Ha0. injection Ha0 as <-.
    pose proof Hw as ([Hav1 _] & _). destruct (Hav1 a A Ha) as (Hg & _). rewrite Hg in H.
    destruct (Rleb (1 / (1 - g)) epsilon) eqn:E.
    + apply ret_ok in H as [-> ->]. split; [assumption |].
      exists 0%nat. split; [| reflexivity]. apply exits_now. apply Rleb_spec. assumption.
    + assert (Hlt : epsilon < 1 / (1 - g)).
      { destruct (Rle_lt_dec (1 / (1 - g)) epsilon) as [Hy | Hn]; [| exact Hn].
        rewrite Rleb_true in E by assumption. discriminate. }
      inv_bind H as active w1 H1.
      pose proof (active_nodes_det fuel a z w w1 active Hw H1) as Hw1.
      pose proof (mono_active_nodes any_exn fuel a (PyInt z) I I w) as Hext1.
      rewrite H1 in Hext1.
      destruct (active_nodes_int_full fuel a z w w1 A active ltac:(lia) Ha H1)
        as (A1 & Ha1 & Hact & Hlen1 & _).
      assert (Hlen : length active = Z.to_nat z).
      { rewrite Hact, length_take, Hlen1. lia. }
      pose proof (group_grouped active) as (Hgl & _ & Hmem & _ & Hsum).
      pose proof (grouped_counts_pos active (group active) ) as Hpos.
      destruct (group active) as [uniques counts] eqn:Egroup. cbn [fst snd] in *.
      inv_bind H as mu w2 H2.
      set (s' := snd (step s (a_action A) O)).
      assert (Heps' : 0 < e * (epsilon / g)).
      { apply Rmult_lt_0_compat; [lra | apply Rdiv_lt_0_compat; lra]. }
      destruct (exits_exists g e (e * (epsilon / g)) g_range e_above Heps') as [d0 Hd0].
      set (V := match get_actions s' with a' :: _ => dret g d0 s' a' | [] => 0 end).
      (* the state of the node and of its samples, in the store after sampling *)
      assert (HA1 : a_state A1 = a_state A /\ a_action A1 = a_action A).
      { destruct Hext1 as (_ & _ & Hav & _). destruct (Hav a A Ha) as (A1' & Ha1' & Hle).
        rewrite Ha1 in Ha1'. injection Ha1' as <-.
        destruct Hle as (? & ? & _). split; assumption. }
      destruct HA1 as [Hst1 Hac1].
      assert (Hs1 : states w1 !! a_state A = Some s).
      { destruct Hext1 as (Hp & _). eapply prefix_lookup_Some; eassumption. }
      assert (Hu : forall u, u ∈ uniques -> state_of w1 u = Some s').
      { intros u Hu. apply Hmem in Hu. rewrite Hact in Hu.
        assert (Hin : u ∈ sampled_nodes A1).
        { eapply elem_of_sublist; [exact Hu | apply sublist_take]. }
        destruct Hw1 as (_ & Havg1 & _). destruct (Havg1 a A1 Ha1) as (s1 & Hs1' & _ & Hx).
        rewrite Hst1, Hs1 in Hs1'. injection Hs1' as <-.
        rewrite Hac1 in Hx. apply Hx. assumption. }
      destruct (avg_children_value fuel uniques (PyInt z) epsilon V s') with
        (counts := counts) (mu := 0) (w := w1) (w' := w2) (v := mu)
        as (Hw2 & Hext2 & Hmu); try assumption.
      { intros u c w3 w4 v3 Hw3 Hu3 Hc3 H3.
        destruct (IHmax u (Z.of_nat c) (epsilon / g) w3 w4 v3 s' Hw3 Hu3)
          as (Hw4 & d & Hd & Hv); try assumption; try lia.
        - apply Rdiv_lt_0_compat; lra.
        - split; [assumption |]. rewrite (exits_fun _ _ _ _ _ Hd Hd0) in Hv. exact Hv. }
      { intros c Hc. apply Hpos; [| assumption]. rewrite <- Egroup. apply group_grouped. }
      unfold avg_result in H. inv_bind H as A2 w3 H3. apply get_avg_ok in H3 as [Ha2 ->].
      destruct (length (sampled_nodes A2)) as [| len] eqn:El; [discriminate |].
      apply ret_ok in H as [-> ->]. split; [assumption |].
      exists (S d0). split; [apply exits_later; assumption |].
      (* the reward average and the weights *)
      pose proof Hw2 as ([Hav2 _] & Havg2 & _).
      destruct (Hav2 a A2 Ha2) as (Hg2 & _).
      destruct (Havg2 a A2 Ha2) as (s2 & Hs2 & Hr2 & _).
      assert (HA2 : a_state A2 = a_state A /\ a_action A2 = a_action A).
      { destruct Hext2 as (_ & _ & Hav & _). destruct (Hav a A1 Ha1) as (A2' & Ha2' & Hle).
        rewrite Ha2 in Ha2'. injection Ha2' as <-.
        destruct Hle as (? & ? & _). split; congruence. }
      destruct HA2 as [Hst2 Hac2].
      assert (Hs2' : states w2 !! a_state A = Some s).
      { destruct Hext2 as (Hp & _). eapply prefix_lookup_Some; eassumption. }
      rewrite Hst2, Hs2' in Hs2. injection Hs2 as <-.
      rewrite Hac2, El in Hr2. rewrite Hr2, Hg2, Hmu.
      rewrite Hsum, Hlen. cbn [num_val].
      rewrite (INR_IZR_INZ (Z.to_nat z)), Z2Nat.id by lia.
      assert (Hz0 : IZR z <> 0) by (apply not_0_IZR; lia).
      assert (Hl0 : INR (S len) <> 0) by (apply not_0_INR; lia).
      cbn [dret]. fold s' V. field. split; assumption.
  - intros x z epsilon w w' v s Hw Hx Hz Heps H.
    rewrite run_max_unfold in H. unfold MaxNode_run in H.
    inv_bind H as Mx w0 H0. apply get_max_ok in H0 as [HMx ->].
    pose proof Hw as ([_ Hmx1] & _ & Hmax).
    destruct (Hmx1 x Mx HMx) as (He & _ & act & a & Hch & _).
    destruct (Hmax x Mx HMx act a Hch) as (A & s0 & HA & Hst & Hs0 & Hact).
    unfold state_of in Hx. rewrite HMx, Hs0 in Hx. injection Hx as ->.
    rewrite Hch in H. cbn [map snd] in H.
    assert (Hloop : elim_loop fuel (run fuel) Mx epsilon (mkLoop [a] 1 None []) w
                    = Ok (mkLoop [a] 1 None [], w)).
    { destruct fuel; reflexivity. }
    inv_bind H as st w1 H1. rewrite Hloop in H1. injection H1 as <- <-.
    unfold max_result in H. cbn [candidates length Nat.ltb Nat.leb] in H.
    rewrite He in H. rewrite <- Hst in Hs0.
    destruct (IHavg a z (e * epsilon) w w' v A s Hw HA Hs0 Hz) as (Hw' & d & Hd & Hv);
      [apply Rmult_lt_0_compat; lra | exact H |].
    split; [assumption |]. exists d. split; [assumption |].
    rewrite Hact. exact Hv.
Qed.

End DetStore.

Section ValueTheorem.

Context {State Action : Type} `{GM : GenerativeModel State Action}.

(** X22.  Accuracy on deterministic models with one action per state and
    rewards in [0, 1]: for 0 < gamma < eta <= 1 and gamma < 1, a call of
    [AvgNode.run] with an integer budget m >= 1 and epsilon > 0 returns
    exactly the discounted return of the first d steps from the node's
    state and action, where d is the number of levels until the early exit;
    every longer horizon adds between 0 and epsilon to it, so the estimate
    is within epsilon of the value. *)
Theorem deterministic_chain_estimate (g e : R) a z epsilon
    (w : World State Action) (A : AvgNode Action) (s : State) :
  single_action -> deterministic -> rewards_in_unit ->
  0 < g < 1 -> g < e <= 1 ->
  det_store g e w ->
  avgs w !! a = Some A ->
  states w !! a_state A = Some s ->
  (1 <= z)%Z -> 0 < epsilon ->
  exists d N : nat,
    (forall fuel, (N <= fuel)%nat ->
       exists w', run fuel (CallAvg a (PyInt z) epsilon) w
                  = Ok (dret g d s (a_action A), w')) /\
    (forall n, (d <= n)%nat ->
       0 <= dret g n s (a_action A) - dret g d s (a_action A) <= epsilon).
Proof.
  intros H1 Hdet Hunit Hg [He He1] Hw Ha Hs Hz Heps.
  destruct (exits_exists g e epsilon Hg He Heps) as [d Hd].
  pose proof Hw as (Hone & _).
  destruct (run_returns g e H1 Hg He (CallAvg a (PyInt z) epsilon) (Z.to_nat z) w Hone)
    as [N HN].
  - cbn [target_allocated]. eapply lookup_lt_Some. eassumption.
  - intros b B _. cbn [budget budget_fits]. split; [assumption | reflexivity].
  - cbn [precision]. assumption.
  - exists d, N. split.
    + intros fuel Hfuel. destruct (HN fuel Hfuel) as (v & w' & H & _).
      exists w'. rewrite H.
      destruct (run_value g e H1 Hdet Hg He fuel) as [Havg _].
      destruct (Havg a z epsilon w w' v A s Hw Ha Hs Hz Heps H) as (_ & d' & Hd' & ->).
      rewrite (exits_fun _ _ _ _ _ Hd' Hd). reflexivity.
    + intros n Hn. replace n with (d + (n - d))%nat by lia.
      pose proof (dret_tail g Hg Hunit d (n - d) s (a_action A)) as Htail.
      assert (Herr : g ^ d / (1 - g) <= epsilon).
      { apply (exits_error g e epsilon d); try assumption; lra. }
      lra.
Qed.

End ValueTheorem.

(** ** The samples drawn for a float budget *)

Section FloatSamples.

Context {State Action : Type} `{GM : GenerativeModel State Action}.

Local Abbreviation World := (World State Action).
Local Abbreviation AvgNode := (AvgNode Action).

Tactic Notation "inv_bind" hyp(H) "as" ident(a) ident(w1) ident(H1) :=
  apply bind_ok in H as (a & w1 & H1 & H).

Lemma sample_loop_ceiling fuel a m :
  forall (w w' : World) (A : AvgNode) u,
    sample_loop fuel a m w = Ok (u, w') ->
    avgs w !! a = Some A ->
    INR (length (sampled_nodes A)) < num_val m + 1 ->
    exists A', avgs w' !! a = Some A' /\
      num_val m <= INR (length (sampled_nodes A')) < num_val m + 1 /\
      calls w' = (calls w + (length (sampled_nodes A') - length (sampled_nodes A)))%nat /\
      (length (sampled_nodes A) <= length (sampled_nodes A'))%nat.
Proof.
  induction fuel as [| fuel IH]; intros w w' A u H Ha Hlen; cbn [sample_loop] in H;
    inv_bind H as self w1 H1; apply get_avg_ok in H1 as [Ha' ->];
    rewrite Ha in Ha'; injection Ha' as <-;
    destruct (Rltb (INR (length (sampled_nodes A))) (num_val m)) eqn:E;
    try discriminate.
  - apply ret_ok in H as [_ ->]. exists A. split; [assumption |].
    split; [| split; lia].
    split; [| assumption].
    destruct (Rle_dec (num_val m) (INR (length (sampled_nodes A)))) as [Hy | Hn];
      [exact Hy |]. rewrite Rltb_true in E by lra. discriminate.
  - inv_bind H as u1 w2 H2.
    destruct (sample_once_spec a w w2 A u1 Ha H2) as (node & v & _ & Ha2 & Hc2).
    apply Rltb_spec in E.
    destruct (IH w2 w' _ u H Ha2) as (A' & Ha'' & Hb & Hc & Hl).
    + cbn [sampled_nodes]. rewrite length_app. cbn [length].
      rewrite Nat.add_1_r, S_INR. lra.
    + cbn [sampled_nodes] in Hc, Hl. rewrite length_app in Hc, Hl. cbn [length] in Hc, Hl.
      exists A'. split; [assumption |]. split; [assumption |]. split; lia.
  - apply ret_ok in H as [_ ->]. exists A. split; [assumption |].
    split; [| split; lia].
    split; [| assumption].
    destruct (Rle_dec (num_val m) (INR (length (sampled_nodes A)))) as [Hy | Hn];
      [exact Hy |]. rewrite Rltb_true in E by lra. discriminate.
Qed.

(** X23.  What a float budget x > 0 does on a node whose cache holds at most
    x samples: the loop of lines 67-81 fills the cache to n samples with
    x <= n < x + 1 (x rounded up), one generative-model call per new sample,
    all n records are passed on, and the occurrence counts add up to n: the
    weights counts[i]/m of line 98 add up to n/x, which is 1 only when x is
    a whole number. *)
Theorem float_budget_samples fuel a x (w w' : World) (A : AvgNode) active :
  0 < x ->
  avgs w !! a = Some A ->
  INR (length (sampled_nodes A)) <= x ->
  active_nodes fuel a (PyFloat x) w = Ok (active, w') ->
  x <= INR (length active) < x + 1 /\
  calls w' = (calls w + (length active - length (sampled_nodes A)))%nat /\
  (exists A', avgs w' !! a = Some A' /\ sampled_nodes A' = active) /\
  sum_list (snd (group active)) = length active /\
  1 <= INR (sum_list (snd (group active))) / x < 1 + 1 / x.
Proof.
  intros Hx Ha Hlen H. unfold active_nodes in H.
  inv_bind H as self w1 H1. apply get_avg_ok in H1 as [Ha' ->].
  rewrite Ha in Ha'. injection Ha' as <-. cbn [num_val] in H.
  rewrite (Rltb_false x (INR (length (sampled_nodes A)))) in H by assumption.
  inv_bind H as u w2 H2. inv_bind H as A' w3 H3.
  apply get_avg_ok in H3 as [Ha' ->]. apply ret_ok in H as [-> ->].
  destruct (sample_loop_ceiling fuel a (PyFloat x) w w2 A u H2 Ha) as
    (A'' & Ha'' & Hb & Hc & Hl); [cbn [num_val]; lra |].
  rewrite Ha' in Ha''. injection Ha'' as <-. cbn [num_val] in Hb.
  pose proof (group_grouped (sampled_nodes A')) as (_ & _ & _ & _ & Hsum).
  split; [assumption |]. split; [assumption |].
  split; [exists A'; split; [assumption | reflexivity] |].
  split; [assumption |].
  rewrite Hsum. destruct Hb as [Hb1 Hb2]. split.
  - apply Rmult_le_reg_r with x; [assumption |].
    replace (INR (length (sampled_nodes A')) / x * x)
      with (INR (length (sampled_nodes A'))) by (field; lra). lra.
  - apply Rmult_lt_reg_r with x; [assumption |].
    replace (INR (length (sampled_nodes A')) / x * x)
      with (INR (length (sampled_nodes A'))) by (field; lra).
    replace ((1 + 1 / x) * x) with (x + 1) by (field; lra). lra.
Qed.

End FloatSamples.

(** ** Runs on DummyState and instances of the properties above *)

(** Symbolic execution on DummyState stores. *)
Ltac run_dummy :=
  repeat (rewrite ?run_avg_unfold, ?run_max_unfold;
    unfold AvgNode_run, MaxNode_run, bind, ret, raise, nonreal, get_avg, get_max,
      get_state, of_option, set_avg, new_state, new_max, new_avg, deepcopy,
      state_step, AvgNode_init, MaxNode_init, append_sampled, add_reward,
      sample_once, py_slice_to, active_nodes, group, avg_result, count_one,
      py_max, elim_round, max_result, loop_test, retained;
    cbn [init_children find_node sample_loop index_of avg_children
         py_max_from estimate_all elim_loop candidates count lU lmu dict_set
         states maxs avgs calls a_state a_action a_gamma a_delta a_alpha a_eta a_K
         sampled_nodes a_r m_state m_gamma m_delta m_alpha m_eta m_K m_children
         num_val fst snd length app map fold_left List.filter
         lookup list_lookup insert list_insert alter list_alter take
         get_actions step state_eq action_eq default from_option
         dummy DummyState_step DummyState_get_actions DummyState_eq
         dummy_node dummy_store dummy_store_1 dummy_world
         Z.eqb Pos.eqb negb
         Nat.eqb Nat.ltb Nat.leb Z.leb Z.of_nat Z.to_nat Pos.of_succ_nat Pos.succ
         Pos.to_nat Pos.iter_op Nat.add Z.compare Pos.compare Pos.compare_cont
         andb INR Nat.sub Z.opp];
    repeat match goal with
           | |- context [Z.to_nat ?z] =>
               let n := eval vm_compute in (Z.to_nat z) in
               change (Z.to_nat z) with n
           | |- context [Z.of_nat ?k] =>
               let z := eval vm_compute in (Z.of_nat k) in
               change (Z.of_nat k) with z
           end;
    try decide_R).

Lemma dummy_first_call :
  @run Z Z dummy 4 (CallAvg 0%nat (PyInt 1) 1) dummy_store = Ok (1, dummy_store_1).
Proof. run_dummy. unfold dummy_store_1, Datatypes.id. same_outcome. Qed.

Lemma dummy_sampling :
  @sample_loop Z Z dummy 2 0%nat (PyInt 1) dummy_store = Ok (tt, dummy_store_1).
Proof. run_dummy. unfold dummy_store_1, Datatypes.id. same_outcome. Qed.

Lemma chain_sampling :
  @sample_loop nat nat chain 3 0%nat (PyInt 2) chain_world = Ok (tt, chain_world_2).
Proof. run_model. unfold chain_world_2. same_outcome. Qed.

Lemma chain_active :
  @active_nodes nat nat chain 3 0%nat (PyInt 2) chain_world
  = Ok ([0%nat; 0%nat], chain_world_2).
Proof. run_model. unfold chain_world_2. same_outcome. Qed.

Lemma chain_find :
  @find_node nat nat chain [0%nat; 0%nat] 2%nat chain_world_2
  = Ok (Some 0%nat, chain_world_2).
Proof. run_model. reflexivity. Qed.

Lemma chain_float_call :
  @run nat nat chain 4 (CallAvg 0%nat (PyFloat (3 / 2)) 1) chain_world
  = Ok (1, chain_world_2).
Proof. run_model. unfold chain_world_2. same_outcome. Qed.

Lemma three_halves_not_whole (k : nat) : INR k <> 3 / 2.
Proof.
  destruct k as [| [| k]].
  - cbn [INR]. lra.
  - cbn [INR]. lra.
  - rewrite !S_INR. pose proof (pos_INR k). lra.
Qed.

Lemma chain_single_action : @single_action nat nat chain.
Proof. intros s. exists 0%nat. reflexivity. Qed.

Lemma chain_world_one_child : one_child_store (1 / 4) (1 / 2) chain_world.
Proof.
  split.
  - intros a A Ha. destruct a as [| a]; [| discriminate]. cbn in Ha. injection Ha as <-.
    cbn [chain_node a_gamma a_eta a_state sampled_nodes chain_world states length].
    split; [reflexivity |]. split; [reflexivity |]. split; [lia |].
    intros x Hx. apply elem_of_nil in Hx. destruct Hx.
  - intros x Mx HMx. discriminate.
Qed.

Lemma dummy_store_unit : unit_store (1 / 4) dummy_store.
Proof.
  intros a A Ha. destruct a as [| a]; [| discriminate]. cbn in Ha. injection Ha as <-.
  cbn [dummy_node a_gamma a_r sampled_nodes length INR]. lra.
Qed.

Lemma MaxNode_init_builds_witness :
  exists Mx : MaxNode Z,
    @MaxNode_init Z Z dummy 0%nat (1 / 4) (3 / 4) 0 (3 / 4) dummy_world
    = Ok (0%nat,
          mkWorld [0%Z] [Mx]
                  (map (fresh_avg 0%nat (1 / 4) (3 / 4) 0 (3 / 4) 3%nat) [0%Z; 1%Z; 2%Z])
                  0%nat) /\
    m_K Mx = 3%nat /\ (length (m_children Mx) <= m_K Mx)%nat.
Proof.
  destruct (MaxNode_init_builds (GM:=dummy) 0%nat (1 / 4) (3 / 4) 0 (3 / 4)
              dummy_world 0%Z eq_refl)
    as (Mx & H & _ & _ & _ & _ & _ & HK & Hlen & _).
  exists Mx. split; [exact H |]. split; [exact HK | exact Hlen].
Defined.

Lemma no_action_state_witness :
  exists w' : World nat nat,
    @MaxNode_init nat nat dead_end 0%nat (1 / 2) (1 / 2) 0 (1 / 2) dead_end_world
    = Ok (0%nat, w') /\
    @run nat nat dead_end 1 (CallMax 0%nat (PyInt 1) 1) w' = Raise IndexError.
Proof.
  destruct (no_action_state (GM:=dead_end) 0%nat (1 / 2) (1 / 2) 0 (1 / 2)
              dead_end_world 0%nat eq_refl eq_refl) as (w' & H & Hr).
  exists w'. split; [exact H | exact (Hr 0%nat (PyInt 1) 1)].
Defined.

Lemma find_node_first_witness :
  exists pre post : list nat, [0%nat; 0%nat] = pre ++ 0%nat :: post.
Proof.
  destruct (find_node_first (GM:=chain) [0%nat; 0%nat] 2%nat chain_world_2 chain_world_2
              (Some 0%nat) chain_find) as (_ & pre & post & _ & _ & H & _).
  exists pre, post. exact H.
Defined.

Lemma sampling_cost_witness :
  calls chain_world_2
  = (calls chain_world + (Z.to_nat 2 - length (sampled_nodes chain_node)))%nat /\
  length [0%nat; 0%nat] = Z.to_nat 2.
Proof.
  destruct (sampling_cost (GM:=chain) 3 0%nat 2 chain_world chain_world_2 chain_node
              [0%nat; 0%nat] ltac:(lia) eq_refl chain_active) as (Hc & _ & _ & Hl).
  split; [exact Hc | exact Hl].
Defined.

Lemma dedup_deterministic_witness :
  exists A' : AvgNode nat,
    avgs chain_world_2 !! 0%nat = Some A' /\
    sampled_nodes A' = replicate (Z.to_nat 2) (length (maxs chain_world)).
Proof.
  exact (proj2 (dedup_deterministic (GM:=chain) 3 0%nat 2 chain_world chain_world_2
                  chain_node 0%nat 1%nat tt eq_refl eq_refl eq_refl ltac:(lia)
                  (fun n => eq_refl) eq_refl chain_sampling)).
Defined.

Lemma run_only_appends_witness :
  (forall i s, states chain_world !! i = Some s -> states chain_world_2 !! i = Some s) /\
  (calls chain_world <= calls chain_world_2)%nat.
Proof.
  destruct (run_only_appends (GM:=chain) 4 (CallAvg 0%nat (PyInt 2) 1) chain_world
              chain_world_2 1 chain_first_call) as (Hs & _ & _ & Hc).
  split; [exact Hs | exact Hc].
Defined.

Lemma run_keeps_tree_witness : wf chain_world_2.
Proof.
  exact (proj1 (run_keeps_tree (GM:=chain) 4 (CallAvg 0%nat (PyInt 2) 1) chain_world
                  chain_world_2 1 chain_world_wf chain_first_call)).
Defined.

Lemma elim_loop_exit_witness :
  candidates fork_loop_2 `sublist_of` map snd (m_children fork_max) /\
  ((length (candidates fork_loop_2) <= 1)%nat \/
   exists U, lU fork_loop_2 = Some U /\ U < (1 - m_eta fork_max) * 2).
Proof.
  destruct (elim_loop_exit 7 (@run nat nat fork 7) fork_max 2
              (mkLoop (map snd (m_children fork_max)) 1 None [])
              fork_world_2 fork_world_2 fork_loop_2 fork_loop_again) as (Hs & _ & He).
  split; [exact Hs | exact He].
Defined.

Lemma estimate_in_range_witness :
  0 <= 1 <= 1 / (1 - 1 / 4) /\ unit_store (1 / 4) dummy_store_1.
Proof.
  apply (estimate_in_range (GM:=dummy) (1 / 4) 4 (CallAvg 0%nat (PyInt 1) 1)
           dummy_store dummy_store_1 1).
  - lra.
  - exact dummy_rewards_in_unit.
  - exact dummy_store_unit.
  - exists 1%Z. split; [reflexivity | lia].
  - exact dummy_first_call.
Defined.

Lemma eta_schedule_witness : derive_eta (1 / 2) 1 = sqrt (1 / 2).
Proof.
  apply (proj1 (eta_schedule (1 / 2) ltac:(lra)) 1).
  left. rewrite <- exp_0. apply exp_increasing. lra.
Defined.

Lemma TrailBlazer_init_builds_witness :
  exists tb (w' : World nat nat),
    @TrailBlazer_init nat nat chain 0%nat (1 / 2) (1 / 2) 1 chain_start = Ok (tb, w') /\
    tb_K tb = 1%nat /\ calls w' = 0%nat.
Proof.
  eexists _, _. split.
  - apply (TrailBlazer_init_builds (GM:=chain) 0%nat (1 / 2) (1 / 2) 1 chain_start 0%nat);
      [reflexivity | lra | lra | lra].
  - split; reflexivity.
Defined.

Lemma DummyState_return_witness : fst (DummyState_episode 0 [1%Z; 0%Z]) = Some 1.
Proof.
  refine (proj2 (DummyState_return 0 [1%Z; 0%Z] _)).
  intros action Ha. unfold DummyState_get_actions.
  apply elem_of_cons in Ha as [-> | Ha].
  - apply elem_of_cons. right. apply elem_of_cons. left. reflexivity.
  - apply list_elem_of_singleton in Ha as ->. apply elem_of_cons. left. reflexivity.
Defined.

Lemma DummyState_one_child_witness :
  exists A' : AvgNode Z,
    avgs dummy_store_1 !! 0%nat = Some A' /\
    sampled_nodes A' = replicate (Z.to_nat 1) (length (maxs dummy_store)).
Proof.
  exact (proj2 (DummyState_one_child 2 0%nat 1 dummy_store dummy_store_1 dummy_node 0%Z tt
                  eq_refl eq_refl eq_refl ltac:(lia) dummy_sampling)).
Defined.

Lemma DummyState_estimate_range_witness : 0 <= 1 <= 1 / (1 - 1 / 4).
Proof.
  apply (DummyState_estimate_range (1 / 4) 4 (CallAvg 0%nat (PyInt 1) 1)
           dummy_store dummy_store_1 1).
  - lra.
  - exact dummy_store_unit.
  - exists 1%Z. split; [reflexivity | lia].
  - exact dummy_first_call.
Defined.

Lemma float_budget_not_reusable_witness :
  @run nat nat chain 1 (CallAvg 0%nat (PyFloat (3 / 2)) 1) chain_world_2
  = Raise TypeError.
Proof.
  apply (float_budget_not_reusable (GM:=chain) 4 0 0%nat (3 / 2) 1 1 chain_world
           chain_world_2 chain_node 1).
  - exact three_halves_not_whole.
  - reflexivity.
  - cbn [chain_node a_gamma]. lra.
  - cbn [chain_node a_gamma]. lra.
  - exact chain_float_call.
Defined.

Lemma elim_loop_ends_witness :
  exists L : nat, forall fuel, (L <= fuel)%nat ->
    @elim_loop nat nat fuel (fun _ => ret 0) fork_max 2
      (mkLoop (map snd (m_children fork_max)) 1 None []) fork_world_2 <> OutOfFuel.
Proof.
  destruct (elim_loop_ends (State:=nat) fork_max 2) as [L HL].
  - cbn [fork_max m_gamma]. lra.
  - cbn [fork_max m_eta]. lra.
  - lra.
  - exists L. intros fuel Hf.
    refine (proj1 (HL (fun _ => ret 0) _ fuel fork_world_2 Hf)).
    intros c w. discriminate.
Defined.

Lemma single_action_returns_witness :
  exists N : nat, forall fuel, (N <= fuel)%nat ->
    exists v (w' : World nat nat),
      @run nat nat chain fuel (CallAvg 0%nat (PyInt 2) 1) chain_world = Ok (v, w') /\
      one_child_store (1 / 4) (1 / 2) w'.
Proof.
  apply (single_action_returns (GM:=chain) (1 / 4) (1 / 2)).
  - exact chain_single_action.
  - lra.
  - lra.
  - exact chain_world_one_child.
  - cbn. lia.
  - exists 2%Z. split; [reflexivity | lia].
  - cbn [precision]. lra.
Defined.

Lemma planner_returns_witness :
  exists tb (w' : World nat nat),
    @TrailBlazer_init nat nat chain 0%nat (1 / 2) (1 / 2) 1 chain_start = Ok (tb, w') /\
    exists N : nat, forall fuel, (N <= fuel)%nat ->
      exists v (w'' : World nat nat), @TrailBlazer_run nat nat chain fuel tb w' = Ok (v, w'').
Proof.
  apply (planner_returns (GM:=chain) 0%nat (1 / 2) (1 / 2) 1 chain_start 0%nat).
  - exact chain_single_action.
  - reflexivity.
  - reflexivity.
  - reflexivity.
  - lra.
  - lra.
  - lra.
Defined.

Lemma TrailBlazer_run_not_zde_witness :
  exists tb (w' : World nat nat),
    @TrailBlazer_init nat nat chain 0%nat (1 / 2) (1 / 2) 1 chain_world = Ok (tb, w') /\
    forall fuel, @TrailBlazer_run nat nat chain fuel tb w' <> Raise ZeroDivisionError.
Proof.
  apply (TrailBlazer_run_not_zde (GM:=chain) 0%nat (1 / 2) (1 / 2) 1 chain_world 0%nat);
    [reflexivity | lra | lra | lra].
Defined.

Lemma fork_has_actions : @has_actions nat nat fork.
Proof. intros s. destruct s as [| [| s]]; discriminate. Qed.

Lemma fork_world_sound : sound_store fork_world.
Proof.
  split.
  - intros a A Ha. destruct a as [| a]; [| discriminate]. cbn in Ha. injection Ha as <-.
    cbn [fork_node a_gamma a_delta a_eta a_state sampled_nodes fork_world states length].
    split; [unfold in_ranges; lra |]. split; [lia |].
    intros x Hx. apply elem_of_nil in Hx. destruct Hx.
  - intros x Mx HMx. discriminate.
Qed.

Lemma no_exception_witness :
  (forall e, @run nat nat fork 8 (CallAvg 0%nat (PyInt 2) (1 / 2)) fork_world <> Raise e) /\
  (forall v w', @run nat nat fork 8 (CallAvg 0%nat (PyInt 2) (1 / 2)) fork_world
                = Ok (v, w') -> sound_store w').
Proof.
  apply (no_exception (GM:=fork) (CallAvg 0%nat (PyInt 2) (1 / 2)) fork_world).
  - exact fork_has_actions.
  - exact fork_world_sound.
  - cbn. lia.
  - exists 2%Z. split; [reflexivity | lia].
  - cbn [precision]. lra.
Defined.

Lemma chain_world_det : @det_store nat nat steady (1 / 4) (1 / 2) chain_world.
Proof.
  split; [exact chain_world_one_child |]. split.
  - intros a A Ha. destruct a as [| a]; [| discriminate]. cbn in Ha. injection Ha as <-.
    exists 0%nat. split; [reflexivity |].
    cbn [chain_node a_r sampled_nodes length INR]. split; [ring |].
    intros x Hx. apply elem_of_nil in Hx. destruct Hx.
  - intros x Mx HMx. discriminate.
Qed.

Lemma deterministic_chain_estimate_witness :
  exists d N : nat,
    (forall fuel, (N <= fuel)%nat ->
       exists w', @run nat nat steady fuel (CallAvg 0%nat (PyInt 2) 1) chain_world
                  = Ok (@dret nat nat steady (1 / 4) d 0%nat 0%nat, w')) /\
    (forall n, (d <= n)%nat ->
       0 <= @dret nat nat steady (1 / 4) n 0%nat 0%nat
            - @dret nat nat steady (1 / 4) d 0%nat 0%nat <= 1).
Proof.
  apply (deterministic_chain_estimate (GM:=steady) (1 / 4) (1 / 2) 0%nat 2 1
           chain_world chain_node 0%nat).
  - intros s. exists 0%nat. reflexivity.
  - intros s a n. reflexivity.
  - intros s a n. cbn. lra.
  - lra.
  - lra.
  - exact chain_world_det.
  - reflexivity.
  - reflexivity.
  - lia.
  - lra.
Defined.

Lemma chain_float_active :
  @active_nodes nat nat chain 3 0%nat (PyFloat (3 / 2)) chain_world
  = Ok ([0%nat; 0%nat], chain_world_2).
Proof. run_model. unfold chain_world_2. same_outcome. Qed.

Lemma float_budget_samples_witness :
  3 / 2 <= INR (length [0%nat; 0%nat]) < 3 / 2 + 1 /\
  1 <= INR (sum_list (snd (group [0%nat; 0%nat]))) / (3 / 2) < 1 + 1 / (3 / 2).
Proof.
  assert (Hlen : INR (length (sampled_nodes chain_node)) <= 3 / 2).
  { cbn [chain_node sampled_nodes length INR]. lra. }
  destruct (float_budget_samples (GM:=chain) 3 0%nat (3 / 2) chain_world chain_world_2
              chain_node [0%nat; 0%nat] ltac:(lra) eq_refl Hlen chain_float_active)
    as (H1 & _ & _ & _ & H2).
  split; assumption.
Defined.
